(** * mymalloc: a segregated-fits allocator (mm.c)

    Shallow embedding of [mm.c] and of the helper routines it declares,
    followed by the properties of the allocator that are checked against it:
    first those read off one function, then the heap invariant (boundary
    tags tiling the region, every free block on the list of its class), its
    preservation by the helpers and by [mm_init], [mm_malloc] and [mm_free],
    what [mm_realloc] does to the payload of a block of such a heap, and
    last the layouts the public functions produce, the heaps reached through
    [mm_init], [mm_malloc] and [mm_free], and the macros that walk a heap.

    Target: LP64 ([__SIZEOF_POINTER__ = sizeof(unsigned long) = 8]).  Every
    address the allocator computes is a multiple of [WSIZE] as soon as the
    start of the region is, and [GET]/[PUT] access one [unsigned long], so the
    memory is a store of 64-bit words indexed by their byte address. *)

From Stdlib Require Import ZArith Lia List Bool.
From stdpp Require Import base option gmap.

Open Scope Z_scope.

(** ** Machine arithmetic *)

(** [size_t] / [unsigned long] arithmetic wraps modulo [2^64]. *)
Definition wrap64 (z : Z) : Z := z mod 2 ^ 64.

(** Conversion to [int] (two's complement, 32 bits). *)
Definition int32 (z : Z) : Z := (z + 2 ^ 31) mod 2 ^ 32 - 2 ^ 31.

(** ** Basic constants and macros (mm.c, lines 36-71) *)

Definition ALIGNMENT : Z := 8.
Definition WSIZE : Z := 8.
Definition DSIZE : Z := 2 * WSIZE.
Definition CHUNKSIZE : Z := Z.shiftl 1 12 + DSIZE.
Definition INITSIZE : Z := Z.shiftl 1 7 + DSIZE.
Definition LISTSIZE : Z := 16.
Definition THRESHOLD : Z := 7.

Definition NULL : Z := 0.
(** [(void * ) -1] *)
Definition MINUS1 : Z := 2 ^ 64 - 1.

Definition ALIGN (size : Z) : Z :=
  wrap64 (wrap64 (size + (ALIGNMENT - 1)) / ALIGNMENT * ALIGNMENT).

Definition MAX (x y : Z) : Z := if x >? y then x else y.

Definition PACK (size alloc : Z) : Z := Z.lor size alloc.

(** The allocator state: the simulated memory, the static [heap_ptr], and the
    break and limit of the region-growth primitive. *)
Record heap : Type := mkHeap {
  mem : gmap Z Z;
  heap_ptr : Z;
  mem_brk : Z;
  mem_max_addr : Z
}.

Definition GET (st : heap) (p : Z) : Z := default 0 (mem st !! p).

Definition PUT (st : heap) (p val : Z) : heap :=
  mkHeap (<[p := val]> (mem st)) (heap_ptr st) (mem_brk st) (mem_max_addr st).

Definition GET_SIZE (st : heap) (p : Z) : Z := Z.land (GET st p) (Z.lnot 7).
Definition GET_ALLOC (st : heap) (p : Z) : Z := Z.land (GET st p) 1.

Definition HDRP (bp : Z) : Z := bp - WSIZE.
Definition FTRP (st : heap) (bp : Z) : Z := bp + GET_SIZE st (HDRP bp) - DSIZE.

Definition NEXT_BLKP (st : heap) (bp : Z) : Z := bp + GET_SIZE st (bp - WSIZE).
Definition PREV_BLKP (st : heap) (bp : Z) : Z := bp - GET_SIZE st (bp - DSIZE).

Definition PRED_BLKP (st : heap) (bp : Z) : Z := GET st bp.
Definition SUCC_BLKP (st : heap) (bp : Z) : Z := GET st (bp + WSIZE).

(** mm.c, lines 80-82 *)
Definition freelists (st : heap) (index : Z) : Z :=
  heap_ptr st - (LISTSIZE + 1 - index) * WSIZE.

(** ** The collaborators that mm.c only declares *)

(** Modelled from the spec: [mem_sbrk] (memlib.h), the region-growth
    primitive of section 6: it extends the region upward by exactly [incr]
    bytes and returns the previous end, or fails with [(void * ) -1] and
    changes nothing; the capacity [mem_max_addr] decides which. *)
Definition mem_sbrk (st : heap) (incr : Z) : heap * Z :=
  if (incr <? 0) || (mem_max_addr st <? mem_brk st + incr)
  then (st, MINUS1)
  else (mkHeap (mem st) (heap_ptr st) (mem_brk st + incr) (mem_max_addr st),
        mem_brk st).

(** Modelled from the spec: [align_size] (declared at mm.c line 90), the
    rounding of section 4.4 step 2: up to the alignment unit and to the
    minimum block size of four words (mm.c lines 142-143).  The overhead is a
    header and a footer, the two tags [mm_realloc] writes on an allocated
    block. *)
Definition align_size (size : Z) : Z :=
  MAX (4 * WSIZE) (ALIGN (wrap64 (size + DSIZE))).

(** Modelled from the spec: the size-class map of section 4.2, which [add_free]
    and [pop_free] share.  The spec leaves the thresholds open (section 9) and
    asks for a monotonic partition into [LISTSIZE] classes; powers of two are
    taken: halve the size while it exceeds one and the last class is not
    reached. *)
Fixpoint class_from (n : nat) (index size : Z) : Z :=
  match n with
  | O => index
  | S n' => if (index <? LISTSIZE - 1) && (size >? 1)
            then class_from n' (index + 1) (Z.shiftr size 1)
            else index
  end.

Definition class_of (size : Z) : Z := class_from (Z.to_nat LISTSIZE) 0 size.

(** Number of steps granted to a walk along a free list: a list of distinct
    blocks inside the region is shorter than the region has words. *)
Definition walk_fuel (st : heap) : nat :=
  Z.to_nat ((mem_brk st - heap_ptr st) / WSIZE).

(** The walk of [add_free]: from [cur], with [prev] the entry before it, to
    the first entry whose size is [>= size]; [None] when the steps run out
    (a list that never ends). *)
Fixpoint find_place (st : heap) (n : nat) (size prev cur : Z) : option (Z * Z) :=
  if (cur =? NULL) || (size <=? GET_SIZE st (HDRP cur)) then Some (prev, cur)
  else match n with
       | O => None
       | S n' => find_place st n' size cur (SUCC_BLKP st cur)
       end.

(** Modelled from the spec: [add_free] (declared at mm.c line 88), the
    [insert] of section 4.2.  The class and the sizes compared are those of the
    headers, not the [size] argument; the block goes before the first entry
    whose size is [>=] its own. *)
Definition add_free (st : heap) (ptr size : Z) : option heap :=
  let bsize := GET_SIZE st (HDRP ptr) in
  let slot := freelists st (class_of bsize) in
  match find_place st (walk_fuel st) bsize NULL (GET st slot) with
  | None => None
  | Some (prev, cur) =>
      let st := PUT st ptr prev in
      let st := PUT st (ptr + WSIZE) cur in
      let st := if cur =? NULL then st else PUT st cur ptr in
      Some (if prev =? NULL then PUT st slot ptr else PUT st (prev + WSIZE) ptr)
  end.

(** Modelled from the spec: [pop_free] (declared at mm.c line 89), the
    [remove] of section 4.2: the block is spliced out through its stored links
    and the class head is updated when the block was first. *)
Definition pop_free (st : heap) (ptr : Z) : heap :=
  let pred := PRED_BLKP st ptr in
  let succ := SUCC_BLKP st ptr in
  let slot := freelists st (class_of (GET_SIZE st (HDRP ptr))) in
  let st := if pred =? NULL then PUT st slot succ else PUT st (pred + WSIZE) succ in
  if succ =? NULL then st else PUT st succ pred.

(** Modelled from the spec: [coalesce] (declared at mm.c line 86), step 2 of
    section 4.5.  The block [ptr] is free and in its list.  Right neighbour
    first ([merge_next]): if free it leaves its list, the sizes are merged, and
    the combined block is removed and re-inserted.  Then the left neighbour
    ([merge_prev]), found through the footer before [ptr] and judged by its
    header's allocation bit: the symmetric merge.  The result is the merged
    block. *)
Definition merge_next (st : heap) (ptr : Z) : option heap :=
  let next := NEXT_BLKP st ptr in
  if GET_ALLOC st (HDRP next) =? 0 then
    let size := wrap64 (GET_SIZE st (HDRP ptr) + GET_SIZE st (HDRP next)) in
    let st := pop_free st next in
    let st := pop_free st ptr in
    let st := PUT st (HDRP ptr) (PACK size 0) in
    let st := PUT st (FTRP st ptr) (PACK size 0) in
    add_free st ptr size
  else Some st.

Definition merge_prev (st : heap) (ptr : Z) : option (heap * Z) :=
  let prev := PREV_BLKP st ptr in
  if GET_ALLOC st (HDRP prev) =? 0 then
    let size := wrap64 (GET_SIZE st (HDRP prev) + GET_SIZE st (HDRP ptr)) in
    let st := pop_free st prev in
    let st := pop_free st ptr in
    let st := PUT st (HDRP prev) (PACK size 0) in
    let st := PUT st (FTRP st prev) (PACK size 0) in
    st ← add_free st prev size;
    Some (st, prev)
  else Some (st, ptr).

Definition coalesce (st : heap) (ptr : Z) : option (heap * Z) :=
  st ← merge_next st ptr;
  merge_prev st ptr.

(** Modelled from the spec: [extend_heap] (declared at mm.c line 85), the
    [grow] of section 4.3.  The request is rounded up to the alignment; its
    callers apply the chunk minimum.  When the primitive fails nothing has been
    written and the result is [NULL].  Otherwise the granted bytes become one
    free block whose header overwrites the old epilogue, a new epilogue ends
    the region, and the block is inserted and merged with the block before
    it. *)
Definition extend_heap (st : heap) (size : Z) : option (heap * Z) :=
  let size := ALIGN size in
  let '(st', bp) := mem_sbrk st size in
  if bp =? MINUS1 then Some (st, NULL)
  else
    let st := PUT st' (HDRP bp) (PACK size 0) in
    let st := PUT st (FTRP st bp) (PACK size 0) in
    let st := PUT st (HDRP (NEXT_BLKP st bp)) (PACK 0 1) in
    st ← add_free st bp size;
    coalesce st bp.

(** Modelled from the spec: [place] (declared at mm.c line 87), steps 5 and 6
    of section 4.4.  The free block leaves its list; when the leftover after
    [size] bytes is at least the minimum block size the block shrinks to [size]
    and the remainder becomes a new free block in the directory, otherwise the
    whole block is kept; the result is marked allocated, in the header and in
    the footer as [mm_realloc] does, and returned. *)
Definition place (st : heap) (ptr size : Z) : option (heap * Z) :=
  let bsize := GET_SIZE st (HDRP ptr) in
  let st := pop_free st ptr in
  if 4 * WSIZE <=? bsize - size then
    let st := PUT st (HDRP ptr) (PACK size 1) in
    let st := PUT st (FTRP st ptr) (PACK size 1) in
    let rest := NEXT_BLKP st ptr in
    let st := PUT st (HDRP rest) (PACK (bsize - size) 0) in
    let st := PUT st (FTRP st rest) (PACK (bsize - size) 0) in
    st ← add_free st rest (bsize - size);
    Some (st, ptr)
  else
    let st := PUT st (HDRP ptr) (PACK bsize 1) in
    let st := PUT st (FTRP st ptr) (PACK bsize 1) in
    Some (st, ptr).

(** [memcpy] on whole words: [n] words from [src] to [dst]. *)
Fixpoint copy_words (st : heap) (n : nat) (dst src : Z) : heap :=
  match n with
  | O => st
  | S n' => copy_words (PUT st dst (GET st src)) n' (dst + WSIZE) (src + WSIZE)
  end.

Definition memcpy (st : heap) (dst src len : Z) : heap :=
  copy_words st (Z.to_nat (len / WSIZE)) dst src.

(** ** The public functions of mm.c *)

(** mm.c, lines 99-133.  The result is the returned [int]. *)
Definition mm_init (st : heap) : option (heap * Z) :=
  let '(st, p) := mem_sbrk st ((LISTSIZE + 4) * WSIZE) in
  let st := mkHeap (mem st) p (mem_brk st) (mem_max_addr st) in
  if p =? MINUS1 then Some (st, -1)
  else
    let st := PUT st (heap_ptr st) 0 in
    let st := PUT st (heap_ptr st + (LISTSIZE + 1) * WSIZE) (PACK DSIZE 1) in
    let st := PUT st (heap_ptr st + (LISTSIZE + 2) * WSIZE) (PACK DSIZE 1) in
    let st := PUT st (heap_ptr st + (LISTSIZE + 3) * WSIZE) (PACK 0 1) in
    let st := fold_left (fun st i => PUT st (heap_ptr st + i * WSIZE) 0)
                        (map Z.of_nat (seq 1 (Z.to_nat LISTSIZE))) st in
    let st := mkHeap (mem st) (heap_ptr st + (LISTSIZE + 2) * WSIZE)
                     (mem_brk st) (mem_max_addr st) in
    '(st, bp) ← extend_heap st INITSIZE;
    if bp =? NULL then Some (st, -1) else Some (st, 0).

(** The directory scan of [mm_malloc] (mm.c lines 150-159): [n] bounds the
    iterations left, the loop itself stops at [LISTSIZE]. *)
Fixpoint scan (st : heap) (size : Z) (n : nat) (index : Z) : Z :=
  match n with
  | O => NULL
  | S n' =>
      if index <? LISTSIZE then
        if negb (GET st (freelists st index) =? 0)
           && (GET_SIZE st (HDRP (GET st (freelists st index))) >? size)
        then GET st (freelists st index)
        else scan st size n' (index + 1)
      else NULL
  end.

(** mm.c, lines 138-177 *)
Definition mm_malloc (st : heap) (size : Z) : option (heap * Z) :=
  if size =? 0 then Some (st, NULL)
  else
    let size := align_size size in
    let bp := scan st size (Z.to_nat LISTSIZE) 0 in
    if bp =? NULL then
      '(st, bp) ← extend_heap st (MAX size CHUNKSIZE);
      if bp =? NULL then Some (st, NULL) else place st bp size
    else place st bp size.

(** mm.c, lines 182-197 *)
Definition mm_free (st : heap) (bp : Z) : option heap :=
  let size := GET_SIZE st (HDRP bp) in
  let st := PUT st (HDRP bp) (PACK size 0) in
  let st := PUT st (FTRP st bp) (PACK size 0) in
  st ← add_free st bp size;
  '(st, _) ← coalesce st bp;
  Some st.

(** Case 1-b of [mm_realloc] (mm.c lines 226-228): the right neighbour leaves
    its list and the block takes [size + rem_size] bytes. *)
Definition absorb_next (st : heap) (bp size rem_size : Z) : heap :=
  let st := pop_free st (NEXT_BLKP st bp) in
  let st := PUT st (HDRP bp) (PACK (wrap64 (size + rem_size)) 1) in
  PUT st (FTRP st bp) (PACK (wrap64 (size + rem_size)) 1).

(** Case 2 of [mm_realloc] (mm.c lines 233-235). *)
Definition move_block (st : heap) (bp size : Z) : option (heap * Z) :=
  '(st, new_bp) ← mm_malloc st size;
  let st := memcpy st new_bp bp (GET_SIZE st (HDRP bp)) in
  st ← mm_free st bp;
  Some (st, new_bp).

(** The [int rem_size] of [mm_realloc] (mm.c line 218). *)
Definition rem_size_of (st : heap) (bp size : Z) : Z :=
  int32 (wrap64 (GET_SIZE st (HDRP bp)
                 + GET_SIZE st (HDRP (NEXT_BLKP st bp)) - size)).

(** mm.c, lines 202-245 *)
Definition mm_realloc (st : heap) (bp size : Z) : option (heap * Z) :=
  if size =? 0 then Some (st, NULL)
  else
    let size := align_size size in
    if size <=? GET_SIZE st (HDRP bp) then Some (st, bp)
    else
      let next_epi := GET_SIZE st (HDRP (NEXT_BLKP st bp)) =? 0 in
      let next_free := GET_ALLOC st (HDRP (NEXT_BLKP st bp)) =? 0 in
      if next_free || next_epi then
        let rem_size := rem_size_of st bp size in
        if rem_size <? 0 then
          '(st, r) ← extend_heap st (MAX CHUNKSIZE (int32 (- rem_size)));
          if r =? NULL then Some (st, NULL)
          else
            let rem_size := int32 (rem_size + MAX CHUNKSIZE (int32 (- rem_size))) in
            Some (absorb_next st bp size rem_size, bp)
        else Some (absorb_next st bp size rem_size, bp)
      else move_block st bp size.

(** ** Sequences of public calls

    A client is a list of calls; a block is named by the position of the call
    that returned it. *)
Inductive call : Type :=
  | Malloc (size : Z)
  | Free (i : nat)
  | Realloc (i : nat) (size : Z).

Definition do_call (st : heap) (ptrs : list Z) (c : call) : option (heap * list Z) :=
  match c with
  | Malloc size =>
      '(st, p) ← mm_malloc st size; Some (st, ptrs ++ [p])
  | Free i =>
      st ← mm_free st (nth i ptrs NULL); Some (st, ptrs ++ [NULL])
  | Realloc i size =>
      '(st, p) ← mm_realloc st (nth i ptrs NULL) size; Some (st, ptrs ++ [p])
  end.

Fixpoint do_calls (st : heap) (ptrs : list Z) (cs : list call) : option (heap * list Z) :=
  match cs with
  | [] => Some (st, ptrs)
  | c :: cs' => '(st, ptrs) ← do_call st ptrs c; do_calls st ptrs cs'
  end.

(** A run: [mm_init] on an empty region that starts at [start] and may grow up
    to [limit], then the calls. *)
Definition run (start limit : Z) (cs : list call) : option (heap * list Z) :=
  '(st, r) ← mm_init (mkHeap ∅ NULL start limit);
  if r =? 0 then do_calls st [] cs else None.

(** ** Observations of the heap *)

(** The implicit list (section 6, consistency checker): the blocks from [bp]
    on, each with its size and allocation bit, up to the first header of size
    zero. *)
Fixpoint blocks_from (st : heap) (n : nat) (bp : Z) : list (Z * Z * Z) :=
  match n with
  | O => []
  | S n' =>
      if GET_SIZE st (HDRP bp) =? 0 then []
      else (bp, GET_SIZE st (HDRP bp), GET_ALLOC st (HDRP bp))
             :: blocks_from st n' (NEXT_BLKP st bp)
  end.

Definition first_block (st : heap) : Z := heap_ptr st + DSIZE.

Definition heap_blocks (st : heap) : list (Z * Z * Z) :=
  blocks_from st (walk_fuel st) (first_block st).

(** Two neighbours of the implicit list that are both free. *)
Fixpoint adjacent_free (l : list (Z * Z * Z)) : bool :=
  match l with
  | (_, _, a1) :: (((_, _, a2) :: _) as l') =>
      ((a1 =? 0) && (a2 =? 0)) || adjacent_free l'
  | _ => false
  end.

(** The entries of a free list, following the successor links from [bp]. *)
Fixpoint list_from (st : heap) (n : nat) (bp : Z) : list Z :=
  match n with
  | O => []
  | S n' => if bp =? NULL then [] else bp :: list_from st n' (SUCC_BLKP st bp)
  end.

Definition class_list (st : heap) (index : Z) : list Z :=
  list_from st (walk_fuel st) (GET st (freelists st index)).

(** The sizes stored in the headers of a list's entries, and their order. *)
Definition sizes_of (st : heap) (l : list Z) : list Z :=
  map (fun bp => GET_SIZE st (HDRP bp)) l.

Fixpoint ascending (l : list Z) : bool :=
  match l with
  | x :: ((y :: _) as l') => (x <=? y) && ascending l'
  | _ => true
  end.

(** ** Example heaps *)

Definition heap_of {A : Type} (o : option (heap * A)) : heap :=
  match o with
  | Some (st, _) => st
  | None => mkHeap ∅ NULL 0 0
  end.

(** One block of 32 bytes at 1184, then the free remainder of the first
    chunk. *)
Definition one_block : heap := heap_of (run 1024 65536 [Malloc 8]).


(** Two blocks of 32 bytes at 1184 and 1216 in a region that cannot grow past
    its initial extent; the client has written a word into the first one. *)
Definition full_region : heap :=
  PUT (heap_of (run 1024 1328 [Malloc 8; Malloc 8])) 1184 23130.

(** ** Relations between two heaps, and example clients *)

(** Only [mem_sbrk] moves the break; only [mm_init] sets [heap_ptr]. *)
Definition same_region (st st' : heap) : Prop :=
  heap_ptr st' = heap_ptr st ∧ mem_brk st' = mem_brk st
  ∧ mem_max_addr st' = mem_max_addr st.

(** The region after the growth [mm_realloc] asked for: [extend_heap]
    succeeded with [ext] bytes, or no growth was needed ([ext = 0]). *)
Definition grown (st : heap) (ext : Z) (st1 : heap) : Prop :=
  if ext =? 0 then st1 = st
  else ∃ r, extend_heap st ext = Some (st1, r) ∧ r ≠ NULL.

(** Five blocks, the second and the last two released; the last two have
    merged. *)
Definition before_overrun : list call :=
  [Malloc 8; Malloc 8; Malloc 4096; Malloc 8; Malloc 8; Free 1; Free 3; Free 4].

(** Seven blocks, the second, the sixth and the fourth released in that
    order: three free blocks of 32 bytes in class 5, none next to another. *)
Definition before_overwrite : list call :=
  [Malloc 8; Malloc 8; Malloc 4096; Malloc 8; Malloc 8; Malloc 8; Malloc 8;
   Free 1; Free 5; Free 3].

(** * The heap invariant *)

(** ** Layouts and lists *)

(** A boundary tag: the size with the allocation bit. *)
Definition tag (s : Z) (al : bool) : Z := s + (if al then 1 else 0).

(** The blocks of the region, in address order: size and allocation state. *)
Definition layout : Type := list (Z * bool).

(** The bytes a layout covers. *)
Fixpoint total (bl : layout) : Z :=
  match bl with
  | [] => 0
  | (s, _) :: r => s + total r
  end.

(** The tags of the blocks of [bl], laid out from the header address [a]. *)
Fixpoint tiled_seg (st : heap) (a : Z) (bl : layout) : Prop :=
  match bl with
  | [] => True
  | (s, al) :: r =>
      32 <= s ∧ s mod 8 = 0 ∧ GET st a = tag s al
      ∧ GET st (a + s - 8) = tag s al ∧ tiled_seg st (a + s) r
  end.

(** [bp] is the block of size [s] and state [al] in the layout from [a]. *)
Fixpoint blk_at (a : Z) (bl : layout) (bp s : Z) (al : bool) : Prop :=
  match bl with
  | [] => False
  | (s0, al0) :: r => (bp = a + 8 ∧ s = s0 ∧ al = al0) ∨ blk_at (a + s0) r bp s al
  end.

(** Every block is at least four words and a whole number of words. *)
Definition sized (bl : layout) : Prop :=
  Forall (λ b : Z * bool, 32 <= fst b ∧ fst b mod 8 = 0) bl.

(** A stretch of a doubly linked list: from [cur], whose predecessor link is
    [prev], through the blocks of [l], to [nxt]. *)
Fixpoint dllseg (st : heap) (prev cur : Z) (l : list Z) (nxt : Z) : Prop :=
  match l with
  | [] => cur = nxt
  | b :: l' =>
      cur = b ∧ b ≠ NULL ∧ PRED_BLKP st b = prev
      ∧ dllseg st b (SUCC_BLKP st b) l' nxt
  end.

(** The directory: class [i] heads the list [fl i]. *)
Definition lists_ok (st : heap) (fl : Z → list Z) : Prop :=
  ∀ i, 0 <= i < LISTSIZE →
       dllseg st NULL (GET st (freelists st i)) (fl i) NULL.

(** The lists against the layout: a listed block is a free block of its
    class's list only, and every free block is listed, those of [U] apart. *)
Definition linked (a : Z) (bl : layout) (fl : Z → list Z) (U : list Z) : Prop :=
  (∀ i b, b ∈ fl i →
          0 <= i < LISTSIZE ∧ ∃ s, blk_at a bl b s false ∧ class_of s = i)
  ∧ (∀ b s, blk_at a bl b s false → b ∈ U ∨ b ∈ fl (class_of s))
  ∧ (∀ i, NoDup (fl i))
  ∧ (∀ b i, b ∈ U → b ∉ fl i).

(** The fixed part: the directory and the prologue lie below the first
    block, the break is within the limit. *)
Definition region_ok (st : heap) : Prop :=
  136 < heap_ptr st ∧ heap_ptr st mod 8 = 0
  ∧ mem_brk st <= mem_max_addr st ∧ mem_max_addr st < 2 ^ 62
  ∧ GET st (heap_ptr st - WSIZE) = PACK DSIZE 1
  ∧ GET st (heap_ptr st) = PACK DSIZE 1.

(** The memory represents the layout [bl] and the lists [fl]. *)
Definition rep (st : heap) (bl : layout) (fl : Z → list Z) : Prop :=
  region_ok st
  ∧ tiled_seg st (heap_ptr st + WSIZE) bl
  ∧ heap_ptr st + WSIZE + total bl = mem_brk st - WSIZE
  ∧ GET st (mem_brk st - WSIZE) = PACK 0 1
  ∧ lists_ok st fl.

(** A well-formed heap: it represents some layout, with every free block on
    its list. *)
Definition wf (st : heap) : Prop :=
  ∃ bl fl, rep st bl fl ∧ linked (heap_ptr st + WSIZE) bl fl [].

(** [bp] is an allocated block of [size] bytes. *)
Definition allocated (st : heap) (bp size : Z) : Prop :=
  ∃ bl fl, rep st bl fl ∧ linked (heap_ptr st + WSIZE) bl fl []
           ∧ blk_at (heap_ptr st + WSIZE) bl bp size true.

(** The last entry of a list, [d] for the empty list. *)
Definition last_or (d : Z) (l : list Z) : Z := default d (last l).

(** ** The writes of the list helpers *)

(** The writes of [pop_free], for the directory slot [slot]. *)
Definition unlink (st : heap) (slot ptr : Z) : heap :=
  let pred := PRED_BLKP st ptr in
  let succ := SUCC_BLKP st ptr in
  let st := if pred =? NULL then PUT st slot succ else PUT st (pred + WSIZE) succ in
  if succ =? NULL then st else PUT st succ pred.

(** The writes of [add_free], for the directory slot [slot] and the place
    between [prev] and [cur]. *)
Definition link (st : heap) (slot ptr prev cur : Z) : heap :=
  let st := PUT st ptr prev in
  let st := PUT st (ptr + WSIZE) cur in
  let st := if cur =? NULL then st else PUT st cur ptr in
  if prev =? NULL then PUT st slot ptr else PUT st (prev + WSIZE) ptr.

(** The blocks of a list lie apart from each other and above the slot. *)
Definition apart (slot : Z) (l : list Z) : Prop :=
  (∀ x, x ∈ l → slot + 8 < x)
  ∧ (∀ x y, x ∈ l → y ∈ l → x = y ∨ x + 32 <= y ∨ y + 32 <= x).

(** The lists [fl] with the list of class [i] replaced. *)
Definition fl_set (fl : Z → list Z) (i : Z) (l : list Z) : Z → list Z :=
  λ j, if j =? i then l else fl j.

(** ** Frames and steps *)

(** The words of the free blocks. *)
Definition in_free (a : Z) (bl : layout) (w : Z) : Prop :=
  ∃ x s, blk_at a bl x s false ∧ x - 8 <= w < x - 8 + s.

(** The words a helper may write: the directory below [heap_ptr], the free
    blocks, and the region from the epilogue on. *)
Definition free_space (st : heap) (bl : layout) (w : Z) : Prop :=
  w < heap_ptr st ∨ mem_brk st - 8 <= w ∨ in_free (heap_ptr st + WSIZE) bl w.

(** [st'] differs from [st] inside [F] only. *)
Definition keeps (F : Z → Prop) (st st' : heap) : Prop :=
  ∀ w, ¬ F w → GET st' w = GET st w.

(** The block addresses of a layout. *)
Fixpoint bps (a : Z) (bl : layout) : list Z :=
  match bl with
  | [] => []
  | (s, _) :: r => (a + 8) :: bps (a + s) r
  end.

(** A step of the allocator from the layout [bl] to the layout [bl']: the
    registers stay but for a break that may rise, only free space is written,
    free space does not spread, and allocated blocks stay allocated blocks. *)
Definition step_ok (st : heap) (bl : layout) (st' : heap) (bl' : layout) : Prop :=
  heap_ptr st' = heap_ptr st
  ∧ mem_max_addr st' = mem_max_addr st
  ∧ mem_brk st <= mem_brk st'
  ∧ keeps (free_space st bl) st st'
  ∧ (∀ w, free_space st' bl' w → free_space st bl w)
  ∧ (∀ z sz, blk_at (heap_ptr st + WSIZE) bl z sz true
             → blk_at (heap_ptr st + WSIZE) bl' z sz true).

(** A free block of [s] bytes takes in its right neighbour when that one is
    free: the size and what is left to the right. *)
Definition join_next (s : Z) (l2 : layout) : Z * layout :=
  match l2 with
  | (s2, false) :: r => (s + s2, r)
  | _ => (s, l2)
  end.

(** And its left neighbour when that one is free: what is left to the left
    and the size. *)
Definition join_prev (l1 : layout) (s : Z) : layout * Z :=
  match last l1 with
  | Some (s0, false) => (removelast l1, s0 + s)
  | _ => (l1, s)
  end.

(** The layout after [coalesce] on the free block of [s] bytes between [l1]
    and [l2]. *)
Definition coalesced (l1 : layout) (s : Z) (l2 : layout) : layout :=
  fst (join_prev l1 (fst (join_next s l2)))
  ++ (snd (join_prev l1 (fst (join_next s l2))), false) :: snd (join_next s l2).

(** The layout after [place] of [need] bytes in the free block of [s] bytes
    between [l1] and [l2]: a remainder of four words or more is split off. *)
Definition placed (l1 : layout) (s need : Z) (l2 : layout) : layout :=
  if 4 * WSIZE <=? s - need
  then l1 ++ (need, true) :: (s - need, false) :: l2
  else l1 ++ (s, true) :: l2.

(** What [mm_malloc] delivers on success: a well-formed heap in which [q] is
    an allocated block of at least [need] bytes carved out of free space. *)
Definition delivered (st : heap) (bl : layout) (need : Z) (st' : heap) (q : Z) : Prop :=
  ∃ bl' fl' sq,
    rep st' bl' fl' ∧ linked (heap_ptr st + WSIZE) bl' fl' []
    ∧ step_ok st bl st' bl'
    ∧ blk_at (heap_ptr st + WSIZE) bl' q sq true ∧ need <= sq
    ∧ (∀ w, q - 8 <= w < q - 8 + sq → free_space st bl w).

(** ** Payloads *)

(** The byte at address [p]: memory is kept in words, least significant
    byte first. *)
Definition byte_at (st : heap) (p : Z) : Z :=
  Z.land (Z.shiftr (GET st (p - p mod WSIZE)) (8 * (p mod WSIZE))) 255.

(** The words of the payloads of the allocated blocks. *)
Definition in_payload (a : Z) (bl : layout) (w : Z) : Prop :=
  ∃ x sx, blk_at a bl x sx true ∧ x <= w <= x + sx - 24.


(** ** [mm_init] before its first block, and example heaps *)

(** The directory, the prologue and the epilogue, before the first block. *)
Definition formatted (st0 : heap) : heap :=
  let p := mem_brk st0 in
  let st := mkHeap (mem st0) p (p + (LISTSIZE + 4) * WSIZE) (mem_max_addr st0) in
  let st := PUT st (heap_ptr st) 0 in
  let st := PUT st (heap_ptr st + (LISTSIZE + 1) * WSIZE) (PACK DSIZE 1) in
  let st := PUT st (heap_ptr st + (LISTSIZE + 2) * WSIZE) (PACK DSIZE 1) in
  let st := PUT st (heap_ptr st + (LISTSIZE + 3) * WSIZE) (PACK 0 1) in
  let st := fold_left (fun st i => PUT st (heap_ptr st + i * WSIZE) 0)
                      (map Z.of_nat (seq 1 (Z.to_nat LISTSIZE))) st in
  mkHeap (mem st) (heap_ptr st + (LISTSIZE + 2) * WSIZE) (mem_brk st) (mem_max_addr st).

(** The heap after [mm_init] on an empty region from 1024 to 65536. *)
Definition fresh : heap := heap_of (mm_init (mkHeap ∅ NULL 1024 65536)).

(** One block of 32 bytes at 1184. *)
Definition one_plain : heap := heap_of (mm_malloc fresh 8).

(** Two blocks of 32 bytes, at 1184 and at 1216. *)
Definition two_plain : heap := heap_of (mm_malloc one_plain 8).

(** The client has written a pattern into the two payload words of the
    first. *)
Definition two_blocks : heap := PUT (PUT two_plain 1184 23130) 1192 42405.



(** One block with a pattern in its first payload word, and the rest of the
    first chunk free to its right. *)
Definition one_written : heap := PUT one_plain 1184 23130.

(** ** Heaps without two free blocks in a row, and reachable heaps *)

(** No two neighbours of [bl] are both free, nor is its first block when the
    block before it is ([prev_free]). *)
Fixpoint tight_from (prev_free : bool) (bl : layout) : bool :=
  match bl with
  | [] => true
  | (_, al) :: r => negb (prev_free && negb al) && tight_from (negb al) r
  end.

(** No two adjacent blocks of the layout are both free. *)
Definition tight (bl : layout) : bool := tight_from false bl.

(** Whether a layout ends with a free block; [p] for the empty layout. *)
Definition ends_free (p : bool) (bl : layout) : bool :=
  match last bl with
  | Some (_, al) => negb al
  | None => p
  end.

(** [b] is a block of [s] bytes, allocated or free as [al] says. *)
Definition is_block (st : heap) (b s : Z) (al : bool) : Prop :=
  ∃ bl fl, rep st bl fl ∧ linked (heap_ptr st + WSIZE) bl fl []
           ∧ blk_at (heap_ptr st + WSIZE) bl b s al.

(** The heaps a client can reach: [mm_init] returned 0, then any calls of
    [mm_malloc] and of [mm_free] on allocated blocks. *)
Inductive reachable : heap → Prop :=
  | reach_init st0 st :
      0 <= mem_brk st0 → mem_brk st0 mod 8 = 0 → mem_max_addr st0 < 2 ^ 62 →
      mm_init st0 = Some (st, 0) → reachable st
  | reach_malloc st n st' q :
      reachable st → 0 < n < 2 ^ 61 → mm_malloc st n = Some (st', q) →
      reachable st'
  | reach_free st p s st' :
      reachable st → allocated st p s → mm_free st p = Some st' →
      reachable st'.

(** The one situation in which [mm_realloc] writes a header that does not end
    at a block boundary: the block must grow, its right neighbour is free and
    too small, and that neighbour is not the last block of the region. *)
Definition realloc_overruns (st : heap) (p n : Z) : Prop :=
  GET_SIZE st (HDRP p) < align_size n
  ∧ GET_ALLOC st (HDRP (NEXT_BLKP st p)) = 0
  ∧ GET_SIZE st (HDRP p) + GET_SIZE st (HDRP (NEXT_BLKP st p)) < align_size n
  ∧ NEXT_BLKP st (NEXT_BLKP st p) ≠ mem_brk st.

(** * Properties *)

(** ** Memory and tag arithmetic *)

Lemma GET_PUT_eq st p v : GET (PUT st p v) p = v.
Proof. unfold GET, PUT; simpl. by rewrite lookup_insert_eq. Qed.

Lemma GET_PUT_ne st p q v : p ≠ q → GET (PUT st p v) q = GET st q.
Proof. intros Hne. unfold GET, PUT; simpl. by rewrite lookup_insert_ne. Qed.

Lemma heap_ptr_PUT st p v : heap_ptr (PUT st p v) = heap_ptr st.
Proof. reflexivity. Qed.

Lemma mem_brk_PUT st p v : mem_brk (PUT st p v) = mem_brk st.
Proof. reflexivity. Qed.

Lemma mem_max_addr_PUT st p v : mem_max_addr (PUT st p v) = mem_max_addr st.
Proof. reflexivity. Qed.

Lemma freelists_PUT st p v i : freelists (PUT st p v) i = freelists st i.
Proof. reflexivity. Qed.

Lemma land_lnot7 x : Z.land x (Z.lnot 7) = 8 * (x / 8).
Proof.
  change (Z.land x (Z.lnot 7)) with (Z.ldiff x (Z.ones 3)).
  rewrite Z.ldiff_ones_r by lia.
  rewrite Z.shiftr_div_pow2, Z.shiftl_mul_pow2 by lia.
  change (2 ^ 3) with 8. lia.
Qed.

Lemma land_1 x : Z.land x 1 = x mod 2.
Proof. change 1 with (Z.ones 1). rewrite Z.land_ones by lia. reflexivity. Qed.

(** Linear arithmetic with division and remainder by constants. *)
Ltac zdiv := Z.to_euclidean_division_equations; lia.

Lemma PACK_1 size : size mod 8 = 0 → PACK size 1 = size + 1.
Proof.
  intros H. unfold PACK.
  assert (Hd : Z.land size 1 = 0) by (rewrite land_1; zdiv).
  rewrite <- Z.lxor_lor by exact Hd.
  rewrite Z.add_nocarry_lxor by exact Hd. reflexivity.
Qed.

Lemma PACK_0 size : PACK size 0 = size.
Proof. apply Z.lor_0_r. Qed.

Lemma GET_SIZE_mod8 st p : GET_SIZE st p mod 8 = 0.
Proof. unfold GET_SIZE. rewrite land_lnot7. zdiv. Qed.

Lemma GET_SIZE_PUT_eq st p size a :
  size mod 8 = 0 → 0 <= a < 8 → GET_SIZE (PUT st p (size + a)) p = size.
Proof.
  intros H Ha. unfold GET_SIZE. rewrite GET_PUT_eq, land_lnot7. zdiv.
Qed.

Lemma GET_ALLOC_PUT_eq st p size a :
  size mod 8 = 0 → 0 <= a < 2 → GET_ALLOC (PUT st p (size + a)) p = a.
Proof.
  intros H Ha. unfold GET_ALLOC. rewrite GET_PUT_eq, land_1. zdiv.
Qed.

Lemma GET_SIZE_PUT_ne st p q v : p ≠ q → GET_SIZE (PUT st p v) q = GET_SIZE st q.
Proof. intros. unfold GET_SIZE. by rewrite GET_PUT_ne. Qed.

Lemma GET_ALLOC_PUT_ne st p q v : p ≠ q → GET_ALLOC (PUT st p v) q = GET_ALLOC st q.
Proof. intros. unfold GET_ALLOC. by rewrite GET_PUT_ne. Qed.

(** ** The directory scan of [mm_malloc] *)

Lemma scan_found st size n index bp :
  scan st size n index = bp → bp ≠ NULL →
  ∃ i, index <= i < LISTSIZE ∧
       bp = GET st (freelists st i) ∧
       size < GET_SIZE st (HDRP bp) ∧
       ∀ j, index <= j < i →
            GET st (freelists st j) = NULL ∨
            GET_SIZE st (HDRP (GET st (freelists st j))) <= size.
Proof.
  revert index. induction n as [|n IH]; intros index Hs Hbp; simpl in Hs.
  - congruence.
  - destruct (index <? LISTSIZE) eqn:Hi; [|congruence].
    apply Z.ltb_lt in Hi.
    destruct (negb (GET st (freelists st index) =? 0)
              && (GET_SIZE st (HDRP (GET st (freelists st index))) >? size)) eqn:Hu.
    + apply andb_true_iff in Hu as [_ Hgt]. subst bp.
      exists index. repeat split; try lia.
    + destruct (IH (index + 1) Hs Hbp) as (i & Hr & Hh & Hsz & Hbefore).
      exists i. repeat split; try lia; try assumption.
      intros j Hj. destruct (Z.eq_dec j index) as [->|Hne].
      * apply andb_false_iff in Hu as [Hu|Hu].
        -- left. apply negb_false_iff, Z.eqb_eq in Hu. exact Hu.
        -- right. lia.
      * apply Hbefore. lia.
Qed.

Lemma scan_none st size n index :
  LISTSIZE <= index + Z.of_nat n →
  (∀ j, index <= j < LISTSIZE →
        GET st (freelists st j) = NULL ∨
        GET_SIZE st (HDRP (GET st (freelists st j))) <= size) →
  scan st size n index = NULL.
Proof.
  revert index. induction n as [|n IH]; intros index Hn Hall; simpl.
  - reflexivity.
  - destruct (index <? LISTSIZE) eqn:Hi; [|reflexivity].
    apply Z.ltb_lt in Hi.
    destruct (Hall index ltac:(lia)) as [H0|Hle].
    + rewrite H0. simpl. apply IH; [lia|]. intros j Hj. apply Hall. lia.
    + replace (GET_SIZE st (HDRP (GET st (freelists st index))) >? size)
        with false by (symmetry; lia).
      rewrite andb_false_r. apply IH; [lia|]. intros j Hj. apply Hall. lia.
Qed.

Lemma scan_NULL_inv st size n index :
  LISTSIZE <= index + Z.of_nat n →
  scan st size n index = NULL →
  ∀ j, index <= j < LISTSIZE →
       GET st (freelists st j) = NULL ∨
       GET_SIZE st (HDRP (GET st (freelists st j))) <= size.
Proof.
  revert index. induction n as [|n IH]; intros index Hn Hs j Hj; simpl in Hs.
  - lia.
  - replace (index <? LISTSIZE) with true in Hs by (symmetry; lia).
    destruct (negb (GET st (freelists st index) =? 0)) eqn:Hz; simpl in Hs.
    + destruct (GET_SIZE st (HDRP (GET st (freelists st index))) >? size) eqn:Hgt.
      * apply negb_true_iff, Z.eqb_neq in Hz. contradiction.
      * destruct (Z.eq_dec j index) as [->|Hne]; [right; lia|].
        apply (IH (index + 1)); [lia|exact Hs|lia].
    + destruct (Z.eq_dec j index) as [->|Hne].
      * left. apply negb_false_iff, Z.eqb_eq in Hz. exact Hz.
      * apply (IH (index + 1)); [lia|exact Hs|lia].
Qed.

(** The loop of [mm_malloc] leaves by its own test [index < LISTSIZE]: any
    supply of iterations beyond [LISTSIZE] gives the same result. *)
Lemma scan_enough st size n :
  (Z.to_nat LISTSIZE <= n)%nat →
  scan st size n 0 = scan st size (Z.to_nat LISTSIZE) 0.
Proof.
  intros Hn.
  assert (Hgen : ∀ k m index, index + Z.of_nat k = LISTSIZE → (k <= m)%nat →
                              scan st size m index = scan st size k index).
  { induction k as [|k IH]; intros m index Hk Hm.
    - destruct m; simpl; [reflexivity|].
      replace (index <? LISTSIZE) with false by (symmetry; lia). reflexivity.
    - destruct m; [lia|]. simpl.
      destruct (index <? LISTSIZE); [|reflexivity].
      destruct (_ && _); [reflexivity|]. apply IH; lia. }
  apply Hgen; [reflexivity|exact Hn].
Qed.

Lemma mm_malloc_no_fit st n :
  n ≠ 0 →
  (∀ j, 0 <= j < LISTSIZE →
        GET st (freelists st j) = NULL ∨
        GET_SIZE st (HDRP (GET st (freelists st j))) <= align_size n) →
  mm_malloc st n =
    '(st1, bp) ← extend_heap st (MAX (align_size n) CHUNKSIZE);
    if bp =? NULL then Some (st1, NULL) else place st1 bp (align_size n).
Proof.
  intros Hn Hall. unfold mm_malloc.
  replace (n =? 0) with false by (symmetry; lia).
  rewrite scan_none by (try exact Hall; reflexivity). reflexivity.
Qed.

(** C5.  The directory scan of [mm_malloc] visits the classes in ascending
    index order and takes the head of the first class whose head is present
    and has a stored size strictly greater than the rounded request; every
    class before it has no head or a head no larger than the request.  It
    yields nothing exactly when every class is empty or headed by a block of
    size at most the request, a head of exactly the requested size included,
    and [mm_malloc] then goes on to [extend_heap]. *)
Theorem scan_takes_strictly_larger_head st size :
  let bp := scan st size (Z.to_nat LISTSIZE) 0 in
  (bp ≠ NULL →
     ∃ i, 0 <= i < LISTSIZE ∧
          bp = GET st (freelists st i) ∧
          size < GET_SIZE st (HDRP bp) ∧
          ∀ j, 0 <= j < i →
               GET st (freelists st j) = NULL ∨
               GET_SIZE st (HDRP (GET st (freelists st j))) <= size)
  ∧ (bp = NULL ↔
     ∀ j, 0 <= j < LISTSIZE →
          GET st (freelists st j) = NULL ∨
          GET_SIZE st (HDRP (GET st (freelists st j))) <= size)
  ∧ (∀ n, n ≠ 0 → size = align_size n → bp = NULL →
       mm_malloc st n =
         '(st1, r) ← extend_heap st (MAX size CHUNKSIZE);
         if r =? NULL then Some (st1, NULL) else place st1 r size).
Proof.
  cbv zeta. split; [|split].
  - intros Hbp. eapply scan_found; [reflexivity|exact Hbp].
  - split.
    + intros Hs. apply (scan_NULL_inv st size (Z.to_nat LISTSIZE) 0); [reflexivity|exact Hs].
    + intros Hall. apply scan_none; [reflexivity|exact Hall].
  - intros n Hn -> Hs. apply mm_malloc_no_fit; [exact Hn|].
    apply (scan_NULL_inv st _ (Z.to_nat LISTSIZE) 0); [reflexivity|exact Hs].
Qed.

(** A head of exactly the requested size is passed over: after [mm_init] the
    only free block has 144 bytes, a request that rounds to 144 bytes does not
    take it, and the region grows by a chunk. *)
Example exact_fit_is_skipped :
  let st := heap_of (run 1024 65536 []) in
  align_size 128 = 144
  ∧ sizes_of st (class_list st 7) = [144]
  ∧ scan st 144 (Z.to_nat LISTSIZE) 0 = NULL
  ∧ scan st 136 (Z.to_nat LISTSIZE) 0 = 1184
  ∧ mem_brk st = 1328
  ∧ (mem_brk ∘ fst <$> mm_malloc st 128) = Some (1328 + CHUNKSIZE).
Proof. vm_compute. repeat split; reflexivity. Qed.

(** ** Failure of the growth primitive *)

Lemma extend_heap_fails st size :
  mem_max_addr st < mem_brk st + ALIGN size →
  extend_heap st size = Some (st, NULL).
Proof.
  intros H. unfold extend_heap, mem_sbrk.
  replace (mem_max_addr st <? mem_brk st + ALIGN size) with true by (symmetry; lia).
  rewrite orb_true_r. reflexivity.
Qed.

(** C8.  For a request [n > 0]: when no class of the directory has a head
    larger than the rounded request and the region cannot grow by
    [MAX need CHUNKSIZE] bytes, [mm_malloc] returns [NULL] and the whole state
    (memory, directory, break) is the one it started from. *)
Theorem mm_malloc_out_of_memory st n :
  n ≠ 0 →
  (∀ j, 0 <= j < LISTSIZE →
        GET st (freelists st j) = NULL ∨
        GET_SIZE st (HDRP (GET st (freelists st j))) <= align_size n) →
  mem_max_addr st < mem_brk st + ALIGN (MAX (align_size n) CHUNKSIZE) →
  mm_malloc st n = Some (st, NULL).
Proof.
  intros Hn Hall Hfull.
  rewrite mm_malloc_no_fit by assumption.
  rewrite extend_heap_fails by exact Hfull. reflexivity.
Qed.

(** Case analysis on a class index. *)
Ltac each_class j H :=
  assert (j = 0 ∨ j = 1 ∨ j = 2 ∨ j = 3 ∨ j = 4 ∨ j = 5 ∨ j = 6 ∨ j = 7 ∨
          j = 8 ∨ j = 9 ∨ j = 10 ∨ j = 11 ∨ j = 12 ∨ j = 13 ∨ j = 14 ∨ j = 15)
    as Hcases by (unfold LISTSIZE in H; lia);
  repeat (destruct Hcases as [->|Hcases]); [..|subst j].

Lemma mm_malloc_out_of_memory_witness :
  mm_malloc full_region 200 = Some (full_region, NULL).
Proof.
  apply mm_malloc_out_of_memory.
  - lia.
  - intros j Hj. each_class j Hj; vm_compute; first [left; reflexivity | right; discriminate].
  - vm_compute. reflexivity.
Defined.

(** ** What the helpers leave alone: the registers of the region *)

Lemma same_region_refl st : same_region st st.
Proof. by repeat split. Qed.

Lemma same_region_trans st1 st2 st3 :
  same_region st1 st2 → same_region st2 st3 → same_region st1 st3.
Proof. unfold same_region. intros (?&?&?) (?&?&?). repeat split; congruence. Qed.

Lemma same_region_PUT st p v : same_region st (PUT st p v).
Proof. by repeat split. Qed.

Lemma same_region_PUT_r st st' p v :
  same_region st st' → same_region st (PUT st' p v).
Proof. intros H. eapply same_region_trans; [exact H|apply same_region_PUT]. Qed.

Lemma add_free_region st ptr size st' :
  add_free st ptr size = Some st' → same_region st st'.
Proof.
  unfold add_free. destruct (find_place _ _ _ _ _) as [[prev cur]|]; [|discriminate].
  intros [= <-].
  destruct (prev =? NULL), (cur =? NULL);
    repeat apply same_region_PUT_r; apply same_region_refl.
Qed.

Lemma pop_free_region st ptr : same_region st (pop_free st ptr).
Proof.
  unfold pop_free.
  destruct (PRED_BLKP st ptr =? NULL), (SUCC_BLKP st ptr =? NULL);
    repeat apply same_region_PUT_r; apply same_region_refl.
Qed.

Lemma merge_next_region st ptr st' :
  merge_next st ptr = Some st' → same_region st st'.
Proof.
  unfold merge_next. intros H.
  destruct (GET_ALLOC st (HDRP (NEXT_BLKP st ptr)) =? 0).
  - apply add_free_region in H.
    eapply same_region_trans; [|exact H].
    repeat apply same_region_PUT_r.
    eapply same_region_trans; apply pop_free_region.
  - injection H as <-. apply same_region_refl.
Qed.

Lemma merge_prev_region st ptr st' r :
  merge_prev st ptr = Some (st', r) → same_region st st'.
Proof.
  unfold merge_prev. intros H.
  destruct (GET_ALLOC st (HDRP (PREV_BLKP st ptr)) =? 0).
  - apply bind_Some in H as (st2 & H & [= <- <-]).
    apply add_free_region in H.
    eapply same_region_trans; [|exact H].
    repeat apply same_region_PUT_r.
    eapply same_region_trans; apply pop_free_region.
  - injection H as <- <-. apply same_region_refl.
Qed.

Lemma coalesce_region st ptr st' r :
  coalesce st ptr = Some (st', r) → same_region st st'.
Proof.
  unfold coalesce. intros H.
  apply bind_Some in H as (st1 & H1 & H2).
  eapply same_region_trans;
    [eapply merge_next_region|eapply merge_prev_region]; eassumption.
Qed.



(** ** [mm_realloc]: the zero size and the size that already fits *)

(** C3 (amended).  [mm_realloc] with a new size of zero returns [NULL] and is
    no release: the state it returns is the state it was given, so the block
    keeps its allocated header and enters no size-class list. *)
Theorem mm_realloc_zero_keeps_block st bp :
  mm_realloc st bp 0 = Some (st, NULL).
Proof. reflexivity. Qed.

(** C3 (as stated) fails: on the heap with one allocated block at 1184,
    [mm_realloc] to size zero returns [NULL] and leaves the block allocated and
    the lists as they were, where [mm_free] marks it free, merges it with its
    free right neighbour and lists the merged block. *)
Lemma mm_realloc_zero_is_not_mm_free :
  heap_blocks one_block = [(1184, 32, 1); (1216, 112, 0)]
  ∧ mm_realloc one_block 1184 0 = Some (one_block, NULL)
  ∧ (heap_blocks <$> mm_free one_block 1184) = Some [(1184, 144, 0)]
  ∧ ((λ st, class_list st 7) <$> mm_free one_block 1184) = Some [1184]
  ∧ class_list one_block 7 = [].
Proof. vm_compute. repeat split; reflexivity. Qed.

(** C6 (amended).  For a new size other than zero whose rounded block size is
    at most the size stored in the block's header, [mm_realloc] returns the
    same address and the unchanged state: nothing is split or written. *)
Theorem mm_realloc_fits_in_place st bp n :
  n ≠ 0 →
  align_size n <= GET_SIZE st (HDRP bp) →
  mm_realloc st bp n = Some (st, bp).
Proof.
  intros Hn Hfit. unfold mm_realloc.
  replace (n =? 0) with false by (symmetry; lia).
  replace (align_size n <=? GET_SIZE st (HDRP bp)) with true by (symmetry; lia).
  reflexivity.
Qed.

Lemma mm_realloc_fits_in_place_witness :
  mm_realloc one_block 1184 8 = Some (one_block, 1184).
Proof.
  apply mm_realloc_fits_in_place.
  - lia.
  - vm_compute. discriminate.
Defined.

(** C6 (as stated) fails at the new size zero: its rounded size, 32 bytes,
    is within the capacity of the block at 1184, and the result is [NULL], not
    the block's address. *)
Lemma mm_realloc_zero_fits_yet_NULL :
  GET_ALLOC one_block (HDRP 1184) = 1
  ∧ align_size 0 = 32
  ∧ GET_SIZE one_block (HDRP 1184) = 32
  ∧ (snd <$> mm_realloc one_block 1184 0) = Some NULL
  ∧ NULL ≠ 1184.
Proof. vm_compute. repeat split; try reflexivity. discriminate. Qed.

(** ** [mm_realloc]: failure *)


(** C2, at its failing input: in a region that cannot grow, the block at 1184
    has the allocated block at 1216 to its right.  [mm_realloc] to 200 bytes
    takes the move path; [mm_malloc] returns [NULL], which is not tested: the
    copy is made to address [NULL] and the block is released.  The result is
    [NULL], the block is free and heads the list of its class, and its first
    payload word has given way to a list link. *)
Lemma mm_realloc_failed_move_releases_block :
  heap_blocks full_region = [(1184, 32, 1); (1216, 32, 1); (1248, 80, 0)]
  ∧ mm_malloc full_region (align_size 200) = Some (full_region, NULL)
  ∧ (snd <$> mm_realloc full_region 1184 200) = Some NULL
  ∧ (heap_blocks ∘ fst <$> mm_realloc full_region 1184 200)
    = Some [(1184, 32, 0); (1216, 32, 1); (1248, 80, 0)]
  ∧ ((λ r, class_list (fst r) 5) <$> mm_realloc full_region 1184 200) = Some [1184]
  ∧ GET full_region 1184 = 23130
  ∧ ((λ r, GET (fst r) NULL) <$> mm_realloc full_region 1184 200) = Some 23130
  ∧ ((λ r, GET (fst r) 1184) <$> mm_realloc full_region 1184 200) = Some NULL.
Proof. vm_compute. repeat split; reflexivity. Qed.

(** ** [mm_realloc]: growing in place *)

Lemma align_size_props n : align_size n mod 8 = 0 ∧ 32 <= align_size n < 2 ^ 64.
Proof.
  unfold align_size, MAX, ALIGN, wrap64, ALIGNMENT, DSIZE, WSIZE.
  destruct (Z.gtb_spec (4 * 8) ((((n + 2 * 8) mod 2 ^ 64 + (8 - 1)) mod 2 ^ 64 / 8 * 8) mod 2 ^ 64));
    zdiv.
Qed.

Lemma ALIGN_aligned x : x mod 8 = 0 → 0 <= x < 2 ^ 63 → ALIGN x = x.
Proof. intros. unfold ALIGN, wrap64, ALIGNMENT. zdiv. Qed.

Lemma MAX_CHUNKSIZE x : MAX CHUNKSIZE x = Z.max 4112 x.
Proof. unfold MAX. change CHUNKSIZE with 4112. destruct (Z.gtb_spec 4112 x); lia. Qed.

Lemma rem_size_exact st bp need :
  0 <= GET_SIZE st (HDRP bp) →
  0 <= GET_SIZE st (HDRP (NEXT_BLKP st bp)) →
  GET_SIZE st (HDRP bp) + GET_SIZE st (HDRP (NEXT_BLKP st bp)) < 2 ^ 31 →
  0 <= need < 2 ^ 31 →
  rem_size_of st bp need
  = GET_SIZE st (HDRP bp) + GET_SIZE st (HDRP (NEXT_BLKP st bp)) - need.
Proof. intros. unfold rem_size_of, int32, wrap64. zdiv. Qed.


(** The in-place branch of [mm_realloc], with the arithmetic of [rem_size]
    carried out: the block takes its own size, the size of its right neighbour
    and the whole extension. *)
Lemma mm_realloc_in_place st bp n st1 :
  let need := align_size n in
  let old := GET_SIZE st (HDRP bp) in
  let nxt := GET_SIZE st (HDRP (NEXT_BLKP st bp)) in
  let ext := if old + nxt <? need then MAX CHUNKSIZE (need - old - nxt) else 0 in
  n ≠ 0 → 0 <= old < need → 0 <= nxt → need < 2 ^ 31 → old + nxt < 2 ^ 31 →
  GET_ALLOC st (HDRP (NEXT_BLKP st bp)) = 0 ∨ nxt = 0 →
  grown st ext st1 →
  mm_realloc st bp n
  = Some (absorb_next st1 bp need (old + nxt + ext - need), bp).
Proof.
  cbv zeta. intros Hn Hold Hnxt Hneed Hsum Hnext Hgrown.
  destruct (align_size_props n) as [Hm [Hlo Hhi]].
  unfold mm_realloc.
  replace (n =? 0) with false by (symmetry; lia).
  replace (align_size n <=? GET_SIZE st (HDRP bp)) with false by (symmetry; lia).
  replace ((GET_ALLOC st (HDRP (NEXT_BLKP st bp)) =? 0)
           || (GET_SIZE st (HDRP (NEXT_BLKP st bp)) =? 0)) with true
    by (symmetry; apply orb_true_iff; lia).
  rewrite rem_size_exact by lia.
  unfold grown in Hgrown.
  destruct (Z.ltb_spec (GET_SIZE st (HDRP bp) + GET_SIZE st (HDRP (NEXT_BLKP st bp)))
                       (align_size n)) as [Hlt|Hge].
  - replace (GET_SIZE st (HDRP bp) + GET_SIZE st (HDRP (NEXT_BLKP st bp))
             - align_size n <? 0) with true by (symmetry; lia).
    pose proof (GET_SIZE_mod8 st (HDRP bp)) as Hm1.
    pose proof (GET_SIZE_mod8 st (HDRP (NEXT_BLKP st bp))) as Hm2.
    assert (Hneg : int32 (- (GET_SIZE st (HDRP bp)
                             + GET_SIZE st (HDRP (NEXT_BLKP st bp)) - align_size n))
                   = align_size n - GET_SIZE st (HDRP bp)
                     - GET_SIZE st (HDRP (NEXT_BLKP st bp)))
      by (unfold int32; zdiv).
    rewrite Hneg. rewrite MAX_CHUNKSIZE in *.
    replace (Z.max 4112 _ =? 0) with false in Hgrown by (symmetry; lia).
    destruct Hgrown as (r & -> & Hr). simpl.
    replace (r =? NULL) with false by (symmetry; unfold NULL in *; lia).
    do 2 f_equal. f_equal. clear Hneg.
    set (m := Z.max 4112 _) in *.
    assert (Hm3 : 4112 <= m ∧ align_size n - GET_SIZE st (HDRP bp)
                   - GET_SIZE st (HDRP (NEXT_BLKP st bp)) <= m < 2 ^ 31) by lia.
    clearbody m. unfold int32. zdiv.
  - replace (GET_SIZE st (HDRP bp) + GET_SIZE st (HDRP (NEXT_BLKP st bp))
             - align_size n <? 0) with false by (symmetry; lia).
    simpl in Hgrown. subst st1. cbv iota. rewrite Z.add_0_r. reflexivity.
Qed.



(** The waste of an in-place growth is not bounded by the request: one more
    word asked of a block of 32 bytes whose right neighbour is a free block
    of 4288 bytes gives a block of 4320 bytes for a rounded request of 40. *)
Example mm_realloc_in_place_waste :
  let st := heap_of (run 1024 65536 [Malloc 8; Malloc 4160; Free 1]) in
  heap_blocks st = [(1184, 32, 1); (1216, 4288, 0)]
  ∧ align_size 24 = 40
  ∧ (heap_blocks ∘ fst <$> mm_realloc st 1184 24) = Some [(1184, 4320, 1)].
Proof. vm_compute. repeat split; reflexivity. Qed.


(** ** [mm_realloc]: when the region grows *)




(** ** [mm_realloc]: a free right neighbour that does not end the region *)

(** C1, at its failing input.  The block at 1184 has a free right neighbour
    of 32 bytes that is followed by an allocated block.  [mm_realloc] to 4192
    bytes (4208 rounded) takes the in-place branch, extends the region at its
    far end by the shortfall and gives the block the sum of the three sizes,
    although the extension is not next to it.  The walk of the implicit list
    then goes from 1184 into the free space at the end of the region and meets
    two free blocks in a row. *)
Lemma adjacent_free_blocks_after_realloc :
  let before := heap_of (run 1024 1000000 before_overrun) in
  let after := heap_of (run 1024 1000000 (before_overrun ++ [Realloc 0 4192])) in
  heap_blocks before = [(1184, 32, 1); (1216, 32, 0); (1248, 4112, 1); (5360, 80, 0)]
  ∧ adjacent_free (heap_blocks before) = false
  ∧ (snd <$> mm_realloc before 1184 4192) = Some 1184
  ∧ heap_blocks after = [(1184, 4208, 1); (5392, 48, 0); (5440, 4144, 0)]
  ∧ adjacent_free (heap_blocks after) = true.
Proof. vm_compute. repeat split; reflexivity. Qed.

(** C7, at its failing input.  As above, with the sizes chosen so that the
    footer [mm_realloc] writes for the block at 1184 falls on the header of
    the free block at 5360, the head of class 5: the list of class 5 then reads
    4184 bytes before 32 bytes. *)
Lemma descending_list_after_realloc :
  let before := heap_of (run 1024 1000000 before_overwrite) in
  let after := heap_of (run 1024 1000000 (before_overwrite ++ [Realloc 0 4168])) in
  class_list before 5 = [5360; 5440; 1216]
  ∧ sizes_of before (class_list before 5) = [32; 32; 32]
  ∧ (snd <$> mm_realloc before 1184 4168) = Some 1184
  ∧ FTRP after 1184 = HDRP 5360
  ∧ class_list after 5 = [5360; 5440]
  ∧ sizes_of after (class_list after 5) = [4184; 32]
  ∧ ascending (sizes_of after (class_list after 5)) = false.
Proof. vm_compute. repeat split; reflexivity. Qed.

(** * The invariant through the helpers *)

(** ** Geometry of a layout *)

Lemma tiled_seg_sized st a bl : tiled_seg st a bl → sized bl.
Proof.
  revert a. induction bl as [|[s al] r IH]; intros a H; [constructor|].
  destruct H as (? & ? & _ & _ & Hr). constructor; [simpl; lia|exact (IH _ Hr)].
Qed.

Lemma total_nonneg bl : sized bl → 0 <= total bl.
Proof.
  induction 1 as [|[s al] r [H1 H2] _ IH]; simpl in *; lia.
Qed.

Lemma total_app l1 l2 : total (l1 ++ l2) = total l1 + total l2.
Proof. induction l1 as [|[s al] r IH]; simpl; lia. Qed.

Lemma sized_app l1 l2 : sized (l1 ++ l2) ↔ sized l1 ∧ sized l2.
Proof. apply Forall_app. Qed.

Lemma blk_at_bounds a bl b s al :
  sized bl → blk_at a bl b s al →
  a + 8 <= b ∧ b - 8 + s <= a + total bl ∧ 32 <= s ∧ s mod 8 = 0.
Proof.
  intros Hs. revert a. induction Hs as [|[s0 al0] r [H1 H2] Hr IH]; intros a; simpl.
  - tauto.
  - intros [(-> & -> & ->)|H].
    + pose proof (total_nonneg r Hr). simpl in *. lia.
    + apply IH in H. simpl in *. lia.
Qed.

(** Two blocks of a layout are the same block or do not overlap. *)
Lemma blk_at_disjoint a bl b s al b' s' al' :
  sized bl → blk_at a bl b s al → blk_at a bl b' s' al' →
  (b = b' ∧ s = s' ∧ al = al') ∨ b - 8 + s <= b' - 8 ∨ b' - 8 + s' <= b - 8.
Proof.
  intros Hs. revert a. induction Hs as [|[s0 al0] r [H1 H2] Hr IH]; intros a; simpl.
  - tauto.
  - intros [(-> & -> & ->)|H] [(-> & -> & ->)|H'].
    + left. done.
    + apply blk_at_bounds in H'; [|done]. lia.
    + apply blk_at_bounds in H; [|done]. lia.
    + eauto.
Qed.

Lemma blk_at_app a l1 l2 b s al :
  blk_at a (l1 ++ l2) b s al ↔ blk_at a l1 b s al ∨ blk_at (a + total l1) l2 b s al.
Proof.
  revert a. induction l1 as [|[s0 al0] r IH]; intros a; simpl.
  - rewrite Z.add_0_r. tauto.
  - rewrite IH. replace (a + (s0 + total r)) with (a + s0 + total r) by lia. tauto.
Qed.

Lemma tiled_seg_app st a l1 l2 :
  tiled_seg st a (l1 ++ l2) ↔ tiled_seg st a l1 ∧ tiled_seg st (a + total l1) l2.
Proof.
  revert a. induction l1 as [|[s0 al0] r IH]; intros a; simpl.
  - rewrite Z.add_0_r. tauto.
  - rewrite IH. replace (a + (s0 + total r)) with (a + s0 + total r) by lia. tauto.
Qed.

(** A block of the layout splits it. *)
Lemma blk_at_split a bl b s al :
  blk_at a bl b s al →
  ∃ l1 l2, bl = l1 ++ (s, al) :: l2 ∧ b = a + total l1 + 8.
Proof.
  revert a. induction bl as [|[s0 al0] r IH]; intros a; simpl; [tauto|].
  intros [(-> & -> & ->)|H].
  - exists (@nil (Z * bool)), r. simpl. split; [done|lia].
  - apply IH in H as (l1 & l2 & -> & ->).
    exists ((s0, al0) :: l1), l2. simpl. split; [done|lia].
Qed.

Lemma blk_at_middle a l1 s al l2 :
  blk_at a (l1 ++ (s, al) :: l2) (a + total l1 + 8) s al.
Proof. apply blk_at_app. right. simpl. left. done. Qed.

(** The tags of a block. *)
Lemma tiled_seg_tags st a bl b s al :
  tiled_seg st a bl → blk_at a bl b s al →
  GET st (b - 8) = tag s al ∧ GET st (b + s - 16) = tag s al.
Proof.
  revert a. induction bl as [|[s0 al0] r IH]; intros a; simpl; [tauto|].
  intros (_ & _ & Hh & Hf & Hr) [(-> & -> & ->)|H].
  - replace (a + 8 - 8) with a by lia.
    replace (a + 8 + s0 - 16) with (a + s0 - 8) by lia. done.
  - eauto.
Qed.

Lemma tag_size s al : s mod 8 = 0 → Z.land (tag s al) (Z.lnot 7) = s.
Proof. intros. rewrite land_lnot7. unfold tag. destruct al; zdiv. Qed.

Lemma tag_alloc s al : s mod 8 = 0 → Z.land (tag s al) 1 = if al then 1 else 0.
Proof. intros. rewrite land_1. unfold tag. destruct al; zdiv. Qed.

Lemma PACK_tag s (al : bool) : s mod 8 = 0 → PACK s (if al then 1 else 0) = tag s al.
Proof.
  intros. unfold tag. destruct al; [by apply PACK_1|].
  rewrite PACK_0. lia.
Qed.

(** ** Frames *)

Lemma tiled_seg_frame_range st st' a bl :
  tiled_seg st a bl →
  (∀ p, a <= p < a + total bl → GET st' p = GET st p) →
  tiled_seg st' a bl.
Proof.
  revert a. induction bl as [|[s al] r IH]; intros a; simpl; [done|].
  intros (H1 & H2 & Hh & Hf & Hr) Hsame.
  pose proof (total_nonneg r (tiled_seg_sized _ _ _ Hr)).
  repeat split; try done.
  - rewrite Hsame by lia. done.
  - rewrite Hsame by lia. done.
  - apply IH; [done|]. intros p Hp. apply Hsame. lia.
Qed.

Lemma tiled_seg_frame_tags st st' a bl :
  tiled_seg st a bl →
  (∀ b s al, blk_at a bl b s al →
             GET st' (b - 8) = GET st (b - 8)
             ∧ GET st' (b + s - 16) = GET st (b + s - 16)) →
  tiled_seg st' a bl.
Proof.
  revert a. induction bl as [|[s al] r IH]; intros a; simpl; [done|].
  intros (H1 & H2 & Hh & Hf & Hr) Hsame.
  destruct (Hsame (a + 8) s al) as [E1 E2]; [by left|].
  replace (a + 8 - 8) with a in E1 by lia.
  replace (a + 8 + s - 16) with (a + s - 8) in E2 by lia.
  repeat split; try done; try congruence.
  apply IH; [done|]. intros b s' al' Hb. apply (Hsame b s' al'). right. done.
Qed.

(** A word strictly between the tags of a block is no tag of the layout. *)
Lemma interior_not_tag a bl x sx alx p b s al :
  sized bl → blk_at a bl x sx alx → x <= p <= x + sx - 24 →
  blk_at a bl b s al → p ≠ b - 8 ∧ p ≠ b + s - 16.
Proof.
  intros Hs Hx Hp Hb.
  pose proof (blk_at_bounds _ _ _ _ _ Hs Hb).
  destruct (blk_at_disjoint _ _ _ _ _ _ _ _ Hs Hx Hb) as [(-> & -> & ->)|[?|?]]; lia.
Qed.

Lemma tiled_seg_PUT_interior st a bl x sx alx p v :
  tiled_seg st a bl → blk_at a bl x sx alx → x <= p <= x + sx - 24 →
  tiled_seg (PUT st p v) a bl.
Proof.
  intros Ht Hx Hp. eapply tiled_seg_frame_tags; [exact Ht|].
  intros b s al Hb.
  destruct (interior_not_tag a bl x sx alx p b s al) as [? ?];
    [by eapply tiled_seg_sized|done..|].
  rewrite !GET_PUT_ne by done. done.
Qed.

Lemma tiled_seg_PUT_below st a bl p v :
  tiled_seg st a bl → p < a → tiled_seg (PUT st p v) a bl.
Proof.
  intros Ht Hp. eapply tiled_seg_frame_range; [exact Ht|].
  intros q Hq. apply GET_PUT_ne. lia.
Qed.

(** ** Neighbours *)

Lemma next_header st a l1 s al l2 :
  tiled_seg st a (l1 ++ (s, al) :: l2) →
  match l2 with
  | [] => True
  | (s2, al2) :: _ => GET st (a + total l1 + s) = tag s2 al2 ∧ s2 mod 8 = 0 ∧ 32 <= s2
  end.
Proof.
  intros H. apply tiled_seg_app in H as [_ H]. simpl in H.
  destruct H as (_ & _ & _ & _ & H). destruct l2 as [|[s2 al2] l2']; [done|].
  simpl in H. tauto.
Qed.

Lemma prev_footer st a l1 s0 al0 l2 :
  tiled_seg st a ((l1 ++ [(s0, al0)]) ++ l2) →
  GET st (a + total (l1 ++ [(s0, al0)]) - 8) = tag s0 al0
  ∧ GET st (a + total l1) = tag s0 al0 ∧ s0 mod 8 = 0 ∧ 32 <= s0.
Proof.
  intros H. apply tiled_seg_app in H as [H _]. apply tiled_seg_app in H as [_ H].
  simpl in H. rewrite total_app. simpl.
  replace (a + (total l1 + (s0 + 0)) - 8) with (a + total l1 + s0 - 8) by lia.
  tauto.
Qed.

(** ** Doubly linked stretches *)

Lemma last_or_snoc d l x : last_or d (l ++ [x]) = x.
Proof. unfold last_or. by rewrite last_snoc. Qed.

Lemma last_or_cons d x l : last_or d (x :: l) = last_or x l.
Proof.
  unfold last_or. destruct l as [|y l]; [done|].
  rewrite last_cons. destruct (last (y :: l)) eqn:E; [done|].
  apply last_None in E. done.
Qed.

Lemma dllseg_nonnull st p c l n x : dllseg st p c l n → x ∈ l → x ≠ NULL.
Proof.
  revert p c. induction l as [|b l IH]; intros p c H Hx.
  - by apply elem_of_nil in Hx.
  - destruct H as (-> & Hb & _ & H). apply elem_of_cons in Hx as [->|Hx]; eauto.
Qed.

Lemma dllseg_hd st p c l n : dllseg st p c l n → c = hd n l.
Proof. destruct l; simpl; tauto. Qed.

Lemma dllseg_app st p c l1 l2 n :
  dllseg st p c (l1 ++ l2) n ↔
  ∃ m, dllseg st p c l1 m ∧ dllseg st (last_or p l1) m l2 n.
Proof.
  revert p c. induction l1 as [|b l1 IH]; intros p c; simpl.
  - split.
    + intros H. exists c. done.
    + intros (m & -> & H). done.
  - rewrite last_or_cons. split.
    + intros (-> & Hb & Hp & H). apply IH in H as (m & H1 & H2).
      exists m. done.
    + intros (m & (-> & Hb & Hp & H1) & H2). repeat split; try done.
      apply IH. exists m. done.
Qed.

Lemma dllseg_frame st st' p c l n :
  (∀ x, x ∈ l → GET st' x = GET st x ∧ GET st' (x + 8) = GET st (x + 8)) →
  dllseg st p c l n → dllseg st' p c l n.
Proof.
  revert p c. induction l as [|b l IH]; intros p c Hsame; simpl; [done|].
  intros (-> & Hb & Hp & H).
  destruct (Hsame b) as [E1 E2]; [left|].
  unfold PRED_BLKP, SUCC_BLKP, WSIZE in *. rewrite E1, E2.
  repeat split; try done. apply IH; [|done].
  intros x Hx. apply Hsame. by right.
Qed.

Lemma dllseg_PUT st p c l n w v :
  (∀ x, x ∈ l → w ≠ x ∧ w ≠ x + 8) →
  dllseg st p c l n → dllseg (PUT st w v) p c l n.
Proof.
  intros Hw. apply dllseg_frame. intros x Hx.
  destruct (Hw x Hx). rewrite !GET_PUT_ne by done. done.
Qed.

(** Redirecting the successor link of the last block of a stretch. *)
Lemma dllseg_set_succ st p c l x n v :
  (∀ y, y ∈ l → x + 8 ≠ y ∧ x + 8 ≠ y + 8) →
  dllseg st p c (l ++ [x]) n →
  dllseg (PUT st (x + 8) v) p c (l ++ [x]) v.
Proof.
  intros Hsep H. apply dllseg_app in H as (m & H1 & H2).
  apply dllseg_app. exists m. split.
  - apply dllseg_PUT; done.
  - simpl in *. destruct H2 as (-> & Hx & Hp & _).
    unfold PRED_BLKP, SUCC_BLKP, WSIZE in *.
    rewrite GET_PUT_ne by lia. rewrite GET_PUT_eq. done.
Qed.

(** Redirecting the predecessor link of the first block of a stretch. *)
Lemma dllseg_set_pred st p x l n v :
  (∀ y, y ∈ l → x ≠ y ∧ x ≠ y + 8) →
  dllseg st p x (x :: l) n →
  dllseg (PUT st x v) v x (x :: l) n.
Proof.
  intros Hsep (_ & Hx & Hp & H). simpl.
  unfold PRED_BLKP, SUCC_BLKP, WSIZE in *.
  rewrite GET_PUT_eq. rewrite GET_PUT_ne by lia.
  repeat split; try done. apply dllseg_PUT; done.
Qed.

(** ** Taking a block out of a list and putting one in *)

Lemma pop_free_unlink st ptr :
  pop_free st ptr
  = unlink st (freelists st (class_of (GET_SIZE st (HDRP ptr)))) ptr.
Proof. reflexivity. Qed.

Lemma apart_incl slot l l' : (∀ x, x ∈ l' → x ∈ l) → apart slot l → apart slot l'.
Proof. intros Hi [H1 H2]. split; eauto. Qed.

Ltac elems :=
  repeat match goal with
    | H : _ ∈ [] |- _ => by apply elem_of_nil in H
    | H : _ ∈ _ :: _ |- _ => apply elem_of_cons in H as [->|H]
    | H : _ ∈ _ ++ _ |- _ => apply elem_of_app in H as [H|H]
    end.

Ltac in_list :=
  repeat first [rewrite elem_of_app in * | rewrite elem_of_cons in *
               | rewrite elem_of_nil in *];
  tauto.

(** Splicing a block out of a list. *)
Lemma unlink_dllseg st slot l1 b l2 :
  NoDup (l1 ++ b :: l2) → apart slot (l1 ++ b :: l2) →
  dllseg st NULL (GET st slot) (l1 ++ b :: l2) NULL →
  let st' := unlink st slot b in
  dllseg st' NULL (GET st' slot) (l1 ++ l2) NULL
  ∧ ∀ w, w ≠ slot → (∀ x, x ∈ l1 ++ l2 → w ≠ x ∧ w ≠ x + 8) →
         GET st' w = GET st w.
Proof.
  intros Hnd [Hslot Hsep] H. cbv zeta.
  apply dllseg_app in H as (m & H1 & H2). simpl in H2.
  destruct H2 as (-> & Hb & Hpred & H2).
  assert (Hne : ∀ x, x ∈ l1 ++ l2 → x ≠ b).
  { intros x Hx ->. apply NoDup_app in Hnd as (_ & Hd & Hnd).
    apply NoDup_cons in Hnd as [Hnd _]. elems; [|done].
    apply (Hd b Hx). by left. }
  assert (Hsepb : ∀ x, x ∈ l1 ++ l2 → x + 32 <= b ∨ b + 32 <= x).
  { intros x Hx. destruct (Hsep x b) as [?|?]; [in_list|in_list|by apply Hne in Hx|done]. }
  unfold unlink. rewrite Hpred.
  destruct l1 as [|p0 l1'] using rev_ind; [|clear IHl1'].
  - (* the block is the head *)
    simpl in *. change (last_or NULL []) with NULL. simpl.
    destruct l2 as [|c l2'].
    + simpl in H2. rewrite H2. simpl. split.
      * by rewrite GET_PUT_eq.
      * intros w Hw _. by rewrite GET_PUT_ne.
    + destruct H2 as (Hc & Hcn & Hcp & H2).
      replace (SUCC_BLKP st b =? NULL) with false by (symmetry; unfold NULL in *; lia).
      rewrite Hc. split.
      * assert (slot + 8 < c) by (apply Hslot; in_list).
        rewrite GET_PUT_ne by lia. rewrite GET_PUT_eq.
        apply (dllseg_set_pred _ b).
        { intros y Hy. apply NoDup_cons in Hnd as [_ Hnd].
          apply NoDup_cons in Hnd as [Hcy _].
          destruct (Hsep c y) as [?|?]; [in_list..|by subst|lia]. }
        apply dllseg_PUT.
        { intros y Hy. assert (slot + 8 < y) by (apply Hslot; in_list). lia. }
        simpl. done.
      * intros w Hw Hwl. destruct (Hwl c) as [? _]; [by left|].
        rewrite !GET_PUT_ne by done. done.
  - (* the block has a predecessor *)
    rewrite last_or_snoc.
    assert (Hp0 : p0 ≠ NULL).
    { eapply dllseg_nonnull; [exact H1|]. in_list. }
    replace (p0 =? NULL) with false by (symmetry; unfold NULL in *; lia).
    assert (Hslotp : slot + 8 < p0) by (apply Hslot; in_list).
    assert (Hl1 : ∀ y, y ∈ l1' → p0 + 8 ≠ y ∧ p0 + 8 ≠ y + 8).
    { intros y Hy. apply NoDup_app in Hnd as (Hnd & _ & _).
      apply NoDup_app in Hnd as (_ & Hd & _).
      destruct (Hsep p0 y) as [?|?]; [in_list..| |lia].
      subst. exfalso. apply (Hd y Hy). by left. }
    destruct l2 as [|c l2'].
    + simpl in H2. rewrite H2. simpl. rewrite app_nil_r. split.
      * unfold WSIZE. rewrite GET_PUT_ne by lia.
        eapply dllseg_set_succ; [exact Hl1|exact H1].
      * intros w Hw Hwl. destruct (Hwl p0) as [_ ?]; [in_list|].
        unfold WSIZE. by rewrite GET_PUT_ne.
    + destruct H2 as (Hc & Hcn & Hcp & H2).
      replace (SUCC_BLKP st b =? NULL) with false by (symmetry; unfold NULL in *; lia).
      rewrite Hc. unfold WSIZE.
      assert (Hslotc : slot + 8 < c) by (apply Hslot; in_list).
      assert (Hpc : p0 + 32 <= c ∨ c + 32 <= p0).
      { assert (p0 ≠ c).
        { intros Heq. apply NoDup_app in Hnd as (_ & Hd & _).
          apply (Hd p0); [in_list|rewrite Heq; in_list]. }
        destruct (Hsep p0 c) as [?|?]; [in_list..|done|done]. }
      split.
      * rewrite !GET_PUT_ne by lia.
        apply dllseg_app. exists c. split.
        -- apply dllseg_PUT.
           { intros y Hy.
             assert (y ≠ c).
             { intros ->. apply NoDup_app in Hnd as (_ & Hd & _).
               apply (Hd c); in_list. }
             destruct (Hsep y c) as [?|?]; [in_list..|done|lia]. }
           eapply dllseg_set_succ; [exact Hl1|exact H1].
        -- rewrite last_or_snoc. apply (dllseg_set_pred _ b).
           { intros y Hy.
             apply NoDup_app in Hnd as (_ & _ & Hnd).
             apply NoDup_cons in Hnd as [_ Hnd].
             apply NoDup_cons in Hnd as [Hcy _].
             destruct (Hsep c y) as [?|?]; [in_list..|by subst|lia]. }
           apply dllseg_PUT.
           { intros y Hy.
             assert (y ≠ p0).
             { intros ->. apply NoDup_app in Hnd as (_ & Hd & _).
               apply (Hd p0); in_list. }
             destruct (Hsep y p0) as [?|?]; [in_list..|done|lia]. }
           simpl. done.
      * intros w Hw Hwl.
        destruct (Hwl p0) as [_ ?]; [in_list|].
        destruct (Hwl c) as [? _]; [in_list|].
        rewrite !GET_PUT_ne by done. done.
Qed.

(** The walk of [add_free] stops between two parts of the list: the entries
    smaller than [size], and the rest, which a larger or equal entry heads. *)
Lemma find_place_spec st n size p c l :
  dllseg st p c l NULL → (length l <= n)%nat →
  ∃ l1 l2, l = l1 ++ l2
    ∧ find_place st n size p c = Some (last_or p l1, hd NULL l2)
    ∧ (∀ x, x ∈ l1 → GET_SIZE st (HDRP x) < size)
    ∧ (∀ x l2', l2 = x :: l2' → size <= GET_SIZE st (HDRP x)).
Proof.
  revert n p c. induction l as [|b l IH]; intros n p c H Hn.
  - simpl in H. subst c. exists [], []. repeat split.
    + destruct n; reflexivity.
    + intros x Hx. by apply elem_of_nil in Hx.
    + intros x l2' [=].
  - destruct H as (-> & Hb & Hp & H).
    destruct (Z.leb_spec size (GET_SIZE st (HDRP b))) as [Hle|Hgt].
    + exists [], (b :: l). repeat split.
      * destruct n; simpl;
          (replace (b =? NULL) with false by (symmetry; unfold NULL in *; lia));
          (replace (size <=? GET_SIZE st (HDRP b)) with true by (symmetry; lia));
          reflexivity.
      * intros x Hx. by apply elem_of_nil in Hx.
      * intros x l2' [= <- <-]. done.
    + destruct n as [|n]; [simpl in Hn; lia|].
      destruct (IH n b (SUCC_BLKP st b) H) as (l1 & l2 & -> & Hf & H1 & H2);
        [simpl in Hn; lia|].
      exists (b :: l1), l2. repeat split.
      * simpl.
        replace (b =? NULL) with false by (symmetry; unfold NULL in *; lia).
        replace (size <=? GET_SIZE st (HDRP b)) with false by (symmetry; lia).
        simpl. rewrite Hf. by rewrite last_or_cons.
      * intros x Hx. apply elem_of_cons in Hx as [->|Hx]; [done|eauto].
      * done.
Qed.

Lemma GET_PUT_same st p q v : p = q → GET (PUT st p v) q = v.
Proof. intros ->. apply GET_PUT_eq. Qed.

(** Reads after writes, the addresses compared by [lia]. *)
Ltac get_put :=
  repeat match goal with
    | |- context [GET (PUT ?st ?p ?v) ?q] =>
        first [ rewrite (GET_PUT_ne st p q v) by lia
              | rewrite (GET_PUT_same st p q v) by lia ]
    end.

(** Splicing a block into a list. *)
Lemma link_dllseg st slot l1 l2 b :
  NoDup (l1 ++ l2) → apart slot (b :: l1 ++ l2) → b ∉ l1 ++ l2 → b ≠ NULL →
  dllseg st NULL (GET st slot) (l1 ++ l2) NULL →
  let st' := link st slot b (last_or NULL l1) (hd NULL l2) in
  dllseg st' NULL (GET st' slot) (l1 ++ b :: l2) NULL
  ∧ ∀ w, w ≠ slot → (∀ x, x ∈ l1 ++ b :: l2 → w ≠ x ∧ w ≠ x + 8) →
         GET st' w = GET st w.
Proof.
  intros Hnd [Hslot Hsep] Hnb Hb H. cbv zeta.
  apply dllseg_app in H as (m & H1 & H2).
  assert (Hsb : slot + 8 < b) by (apply Hslot; in_list).
  assert (Hsepb : ∀ x, x ∈ l1 ++ l2 → x + 32 <= b ∨ b + 32 <= x).
  { intros x Hx. destruct (Hsep x b) as [?|?]; [in_list|in_list|by subst|done]. }
  assert (Hframe :
    ∀ w, w ≠ slot → (∀ x, x ∈ l1 ++ b :: l2 → w ≠ x ∧ w ≠ x + 8) →
         GET (link st slot b (last_or NULL l1) (hd NULL l2)) w = GET st w).
  { intros w Hw Hwl. unfold link, WSIZE.
    destruct (Hwl b) as [? ?]; [in_list|].
    assert (Hc : hd NULL l2 = NULL ∨ hd NULL l2 ∈ l2)
      by (destruct l2; simpl; [by left|right; by left]).
    assert (Hp : last_or NULL l1 = NULL ∨ last_or NULL l1 ∈ l1).
    { destruct l1 as [|p0 l1' _] using rev_ind; [by left|].
      rewrite last_or_snoc. right. in_list. }
    assert (Hw1 : last_or NULL l1 ≠ NULL → w ≠ last_or NULL l1 + 8).
    { intros Hn. destruct Hp as [Hp|Hp]; [done|].
      destruct (Hwl (last_or NULL l1)) as [? ?]; [in_list|done]. }
    assert (Hw2 : hd NULL l2 ≠ NULL → w ≠ hd NULL l2).
    { intros Hn. destruct Hc as [Hc|Hc]; [done|].
      destruct (Hwl (hd NULL l2)) as [? ?]; [in_list|done]. }
    destruct (Z.eqb_spec (last_or NULL l1) NULL) as [E2|E2];
      (rewrite GET_PUT_ne; [|first [done | apply not_eq_sym; auto]]);
      destruct (Z.eqb_spec (hd NULL l2) NULL) as [E1|E1];
      try (rewrite GET_PUT_ne; [|apply not_eq_sym; auto]);
      rewrite !GET_PUT_ne by done; done. }
  split; [|exact Hframe].
  assert (Hl2 : ∀ c l2', l2 = c :: l2' →
                 ∀ y, y ∈ l2' → (y + 32 <= c ∨ c + 32 <= y)
                                ∧ (y + 32 <= b ∨ b + 32 <= y) ∧ slot + 8 < y).
  { intros c l2' -> y Hy.
    assert (y ≠ c).
    { intros ->. apply NoDup_app in Hnd as (_ & _ & Hnd).
      apply NoDup_cons in Hnd as [Hcy _]. done. }
    split; [|split].
    - destruct (Hsep y c) as [?|?]; [in_list..|done|done].
    - apply Hsepb. in_list.
    - apply Hslot. in_list. }
  destruct l1 as [|p0 l1' _] using rev_ind.
  - (* the block becomes the head *)
    simpl in *. change (last_or NULL []) with NULL in *. subst m.
    unfold link, WSIZE. simpl.
    destruct l2 as [|c l2'].
    + simpl in *. unfold PRED_BLKP, SUCC_BLKP, WSIZE. get_put. done.
    + simpl in H2. destruct H2 as (Hc & Hcn & Hcp & H2). simpl.
      replace (c =? NULL) with false by (symmetry; unfold NULL in *; lia).
      assert (Hsc : slot + 8 < c) by (apply Hslot; in_list).
      assert (Hbc : c + 32 <= b ∨ b + 32 <= c) by (apply Hsepb; in_list).
      unfold PRED_BLKP, SUCC_BLKP, WSIZE in *. get_put.
      repeat split; try done.
      repeat (apply dllseg_PUT;
              [intros y Hy; destruct (Hl2 c l2' eq_refl y Hy) as (? & ? & ?); lia|]).
      exact H2.
  - (* the block follows [p0] *)
    rewrite last_or_snoc in *.
    assert (Hp0 : p0 ≠ NULL).
    { eapply dllseg_nonnull; [exact H1|]. in_list. }
    assert (Hsp : slot + 8 < p0) by (apply Hslot; in_list).
    assert (Hbp : p0 + 32 <= b ∨ b + 32 <= p0) by (apply Hsepb; in_list).
    assert (Hl1 : ∀ y, y ∈ l1' → (y + 32 <= p0 ∨ p0 + 32 <= y)
                                 ∧ (y + 32 <= b ∨ b + 32 <= y) ∧ slot + 8 < y).
    { intros y Hy.
      assert (y ≠ p0).
      { intros ->. apply NoDup_app in Hnd as (Hnd & _ & _).
        apply NoDup_app in Hnd as (_ & Hd & _). apply (Hd p0 Hy). by left. }
      split; [|split].
      - destruct (Hsep y p0) as [?|?]; [in_list..|done|done].
      - apply Hsepb. in_list.
      - apply Hslot. in_list. }
    unfold link, WSIZE.
    replace (p0 =? NULL) with false by (symmetry; unfold NULL in *; lia).
    apply dllseg_app. exists b.
    destruct l2 as [|c l2'].
    + simpl in *. subst m. split.
      * get_put.
        eapply dllseg_set_succ;
          [intros y Hy; destruct (Hl1 y Hy) as (? & ? & ?); lia|].
        repeat (apply dllseg_PUT;
                [intros y Hy; rewrite elem_of_app, list_elem_of_singleton in Hy;
                 destruct Hy as [Hy| ->]; [destruct (Hl1 y Hy) as (? & ? & ?)|]; lia|]).
        exact H1.
      * rewrite last_or_snoc. unfold PRED_BLKP, SUCC_BLKP, WSIZE.
        get_put. done.
    + simpl in H2. destruct H2 as (Hc & Hcn & Hcp & H2). subst m. simpl.
      replace (c =? NULL) with false by (symmetry; unfold NULL in *; lia).
      assert (Hsc : slot + 8 < c) by (apply Hslot; in_list).
      assert (Hbc : c + 32 <= b ∨ b + 32 <= c) by (apply Hsepb; in_list).
      assert (Hpc : p0 + 32 <= c ∨ c + 32 <= p0).
      { assert (p0 ≠ c).
        { intros Heq. apply NoDup_app in Hnd as (_ & Hd & _).
          apply (Hd p0); [in_list|rewrite Heq; in_list]. }
        destruct (Hsep p0 c) as [?|?]; [in_list..|done|done]. }
      assert (Hl1c : ∀ y, y ∈ l1' → y + 32 <= c ∨ c + 32 <= y).
      { intros y Hy.
        assert (y ≠ c).
        { intros ->. apply NoDup_app in Hnd as (_ & Hd & _).
          apply (Hd c); in_list. }
        destruct (Hsep y c) as [?|?]; [in_list..|done|done]. }
      assert (Hl2p : ∀ y, y ∈ l2' → y + 32 <= p0 ∨ p0 + 32 <= y).
      { intros y Hy.
        assert (y ≠ p0).
        { intros ->. apply NoDup_app in Hnd as (_ & Hd & _).
          apply (Hd p0); in_list. }
        destruct (Hsep y p0) as [?|?]; [in_list..|done|done]. }
      split.
      * get_put.
        eapply dllseg_set_succ;
          [intros y Hy; destruct (Hl1 y Hy) as (? & ? & ?); lia|].
        repeat (apply dllseg_PUT;
                [intros y Hy; rewrite elem_of_app, list_elem_of_singleton in Hy;
                 destruct Hy as [Hy| ->];
                 [destruct (Hl1 y Hy) as (? & ? & ?); pose proof (Hl1c y Hy)|]; lia|]).
        exact H1.
      * rewrite last_or_snoc. unfold PRED_BLKP, SUCC_BLKP, WSIZE in *. get_put.
        repeat split; try done.
        repeat (apply dllseg_PUT;
                [intros y Hy; destruct (Hl2 c l2' eq_refl y Hy) as (? & ? & ?);
                 pose proof (Hl2p y Hy); lia|]).
        exact H2.
Qed.

(** ** Consequences of the representation *)

Lemma fl_set_eq fl i l : fl_set fl i l i = l.
Proof. unfold fl_set. by rewrite Z.eqb_refl. Qed.

Lemma fl_set_ne fl i l j : j ≠ i → fl_set fl i l j = fl j.
Proof. intros. unfold fl_set. by replace (j =? i) with false by (symmetry; lia). Qed.

Lemma class_from_range n index size :
  0 <= index <= 15 → index <= class_from n index size <= 15.
Proof.
  revert index size. induction n as [|n IH]; intros index size Hi; simpl; [lia|].
  destruct ((index <? LISTSIZE - 1) && (size >? 1)) eqn:E; [|lia].
  apply andb_true_iff in E as [E _]. unfold LISTSIZE in E.
  specialize (IH (index + 1) (Z.shiftr size 1)). lia.
Qed.

Lemma class_of_range size : 0 <= class_of size < LISTSIZE.
Proof.
  unfold class_of. pose proof (class_from_range (Z.to_nat LISTSIZE) 0 size).
  unfold LISTSIZE in *. lia.
Qed.

Lemma freelists_range st i :
  0 <= i < LISTSIZE →
  heap_ptr st - 136 <= freelists st i <= heap_ptr st - 16
  ∧ freelists st i = heap_ptr st - 136 + 8 * i.
Proof. unfold freelists, LISTSIZE, WSIZE. lia. Qed.

Section Rep.
Context (st : heap) (bl : layout) (fl : Z → list Z) (U : list Z).
Let a := heap_ptr st + WSIZE.
Hypothesis Hrep : rep st bl fl.
Hypothesis Hlinked : linked a bl fl U.

Lemma rep_sized : sized bl.
Proof. destruct Hrep as (_ & Ht & _). by eapply tiled_seg_sized. Qed.

Lemma rep_blk_bounds b s al :
  blk_at a bl b s al →
  heap_ptr st + 16 <= b ∧ b + s <= mem_brk st ∧ 32 <= s ∧ s mod 8 = 0.
Proof.
  intros Hb. destruct Hrep as (_ & _ & Htot & _).
  pose proof (blk_at_bounds _ _ _ _ _ rep_sized Hb).
  unfold a, WSIZE in *. lia.
Qed.

Lemma rep_tags b s al :
  blk_at a bl b s al →
  GET st (b - 8) = tag s al ∧ GET st (b + s - 16) = tag s al.
Proof. destruct Hrep as (_ & Ht & _). by apply tiled_seg_tags. Qed.

Lemma rep_GET_SIZE b s al : blk_at a bl b s al → GET_SIZE st (HDRP b) = s.
Proof.
  intros Hb. destruct (rep_tags b s al Hb) as [Hh _].
  destruct (rep_blk_bounds b s al Hb) as (_ & _ & _ & Hm).
  unfold GET_SIZE, HDRP, WSIZE. rewrite Hh. by apply tag_size.
Qed.

Lemma rep_GET_ALLOC b s al :
  blk_at a bl b s al → GET_ALLOC st (HDRP b) = if al then 1 else 0.
Proof.
  intros Hb. destruct (rep_tags b s al Hb) as [Hh _].
  destruct (rep_blk_bounds b s al Hb) as (_ & _ & _ & Hm).
  unfold GET_ALLOC, HDRP, WSIZE. rewrite Hh. by apply tag_alloc.
Qed.

Lemma blk_unique b s al s' al' :
  blk_at a bl b s al → blk_at a bl b s' al' → s = s' ∧ al = al'.
Proof.
  intros H1 H2.
  pose proof (blk_at_bounds _ _ _ _ _ rep_sized H1).
  pose proof (blk_at_bounds _ _ _ _ _ rep_sized H2).
  destruct (blk_at_disjoint _ _ _ _ _ _ _ _ rep_sized H1 H2) as [(_ & ? & ?)|[?|?]];
    [done|lia..].
Qed.

Lemma blk_apart b s al b' s' al' :
  blk_at a bl b s al → blk_at a bl b' s' al' →
  b = b' ∨ b + 32 <= b' ∨ b' + 32 <= b.
Proof.
  intros H1 H2.
  pose proof (blk_at_bounds _ _ _ _ _ rep_sized H1).
  pose proof (blk_at_bounds _ _ _ _ _ rep_sized H2).
  destruct (blk_at_disjoint _ _ _ _ _ _ _ _ rep_sized H1 H2) as [(? & _)|[?|?]];
    [by left|lia..].
Qed.

Lemma listed_blk i b :
  b ∈ fl i → 0 <= i < LISTSIZE ∧ ∃ s, blk_at a bl b s false ∧ class_of s = i.
Proof. destruct Hlinked as (H & _). apply H. Qed.

Lemma listed_once i j b : b ∈ fl i → b ∈ fl j → i = j.
Proof.
  intros Hi Hj.
  destruct (listed_blk i b Hi) as (_ & s & Hb & <-).
  destruct (listed_blk j b Hj) as (_ & s' & Hb' & <-).
  by destruct (blk_unique _ _ _ _ _ Hb Hb') as [-> _].
Qed.

Lemma listed_apart i : 0 <= i < LISTSIZE → apart (freelists st i) (fl i).
Proof.
  intros Hi. destruct (freelists_range st i Hi) as [Hr _]. split.
  - intros x Hx. destruct (listed_blk i x Hx) as (_ & s & Hb & _).
    apply rep_blk_bounds in Hb. lia.
  - intros x y Hx Hy.
    destruct (listed_blk i x Hx) as (_ & s & Hb & _).
    destruct (listed_blk i y Hy) as (_ & s' & Hb' & _).
    by eapply blk_apart.
Qed.

(** The list of one class is rewritten through the links of free blocks
    [N] that no other list holds: the rest of the representation stands. *)
Lemma rep_update_list st' i l' (N : list Z) :
  same_region st st' → 0 <= i < LISTSIZE →
  (∀ x, x ∈ N → ∃ s, blk_at a bl x s false) →
  (∀ j x, j ≠ i → x ∈ fl j → x ∉ N) →
  (∀ w, w ≠ freelists st i → (∀ x, x ∈ N → w ≠ x ∧ w ≠ x + 8) →
        GET st' w = GET st w) →
  dllseg st' NULL (GET st' (freelists st i)) l' NULL →
  rep st' bl (fl_set fl i l').
Proof.
  intros (EH & Eb & Em) Hi HN Hother Hframe Hl'.
  destruct (freelists_range st i Hi) as [Hsl _].
  assert (Hlow : ∀ w, w < heap_ptr st + 16 → w ≠ freelists st i →
                      GET st' w = GET st w).
  { intros w Hw Hws. apply Hframe; [done|].
    intros x Hx. destruct (HN x Hx) as (s & Hb).
    apply rep_blk_bounds in Hb. lia. }
  pose proof Hrep as ((H1 & H2 & H3 & H4 & H5 & H6) & Ht & Htot & Hepi & Hlists).
  pose proof (total_nonneg bl rep_sized) as Htn.
  unfold rep, region_ok. rewrite EH, Eb, Em.
  unfold WSIZE in *.
  repeat split; try done.
  - rewrite Hlow by lia. done.
  - rewrite Hlow by lia. done.
  - eapply tiled_seg_frame_tags; [exact Ht|].
    intros b s al Hb.
    pose proof (rep_blk_bounds b s al Hb) as Hbb.
    split; apply Hframe; try lia; intros x Hx; destruct (HN x Hx) as (sx & Hbx);
      pose proof (rep_blk_bounds x sx false Hbx);
      destruct (interior_not_tag a bl x sx false x b s al rep_sized Hbx ltac:(lia) Hb);
      destruct (interior_not_tag a bl x sx false (x + 8) b s al rep_sized Hbx
                  ltac:(lia) Hb);
      lia.
  - rewrite Hframe; [done|lia|].
    intros x Hx. destruct (HN x Hx) as (sx & Hbx).
    apply rep_blk_bounds in Hbx. lia.
  - intros j Hj. unfold freelists. rewrite EH. fold (freelists st j).
    destruct (Z.eq_dec j i) as [->|Hne].
    + by rewrite fl_set_eq.
    + rewrite fl_set_ne by done.
      destruct (freelists_range st j Hj) as [Hsj Hsj'].
      destruct (freelists_range st i Hi) as [_ Hsi'].
      rewrite Hlow by lia.
      eapply dllseg_frame; [|by apply Hlists].
      intros y Hy.
      destruct (listed_blk j y Hy) as (_ & sy & Hby & _).
      pose proof (rep_blk_bounds y sy false Hby).
      split; apply Hframe; try lia; intros x Hx;
        destruct (HN x Hx) as (sx & Hbx);
        (assert (y ≠ x) by (intros ->; by apply (Hother j x)));
        destruct (blk_apart _ _ _ _ _ _ Hby Hbx) as [?|?]; try done; lia.
Qed.
End Rep.

(** ** [pop_free] and [add_free] *)

Lemma keeps_refl F st : keeps F st st.
Proof. by intros w _. Qed.

Lemma keeps_trans F st1 st2 st3 :
  keeps F st1 st2 → keeps F st2 st3 → keeps F st1 st3.
Proof. intros H1 H2 w Hw. rewrite H2, H1; done. Qed.

Lemma keeps_mono (F F' : Z → Prop) st st' :
  (∀ w, F w → F' w) → keeps F st st' → keeps F' st st'.
Proof. intros HF H w Hw. apply H. intros HFw. apply Hw. by apply HF. Qed.

Lemma keeps_PUT (F : Z → Prop) st p v : F p → keeps F st (PUT st p v).
Proof. intros Hp w Hw. apply GET_PUT_ne. by intros ->. Qed.

Lemma blk_at_bps a bl b s al : blk_at a bl b s al → b ∈ bps a bl.
Proof.
  revert a. induction bl as [|[s0 al0] r IH]; intros a; simpl; [tauto|].
  intros [(-> & _)|H]; [by left|right; eauto].
Qed.

Lemma bps_length a bl : length (bps a bl) = length bl.
Proof. revert a. induction bl as [|[s0 al0] r IH]; intros a; simpl; auto. Qed.

Lemma sized_length bl : sized bl → 32 * Z.of_nat (length bl) <= total bl.
Proof. induction 1 as [|[s al] r [H1 H2] _ IH]; simpl in *; lia. Qed.

Lemma unlink_region st slot ptr : same_region st (unlink st slot ptr).
Proof.
  unfold unlink.
  destruct (PRED_BLKP st ptr =? NULL), (SUCC_BLKP st ptr =? NULL);
    repeat apply same_region_PUT_r; apply same_region_refl.
Qed.

Lemma link_region st slot ptr prev cur : same_region st (link st slot ptr prev cur).
Proof.
  unfold link. destruct (prev =? NULL), (cur =? NULL);
    repeat apply same_region_PUT_r; apply same_region_refl.
Qed.

Section Lists.
Context (st : heap) (bl : layout) (fl : Z → list Z) (U : list Z).
Let a := heap_ptr st + WSIZE.
Hypothesis Hrep : rep st bl fl.
Hypothesis Hlinked : linked a bl fl U.

Lemma listed_length i : (length (fl i) <= walk_fuel st)%nat.
Proof.
  pose proof Hlinked as (Hl & _ & Hnd & _).
  assert (Hsub : fl i ⊆+ bps a bl).
  { apply NoDup_submseteq; [apply Hnd|].
    intros x Hx. destruct (Hl i x Hx) as (_ & s & Hb & _).
    by eapply blk_at_bps. }
  apply submseteq_length in Hsub. rewrite bps_length in Hsub.
  pose proof (sized_length bl (rep_sized st bl fl Hrep)) as Hlen.
  pose proof Hrep as (_ & _ & Htot & _).
  unfold walk_fuel, WSIZE in *.
  assert (Z.of_nat (length (fl i)) <= (mem_brk st - heap_ptr st) / 8) by zdiv.
  lia.
Qed.

Lemma listed_free_space i x w :
  x ∈ fl i → w = x ∨ w = x + 8 → free_space st bl w.
Proof.
  intros Hx Hw. destruct (listed_blk st bl fl U Hlinked i x Hx) as (_ & s & Hb & _).
  pose proof (rep_blk_bounds st bl fl Hrep x s false Hb).
  right. right. exists x, s. split; [done|lia].
Qed.

(** [pop_free] on a listed block. *)
Lemma pop_free_rep b s :
  blk_at a bl b s false → b ∈ fl (class_of s) →
  ∃ fl', rep (pop_free st b) bl fl'
         ∧ linked a bl fl' (b :: U)
         ∧ keeps (free_space st bl) st (pop_free st b).
Proof.
  intros Hb Hin.
  pose proof Hlinked as (Hl1 & Hl2 & Hl3 & Hl4).
  set (i := class_of s) in *.
  pose proof (class_of_range s) as Hi. fold i in Hi.
  apply list_elem_of_split in Hin as (l1 & l2 & Hfl).
  pose proof (Hl3 i) as Hnd. rewrite Hfl in Hnd.
  pose proof (listed_apart st bl fl U Hrep Hlinked i Hi) as Hap. rewrite Hfl in Hap.
  pose proof Hrep as (_ & _ & _ & _ & Hlists).
  pose proof (Hlists i Hi) as Hdll. rewrite Hfl in Hdll.
  destruct (unlink_dllseg st (freelists st i) l1 b l2 Hnd Hap Hdll) as [Hd Hframe].
  rewrite pop_free_unlink, (rep_GET_SIZE st bl fl Hrep b s false Hb). fold i.
  assert (Hsub : ∀ x, x ∈ l1 ++ l2 → x ∈ fl i).
  { intros x Hx. rewrite Hfl. in_list. }
  assert (Hnb : b ∉ l1 ++ l2).
  { intros Hx. apply NoDup_app in Hnd as (_ & Hd1 & Hd2).
    apply NoDup_cons in Hd2 as [Hd2 _]. apply elem_of_app in Hx as [Hx|Hx]; [|done].
    apply (Hd1 b Hx). by left. }
  exists (fl_set fl i (l1 ++ l2)). split; [|split].
  - eapply (rep_update_list st bl fl U Hrep Hlinked _ i (l1 ++ l2) (l1 ++ l2)).
    + apply unlink_region.
    + done.
    + intros x Hx. destruct (Hl1 i x (Hsub x Hx)) as (_ & sx & Hbx & _). eauto.
    + intros j x Hj Hxj Hx. apply Hj.
      eapply (listed_once st bl fl U Hrep Hlinked); [exact Hxj|by apply Hsub].
    + exact Hframe.
    + exact Hd.
  - split; [|split; [|split]].
    + intros j x Hx. destruct (Z.eq_dec j i) as [->|Hne].
      * rewrite fl_set_eq in Hx. by apply (Hl1 i x), Hsub.
      * rewrite fl_set_ne in Hx by done. by apply (Hl1 j x).
    + intros x sx Hbx.
      destruct (Z.eq_dec x b) as [->|Hxb]; [left; by left|].
      destruct (Hl2 x sx Hbx) as [HU|Hx]; [left; by right|right].
      destruct (Z.eq_dec (class_of sx) i) as [E|Hne].
      * rewrite E, fl_set_eq. rewrite E, Hfl in Hx. in_list.
      * by rewrite fl_set_ne.
    + intros j. destruct (Z.eq_dec j i) as [->|Hne].
      * rewrite fl_set_eq. apply NoDup_app in Hnd as (Hd1 & Hd2 & Hd3).
        apply NoDup_cons in Hd3 as [_ Hd3].
        apply NoDup_app. repeat split; try done.
        intros x Hx1 Hx2. apply (Hd2 x Hx1). by right.
      * rewrite fl_set_ne by done. apply Hl3.
    + intros x j Hx Hxj.
      destruct (Z.eq_dec j i) as [->|Hne].
      * rewrite fl_set_eq in Hxj. apply elem_of_cons in Hx as [->|Hx]; [done|].
        by apply (Hl4 x i Hx), Hsub.
      * rewrite fl_set_ne in Hxj by done.
        apply elem_of_cons in Hx as [->|Hx]; [|by apply (Hl4 x j Hx)].
        apply Hne. eapply (listed_once st bl fl U Hrep Hlinked); [exact Hxj|].
        rewrite Hfl. in_list.
  - intros w Hw. apply Hframe.
    + intros ->. apply Hw. left.
      destruct (freelists_range st i Hi). lia.
    + intros x Hx. split; intros ->; apply Hw;
        eapply (listed_free_space i x); eauto.
Qed.

Lemma add_free_link ptr size prev cur :
  find_place st (walk_fuel st) (GET_SIZE st (HDRP ptr)) NULL
    (GET st (freelists st (class_of (GET_SIZE st (HDRP ptr))))) = Some (prev, cur) →
  add_free st ptr size
  = Some (link st (freelists st (class_of (GET_SIZE st (HDRP ptr)))) ptr prev cur).
Proof. intros H. unfold add_free. rewrite H. reflexivity. Qed.

(** [add_free] on a free block that no list holds. *)
Lemma add_free_rep b s size U' :
  blk_at a bl b s false → b ∈ U →
  (∀ x, x ∈ U → x = b ∨ x ∈ U') → (∀ x, x ∈ U' → x ∈ U ∧ x ≠ b) →
  ∃ st' fl', add_free st b size = Some st'
             ∧ rep st' bl fl'
             ∧ linked a bl fl' U'
             ∧ same_region st st'
             ∧ keeps (free_space st bl) st st'.
Proof.
  intros Hb HbU HU1 HU2.
  pose proof Hlinked as (Hl1 & Hl2 & Hl3 & Hl4).
  set (i := class_of s) in *.
  pose proof (class_of_range s) as Hi. fold i in Hi.
  pose proof Hrep as (_ & _ & _ & _ & Hlists).
  pose proof (Hlists i Hi) as Hdll.
  pose proof (rep_blk_bounds st bl fl Hrep b s false Hb) as Hbb.
  pose proof Hrep as ((HH & _) & _).
  destruct (find_place_spec st (walk_fuel st) s NULL _ (fl i) Hdll (listed_length i))
    as (l1 & l2 & Hfl & Hfind & _).
  pose proof (Hl3 i) as Hnd. rewrite Hfl in Hnd.
  pose proof (listed_apart st bl fl U Hrep Hlinked i Hi) as [Hap1 Hap2].
  assert (Hnb : b ∉ l1 ++ l2) by (rewrite <- Hfl; by apply Hl4).
  assert (Hap : apart (freelists st i) (b :: l1 ++ l2)).
  { destruct (freelists_range st i Hi) as [Hr _]. rewrite <- Hfl. split.
    - intros x Hx. apply elem_of_cons in Hx as [->|Hx]; [lia|by apply Hap1].
    - intros x y Hx Hy.
      assert (Hblk : ∀ z, z ∈ b :: fl i → ∃ sz, blk_at a bl z sz false).
      { intros z Hz. apply elem_of_cons in Hz as [->|Hz]; [eauto|].
        destruct (Hl1 i z Hz) as (_ & sz & Hbz & _). eauto. }
      destruct (Hblk x Hx) as (sx & Hbx). destruct (Hblk y Hy) as (sy & Hby).
      by eapply (blk_apart st bl fl Hrep). }
  rewrite Hfl in Hdll.
  destruct (link_dllseg st (freelists st i) l1 l2 b Hnd Hap Hnb) as [Hd Hframe];
    [unfold NULL; lia|exact Hdll|].
  exists (link st (freelists st i) b (last_or NULL l1) (hd NULL l2)),
         (fl_set fl i (l1 ++ b :: l2)).
  split; [|split; [|split; [|split]]].
  - rewrite (add_free_link b size (last_or NULL l1) (hd NULL l2));
      rewrite (rep_GET_SIZE st bl fl Hrep b s false Hb); fold i; done.
  - eapply (rep_update_list st bl fl U Hrep Hlinked _ i (l1 ++ b :: l2) (l1 ++ b :: l2)).
    + apply link_region.
    + done.
    + intros x Hx. apply elem_of_app in Hx as [Hx|Hx].
      * destruct (Hl1 i x) as (_ & sx & Hbx & _); [rewrite Hfl; in_list|eauto].
      * apply elem_of_cons in Hx as [->|Hx]; [eauto|].
        destruct (Hl1 i x) as (_ & sx & Hbx & _); [rewrite Hfl; in_list|eauto].
    + intros j x Hj Hxj Hx.
      assert (x = b ∨ x ∈ fl i) as [->|Hxi] by (rewrite Hfl; in_list).
      * by apply (Hl4 b j).
      * apply Hj. by eapply (listed_once st bl fl U Hrep Hlinked).
    + exact Hframe.
    + exact Hd.
  - split; [|split; [|split]].
    + intros j x Hx. destruct (Z.eq_dec j i) as [->|Hne].
      * rewrite fl_set_eq in Hx.
        assert (x = b ∨ x ∈ fl i) as [->|Hxi] by (rewrite Hfl; in_list).
        -- split; [done|]. exists s. done.
        -- by apply (Hl1 i x).
      * rewrite fl_set_ne in Hx by done. by apply (Hl1 j x).
    + intros x sx Hbx.
      destruct (Z.eq_dec x b) as [->|Hxb].
      * right. destruct (blk_unique st bl fl Hrep _ _ _ _ _ Hbx Hb) as [-> _].
        fold i. rewrite fl_set_eq. in_list.
      * destruct (Hl2 x sx Hbx) as [HU|Hx].
        -- left. by destruct (HU1 x HU).
        -- right. destruct (Z.eq_dec (class_of sx) i) as [E|Hne].
           ++ rewrite E, fl_set_eq. rewrite E, Hfl in Hx. in_list.
           ++ by rewrite fl_set_ne.
    + intros j. destruct (Z.eq_dec j i) as [->|Hne].
      * rewrite fl_set_eq. apply NoDup_app in Hnd as (Hd1 & Hd2 & Hd3).
        apply NoDup_app. repeat split; try done.
        -- intros x Hx1 Hx2. apply elem_of_cons in Hx2 as [->|Hx2].
           ++ apply Hnb. in_list.
           ++ by apply (Hd2 x).
        -- apply NoDup_cons. split; [|done]. intros Hx. apply Hnb. in_list.
      * rewrite fl_set_ne by done. apply Hl3.
    + intros x j Hx Hxj. destruct (HU2 x Hx) as [HxU Hxb].
      destruct (Z.eq_dec j i) as [->|Hne].
      * rewrite fl_set_eq in Hxj.
        assert (x = b ∨ x ∈ fl i) as [?|Hxi] by (rewrite Hfl; in_list); [done|].
        by apply (Hl4 x i).
      * rewrite fl_set_ne in Hxj by done. by apply (Hl4 x j).
  - apply link_region.
  - intros w Hw. apply Hframe.
    + intros ->. apply Hw. left.
      destruct (freelists_range st i Hi). lia.
    + intros x Hx.
      assert (x = b ∨ x ∈ fl i) as [->|Hxi] by (rewrite Hfl; in_list).
      * split; intros ->; apply Hw; right; right; exists b, s; (split; [done|lia]).
      * split; intros ->; apply Hw; eapply (listed_free_space i x); eauto.
Qed.
End Lists.

(** ** Changing the tags of a stretch *)

Section Retag.
Context (st : heap) (fl : Z → list Z) (U : list Z).
Context (l1 mid mid' l2 : layout).
Let a := heap_ptr st + WSIZE.
Let lo := a + total l1.
Let hi := a + total l1 + total mid.
Hypothesis Hrep : rep st (l1 ++ mid ++ l2) fl.
Hypothesis Hlinked : linked a (l1 ++ mid ++ l2) fl U.
Hypothesis Htotal : total mid' = total mid.
Hypothesis HmidU : ∀ x s, blk_at lo mid x s false → x ∈ U.

Lemma retag_sized : sized l1 ∧ sized mid ∧ sized l2.
Proof.
  pose proof (rep_sized _ _ _ Hrep) as H.
  apply sized_app in H as [H1 H]. apply sized_app in H as [H2 H3]. done.
Qed.

(** A listed block lies in [l1] or in [l2]. *)
Lemma listed_outside i x :
  x ∈ fl i →
  ∃ s, class_of s = i
       ∧ (blk_at a l1 x s false ∨ blk_at hi l2 x s false)
       ∧ (x + 8 < lo ∨ hi + 8 <= x).
Proof.
  intros Hx. pose proof Hlinked as (Hl1 & _ & _ & Hl4).
  destruct retag_sized as (Hs1 & Hs2 & Hs3).
  destruct (Hl1 i x Hx) as (_ & s & Hb & Hc). exists s. split; [done|].
  apply blk_at_app in Hb as [Hb|Hb].
  - pose proof (blk_at_bounds _ _ _ _ _ Hs1 Hb). split; [by left|]. unfold lo. lia.
  - apply blk_at_app in Hb as [Hb|Hb].
    + exfalso. apply (Hl4 x i); [|done]. by eapply HmidU.
    + fold lo in Hb. replace (lo + total mid) with hi in Hb by (unfold hi, lo; lia).
      pose proof (blk_at_bounds _ _ _ _ _ Hs3 Hb). split; [by right|]. lia.
Qed.

(** The tags of the stretch [mid] are rewritten as those of [mid']. *)
Lemma rep_retag st' :
  same_region st st' →
  (∀ w, w < lo ∨ hi <= w → GET st' w = GET st w) →
  tiled_seg st' lo mid' →
  rep st' (l1 ++ mid' ++ l2) fl.
Proof.
  intros (EH & Eb & Em) Hframe Hmid'.
  pose proof Hrep as ((H1 & H2 & H3 & H4 & H5 & H6) & Ht & Htot & Hepi & Hlists).
  destruct retag_sized as (Hs1 & Hs2 & Hs3).
  pose proof (total_nonneg _ Hs1). pose proof (total_nonneg _ Hs2).
  pose proof (total_nonneg _ Hs3).
  rewrite !total_app in Htot.
  apply tiled_seg_app in Ht as [Ht1 Ht]. apply tiled_seg_app in Ht as [_ Ht2].
  unfold rep, region_ok. rewrite EH, Eb, Em. fold a. unfold WSIZE in *.
  repeat split; try done.
  - rewrite Hframe by (unfold lo, a, WSIZE; lia). done.
  - rewrite Hframe by (unfold lo, a, WSIZE; lia). done.
  - apply tiled_seg_app. split.
    + eapply tiled_seg_frame_range; [exact Ht1|].
      intros p Hp. apply Hframe. unfold lo, a, WSIZE. lia.
    + apply tiled_seg_app. split; [exact Hmid'|].
      rewrite Htotal.
      eapply tiled_seg_frame_range; [exact Ht2|].
      intros p Hp. apply Hframe. unfold hi, lo, a, WSIZE. lia.
  - rewrite !total_app, Htotal. unfold a, WSIZE. lia.
  - rewrite Hframe; [done|]. unfold hi, lo, a, WSIZE. lia.
  - intros i Hi. unfold freelists. rewrite EH. fold (freelists st i).
    destruct (freelists_range st i Hi) as [Hsl _].
    rewrite Hframe by (unfold lo, a, WSIZE; lia).
    eapply dllseg_frame; [|by apply Hlists].
    intros x Hx. destruct (listed_outside i x Hx) as (s & _ & _ & Hr).
    split; apply Hframe; lia.
Qed.

Lemma linked_retag U' :
  (∀ x s, blk_at lo mid' x s false → x ∈ U') →
  (∀ x, x ∈ U → x ∈ U' ∨ lo <= x - 8 < hi) →
  (∀ x, x ∈ U' → x ∈ U ∨ lo <= x - 8 < hi) →
  linked a (l1 ++ mid' ++ l2) fl U'.
Proof.
  intros Hm' HU HU'.
  pose proof Hlinked as (Hl1 & Hl2 & Hl3 & Hl4).
  destruct retag_sized as (Hs1 & Hs2 & Hs3).
  split; [|split; [|split]].
  - intros i x Hx. split; [by apply (Hl1 i x)|].
    destruct (listed_outside i x Hx) as (s & Hc & [Hb|Hb] & _); exists s;
      (split; [|done]); apply blk_at_app; [by left|right].
    apply blk_at_app. right. rewrite Htotal.
    by replace (a + total l1 + total mid) with hi by (unfold hi; lia).
  - intros x s Hb. apply blk_at_app in Hb as [Hb|Hb].
    + pose proof (blk_at_bounds _ _ _ _ _ Hs1 Hb).
      destruct (Hl2 x s) as [Hx|Hx]; [apply blk_at_app; by left| |by right].
      destruct (HU x Hx); [by left|]. unfold lo in *. lia.
    + apply blk_at_app in Hb as [Hb|Hb]; [left; by eapply Hm'|].
      rewrite Htotal in Hb.
      pose proof (blk_at_bounds _ _ _ _ _ Hs3 Hb).
      destruct (Hl2 x s) as [Hx|Hx];
        [apply blk_at_app; right; apply blk_at_app; by right| |by right].
      destruct (HU x Hx); [by left|]. unfold hi, lo in *. lia.
  - done.
  - intros x i Hx Hxi. destruct (HU' x Hx) as [HxU|Hr]; [by apply (Hl4 x i)|].
    destruct (listed_outside i x Hxi) as (s & _ & _ & Hr'). lia.
Qed.
End Retag.

(** ** Steps of the allocator *)

Lemma step_ok_refl st bl : step_ok st bl st bl.
Proof. unfold step_ok. repeat split; first [done|lia]. Qed.

Lemma step_ok_trans st1 bl1 st2 bl2 st3 bl3 :
  step_ok st1 bl1 st2 bl2 → step_ok st2 bl2 st3 bl3 → step_ok st1 bl1 st3 bl3.
Proof.
  intros (E1 & E2 & E3 & K1 & F1 & A1) (E1' & E2' & E3' & K2 & F2 & A2).
  unfold step_ok. repeat split; try congruence; try lia.
  - intros w Hw. rewrite K2, K1; try done. intros HF. apply Hw. by apply F1.
  - intros w Hw. by apply F1, F2.
  - intros z sz Hz. rewrite <- E1. apply A2. rewrite E1. by apply A1.
Qed.

Lemma free_space_region st st' bl w :
  same_region st st' → free_space st' bl w ↔ free_space st bl w.
Proof. intros (E1 & E2 & _). unfold free_space. by rewrite E1, E2. Qed.

Lemma step_ok_same_layout st st' bl :
  same_region st st' → keeps (free_space st bl) st st' → step_ok st bl st' bl.
Proof.
  intros Hr Hk. pose proof Hr as (E1 & E2 & E3).
  unfold step_ok. repeat split; try done; try lia.
  intros w Hw. by apply (free_space_region st st' bl w Hr).
Qed.

Lemma in_free_app a l1 l2 w :
  in_free a (l1 ++ l2) w ↔ in_free a l1 w ∨ in_free (a + total l1) l2 w.
Proof.
  unfold in_free. split.
  - intros (x & s & Hb & Hr). apply blk_at_app in Hb as [Hb|Hb]; [left|right]; eauto.
  - intros [(x & s & Hb & Hr)|(x & s & Hb & Hr)]; exists x, s;
      (split; [|done]); apply blk_at_app; [by left|by right].
Qed.

Section RetagStep.
Context (st : heap) (l1 mid mid' l2 : layout).
Let a := heap_ptr st + WSIZE.
Let lo := a + total l1.
Hypothesis Htotal : total mid' = total mid.

(** A retagging of free blocks into free or allocated blocks. *)
Lemma retag_step st' :
  same_region st st' →
  (∀ w, GET st' w ≠ GET st w → in_free lo mid w) →
  (∀ w, in_free lo mid' w → in_free lo mid w) →
  (∀ z sz, ¬ blk_at lo mid z sz true) →
  step_ok st (l1 ++ mid ++ l2) st' (l1 ++ mid' ++ l2).
Proof.
  intros Hr Hw Hfree Hnoalloc. pose proof Hr as (E1 & E2 & E3).
  unfold step_ok. fold a. repeat split; try done; try lia.
  - intros w HF. destruct (Z.eq_dec (GET st' w) (GET st w)) as [|Hne]; [done|].
    exfalso. apply HF. right. right. fold a.
    apply in_free_app. right. apply in_free_app. left. by apply Hw.
  - intros w. rewrite (free_space_region st st' _ w Hr).
    unfold free_space. fold a. intros [?|[?|Hf]]; [by left|right; by left|].
    right. right.
    apply in_free_app in Hf as [Hf|Hf]; apply in_free_app; [by left|right].
    apply in_free_app in Hf as [Hf|Hf]; apply in_free_app; [left; by apply Hfree|right].
    by rewrite <- Htotal.
  - intros z sz Hz. apply blk_at_app in Hz as [Hz|Hz]; apply blk_at_app; [by left|right].
    apply blk_at_app in Hz as [Hz|Hz]; [by apply Hnoalloc in Hz|].
    apply blk_at_app. right. by rewrite Htotal.
Qed.
End RetagStep.

(** Reads after writes, with [WSIZE] and [DSIZE] as numbers. *)
Ltac words := unfold HDRP, FTRP, NEXT_BLKP, PREV_BLKP, DSIZE, WSIZE, NULL in *.

Lemma GET_SIZE_tag st p s al :
  GET st p = tag s al → s mod 8 = 0 → GET_SIZE st p = s.
Proof. intros H Hm. unfold GET_SIZE. rewrite H. by apply tag_size. Qed.

Lemma GET_ALLOC_tag st p s al :
  GET st p = tag s al → s mod 8 = 0 → GET_ALLOC st p = if al then 1 else 0.
Proof. intros H Hm. unfold GET_ALLOC. rewrite H. by apply tag_alloc. Qed.

Section Merge.
Context (st : heap) (fl : Z → list Z).
Context (l1 l2 : layout) (sx sy : Z).
Let a := heap_ptr st + WSIZE.
Let x := a + total l1 + 8.
Let y := x + sx.
Let bl := l1 ++ [(sx, false); (sy, false)] ++ l2.
Let bl' := l1 ++ [(sx + sy, false)] ++ l2.
Hypothesis Hrep : rep st bl fl.
Hypothesis Hlinked : linked a bl fl [].

Lemma merge_blocks : blk_at a bl x sx false ∧ blk_at a bl y sy false.
Proof.
  split; apply blk_at_app; right; simpl; [left|right; left]; unfold y, x; done || lia.
Qed.

(** Two free neighbours leave their lists, in either order, their tags
    are rewritten as one block, and the block is listed. *)
Lemma merge_rep A B :
  (A = x ∧ B = y) ∨ (A = y ∧ B = x) →
  let st2 := pop_free (pop_free st A) B in
  let st3 := PUT st2 (HDRP x) (PACK (sx + sy) 0) in
  let st4 := PUT st3 (FTRP st3 x) (PACK (sx + sy) 0) in
  ∃ st' fl', add_free st4 x (sx + sy) = Some st'
             ∧ rep st' bl' fl' ∧ linked a bl' fl' []
             ∧ step_ok st bl st' bl'.
Proof.
  intros HAB. cbv zeta.
  destruct merge_blocks as [Hx Hy].
  pose proof (rep_blk_bounds st bl fl Hrep x sx false Hx) as Hbx.
  pose proof (rep_blk_bounds st bl fl Hrep y sy false Hy) as Hby.
  pose proof Hrep as ((HH & _ & Hbrk & Hmax & _) & _).
  assert (∃ sA sB, blk_at a bl A sA false ∧ blk_at a bl B sB false ∧ A ≠ B)
    as (sA & sB & HA & HB & HAne).
  { destruct HAB as [[-> ->]|[-> ->]]; [exists sx, sy|exists sy, sx];
      (split; [done|split; [done|unfold y; lia]]). }
  (* the two removals *)
  pose proof Hlinked as (_ & Hcomp & _).
  destruct (Hcomp A sA HA) as [HAU|HAin]; [by apply elem_of_nil in HAU|].
  destruct (pop_free_rep st bl fl [] Hrep Hlinked A sA HA HAin)
    as (fl1 & Hrep1 & Hlinked1 & Hk1).
  pose proof (pop_free_region st A) as Hr1. pose proof Hr1 as (EH1 & Eb1 & Em1).
  assert (HB1 : blk_at (heap_ptr (pop_free st A) + WSIZE) bl B sB false)
    by (rewrite EH1; exact HB).
  assert (Hlinked1' : linked (heap_ptr (pop_free st A) + WSIZE) bl fl1 [A])
    by (rewrite EH1; exact Hlinked1).
  pose proof Hlinked1 as (_ & Hcomp1 & _).
  destruct (Hcomp1 B sB HB) as [HBU|HBin].
  { apply elem_of_cons in HBU as [?|HBU]; [done|by apply elem_of_nil in HBU]. }
  destruct (pop_free_rep (pop_free st A) bl fl1 [A] Hrep1 Hlinked1' B sB HB1 HBin)
    as (fl2 & Hrep2 & Hlinked2 & Hk2).
  pose proof (pop_free_region (pop_free st A) B) as Hr2.
  set (st2 := pop_free (pop_free st A) B) in *.
  pose proof (same_region_trans _ _ _ Hr1 Hr2) as Hr02.
  pose proof Hr02 as (EH2 & Eb2 & Em2).
  rewrite EH1 in Hlinked2. fold a in Hlinked2.
  (* the new tags *)
  assert (Hs : (sx + sy) mod 8 = 0 ∧ 32 <= sx + sy) by (split; [zdiv|lia]).
  destruct Hs as [Hsm Hsl].
  rewrite PACK_0.
  set (st3 := PUT st2 (HDRP x) (sx + sy)).
  assert (Hsize3 : GET_SIZE st3 (HDRP x) = sx + sy).
  { apply (GET_SIZE_tag _ _ _ false); [|done].
    unfold st3, tag. rewrite GET_PUT_eq. lia. }
  assert (Hf : FTRP st3 x = x + (sx + sy) - 16).
  { unfold FTRP. rewrite Hsize3. reflexivity. }
  rewrite Hf. set (st4 := PUT st3 (x + (sx + sy) - 16) (sx + sy)).
  assert (Hr4 : same_region st2 st4).
  { unfold st4, st3. repeat apply same_region_PUT_r. apply same_region_refl. }
  assert (Hrep2' : rep st2 (l1 ++ [(sx, false); (sy, false)] ++ l2) fl2) by exact Hrep2.
  assert (Ha2 : heap_ptr st2 + WSIZE = a) by (unfold a; by rewrite EH2).
  assert (Hlinked2' :
    linked (heap_ptr st2 + WSIZE) (l1 ++ [(sx, false); (sy, false)] ++ l2) fl2 [B; A])
    by (rewrite Ha2; exact Hlinked2).
  assert (Hrep4 : rep st4 bl' fl2).
  { apply (rep_retag st2 fl2 [B; A] l1 [(sx, false); (sy, false)]
             [(sx + sy, false)] l2 Hrep2' Hlinked2').
    - simpl. lia.
    - rewrite Ha2. intros z sz Hz. simpl in Hz.
      assert (z = x ∨ z = y) as [->| ->] by (unfold y, x in *; lia);
        destruct HAB as [[-> ->]|[-> ->]]; in_list.
    - exact Hr4.
    - rewrite Ha2. intros w Hw. unfold st4, st3. words.
      simpl in Hw. unfold x in *. rewrite !GET_PUT_ne by lia. done.
    - rewrite Ha2. simpl. unfold st4, st3, tag. words.
      repeat split; try done; unfold x in *; get_put; lia. }
  assert (Hlinked4 : linked a bl' fl2 [x]).
  { rewrite <- Ha2.
    apply (linked_retag st2 fl2 [B; A] l1 [(sx, false); (sy, false)]
             [(sx + sy, false)] l2 Hrep2' Hlinked2').
    - simpl. lia.
    - rewrite Ha2. intros z sz Hz. simpl in Hz.
      assert (z = x ∨ z = y) as [->| ->] by (unfold y, x in *; lia);
        destruct HAB as [[-> ->]|[-> ->]]; in_list.
    - rewrite Ha2. intros z sz Hz. simpl in Hz.
      assert (z = x) as -> by (unfold x in *; lia). by left.
    - rewrite Ha2. intros z Hz. right. simpl.
      assert (z = x ∨ z = y) as [->| ->]
        by (destruct HAB as [[-> ->]|[-> ->]]; in_list);
        unfold y, x in *; lia.
    - rewrite Ha2. intros z Hz. right. simpl.
      apply list_elem_of_singleton in Hz as ->. unfold x in *. lia. }
  (* the insertion *)
  assert (Ha4 : heap_ptr st4 + WSIZE = a).
  { destruct Hr4 as (E & _). by rewrite E. }
  assert (Hx' : blk_at (heap_ptr st4 + WSIZE) bl' x (sx + sy) false).
  { rewrite Ha4. apply blk_at_app. right. simpl. left. done. }
  rewrite <- Ha4 in Hlinked4.
  destruct (add_free_rep st4 bl' fl2 [x] Hrep4 Hlinked4 x (sx + sy) (sx + sy) [])
    as (st' & fl' & Hadd & Hrep' & Hlinked' & Hr' & Hk'); [done|by left| | |].
  { intros z Hz. left. by apply list_elem_of_singleton in Hz. }
  { intros z Hz. by apply elem_of_nil in Hz. }
  exists st', fl'. rewrite Ha4 in Hlinked'.
  split; [exact Hadd|]. split; [exact Hrep'|]. split; [exact Hlinked'|].
  (* the frame *)
  eapply step_ok_trans; [apply (step_ok_same_layout st st2 bl Hr02)|].
  { eapply keeps_trans; [exact Hk1|].
    eapply keeps_mono; [|exact Hk2].
    intros w. by apply (free_space_region st (pop_free st A) bl w Hr1). }
  eapply step_ok_trans.
  - apply (retag_step st2 l1 [(sx, false); (sy, false)] [(sx + sy, false)] l2
             ltac:(simpl; lia) st4 Hr4).
    + rewrite Ha2. intros w Hw.
      assert (w = x - 8 ∨ w = x + (sx + sy) - 16) as [->| ->].
      { destruct (Z.eq_dec w (x - 8)) as [|N1]; [by left|].
        destruct (Z.eq_dec w (x + (sx + sy) - 16)) as [|N2]; [by right|].
        exfalso. apply Hw. unfold st4, st3. words. by rewrite !GET_PUT_ne. }
      * exists x, sx. simpl. split; [left; unfold x; done|lia].
      * exists y, sy. simpl. split; [right; left; unfold y, x; split; [lia|done]|].
        unfold y. lia.
    + rewrite Ha2. intros w (z & sz & Hz & Hw). simpl in Hz.
      destruct Hz as [(-> & -> & _)|[]].
      destruct (Z.lt_ge_cases w (x - 8 + sx)).
      * exists x, sx. simpl. split; [left; unfold x; done|unfold x in *; lia].
      * exists y, sy. simpl. split; [right; left; unfold y, x; split; [lia|done]|].
        unfold y, x in *. lia.
    + intros z sz Hz. simpl in Hz. destruct Hz as [(_ & _ & [=])|[(_ & _ & [=])|[]]].
  - apply (step_ok_same_layout st4 st' bl' Hr' Hk').
Qed.
End Merge.

(** ** [coalesce] *)

Lemma join_prev_nil s : join_prev [] s = ([], s).
Proof. reflexivity. Qed.

Lemma join_prev_free l s0 s : join_prev (l ++ [(s0, false)]) s = (l, s0 + s).
Proof. unfold join_prev. by rewrite last_snoc, removelast_last. Qed.

Lemma join_prev_alloc l s0 s :
  join_prev (l ++ [(s0, true)]) s = (l ++ [(s0, true)], s).
Proof. unfold join_prev. by rewrite last_snoc. Qed.

Lemma PACK_0_1 : PACK 0 1 = tag 0 true.
Proof. reflexivity. Qed.

Lemma PACK_DSIZE_1 : PACK DSIZE 1 = tag 16 true.
Proof. reflexivity. Qed.

Section Coalesce.
Context (st : heap) (fl : Z → list Z) (l1 l2 : layout) (s : Z).
Let a := heap_ptr st + WSIZE.
Let b := a + total l1 + 8.
Let bl := l1 ++ (s, false) :: l2.
Hypothesis Hrep : rep st bl fl.
Hypothesis Hlinked : linked a bl fl [].

Lemma coalesce_blk : blk_at a bl b s false.
Proof. apply blk_at_middle. Qed.

Lemma coalesce_header : GET_SIZE st (HDRP b) = s ∧ NEXT_BLKP st b = b + s.
Proof.
  pose proof (rep_GET_SIZE st bl fl Hrep b s false coalesce_blk) as H.
  split; [done|]. unfold NEXT_BLKP. unfold HDRP in H. by rewrite H.
Qed.

(** The right neighbour. *)
Lemma merge_next_layout :
  ∃ st' fl',
    merge_next st b = Some st'
    ∧ rep st' (l1 ++ (fst (join_next s l2), false) :: snd (join_next s l2)) fl'
    ∧ linked a (l1 ++ (fst (join_next s l2), false) :: snd (join_next s l2)) fl' []
    ∧ step_ok st bl st' (l1 ++ (fst (join_next s l2), false) :: snd (join_next s l2))
    ∧ (l2 = [] → st' = st).
Proof.
  destruct coalesce_header as [Hsize Hnext].
  pose proof (rep_blk_bounds st bl fl Hrep b s false coalesce_blk) as Hbb.
  pose proof Hrep as ((HH & _ & Hbrk & Hmax & _) & Ht & Htot & Hepi & _).
  assert (Hskip : GET_ALLOC st (HDRP (b + s)) = 1 → join_next s l2 = (s, l2) →
                  ∃ st' fl',
                    merge_next st b = Some st'
                    ∧ rep st' (l1 ++ (fst (join_next s l2), false)
                                  :: snd (join_next s l2)) fl'
                    ∧ linked a (l1 ++ (fst (join_next s l2), false)
                                   :: snd (join_next s l2)) fl' []
                    ∧ step_ok st bl st' (l1 ++ (fst (join_next s l2), false)
                                            :: snd (join_next s l2))
                    ∧ (l2 = [] → st' = st)).
  { intros Hal ->. exists st, fl. unfold merge_next.
    rewrite Hnext, Hal. simpl.
    split; [done|]. split; [exact Hrep|]. split; [exact Hlinked|].
    split; [apply step_ok_refl|done]. }
  destruct l2 as [|[s2 [|]] l2'] eqn:El2.
  - (* the epilogue follows *)
    apply Hskip; [|done]. apply (GET_ALLOC_tag _ _ 0 true); [|done].
    unfold bl in Htot. rewrite total_app in Htot. simpl in Htot.
    replace (HDRP (b + s)) with (mem_brk st - WSIZE)
      by (unfold b, a, HDRP, WSIZE in *; lia).
    by rewrite Hepi.
  - (* an allocated block follows *)
    pose proof (next_header st a l1 s false _ Ht) as (Hh & Hm & _).
    apply Hskip; [|done]. apply (GET_ALLOC_tag _ _ s2 true); [|done].
    replace (HDRP (b + s)) with (a + total l1 + s)
      by (unfold b, HDRP, WSIZE; lia).
    done.
  - (* a free block follows *)
    pose proof (next_header st a l1 s false _ Ht) as (Hh & Hm & Hs2).
    assert (Hy : blk_at a bl (b + s) s2 false).
    { unfold bl. apply blk_at_app. right. simpl. right. left.
      unfold b. split; [lia|done]. }
    pose proof (rep_blk_bounds st bl fl Hrep (b + s) s2 false Hy) as Hby.
    destruct (merge_rep st fl l1 l2' s s2 Hrep Hlinked (b + s) b)
      as (st' & fl' & Hadd & Hrep' & Hlinked' & Hstep).
    { right. unfold b, a. split; reflexivity. }
    cbv zeta in Hadd.
    exists st', fl'. simpl.
    split; [|split; [exact Hrep'|split; [exact Hlinked'|split;
      [exact Hstep|discriminate]]]].
    unfold merge_next. rewrite Hnext.
    replace (GET_ALLOC st (HDRP (b + s))) with 0.
    2:{ symmetry. apply (GET_ALLOC_tag _ _ s2 false); [|done].
        replace (HDRP (b + s)) with (a + total l1 + s)
          by (unfold b, HDRP, WSIZE; lia).
        done. }
    simpl. rewrite Hsize.
    rewrite (rep_GET_SIZE st bl fl Hrep (b + s) s2 false Hy).
    replace (wrap64 (s + s2)) with (s + s2) by (unfold wrap64; zdiv).
    exact Hadd.
Qed.

Lemma merge_next_rep :
  ∃ st' fl' sc l2c,
    merge_next st b = Some st'
    ∧ rep st' (l1 ++ (sc, false) :: l2c) fl'
    ∧ linked a (l1 ++ (sc, false) :: l2c) fl' []
    ∧ step_ok st bl st' (l1 ++ (sc, false) :: l2c)
    ∧ s <= sc
    ∧ (l2 = [] → st' = st ∧ sc = s ∧ l2c = []).
Proof.
  destruct merge_next_layout as (st' & fl' & Hm & Hrep' & Hlinked' & Hstep & Hnil).
  exists st', fl', (fst (join_next s l2)), (snd (join_next s l2)).
  split; [done|]. split; [done|]. split; [done|]. split; [done|]. split.
  - pose proof Hrep as (_ & Ht & _).
    pose proof (next_header st a l1 s false _ Ht) as Hn.
    destruct l2 as [|[s2 [|]] l2']; simpl; lia.
  - intros El2. split; [by apply Hnil|]. by rewrite El2.
Qed.

(** The left neighbour. *)
Lemma merge_prev_layout :
  ∃ st' fl',
    merge_prev st b = Some (st', a + total (fst (join_prev l1 s)) + 8)
    ∧ rep st' (fst (join_prev l1 s) ++ (snd (join_prev l1 s), false) :: l2) fl'
    ∧ linked a (fst (join_prev l1 s) ++ (snd (join_prev l1 s), false) :: l2) fl' []
    ∧ step_ok st bl st' (fst (join_prev l1 s) ++ (snd (join_prev l1 s), false) :: l2).
Proof.
  destruct coalesce_header as [Hsize Hnext].
  pose proof (rep_blk_bounds st bl fl Hrep b s false coalesce_blk) as Hbb.
  pose proof Hrep as ((HH & _ & Hbrk & Hmax & Hpro1 & Hpro2) & Ht & Htot & Hepi & _).
  assert (Hskip : GET_ALLOC st (HDRP (PREV_BLKP st b)) = 1 →
                  join_prev l1 s = (l1, s) →
                  ∃ st' fl',
                    merge_prev st b = Some (st', a + total (fst (join_prev l1 s)) + 8)
                    ∧ rep st' (fst (join_prev l1 s)
                               ++ (snd (join_prev l1 s), false) :: l2) fl'
                    ∧ linked a (fst (join_prev l1 s)
                                ++ (snd (join_prev l1 s), false) :: l2) fl' []
                    ∧ step_ok st bl st' (fst (join_prev l1 s)
                                         ++ (snd (join_prev l1 s), false) :: l2)).
  { intros Hal ->. exists st, fl. unfold merge_prev.
    rewrite Hal. simpl.
    split; [done|]. split; [exact Hrep|]. split; [exact Hlinked|].
    apply step_ok_refl. }
  destruct l1 as [|[s0 al0] l1' _] eqn:El1 using rev_ind.
  - (* the prologue precedes *)
    apply Hskip; [|done].
    assert (Hp : PREV_BLKP st b = heap_ptr st).
    { unfold PREV_BLKP.
      replace (b - DSIZE) with (heap_ptr st) by (unfold b, a, DSIZE, WSIZE; simpl; lia).
      rewrite (GET_SIZE_tag _ _ 16 true); [|by rewrite Hpro2|done].
      unfold b, a, WSIZE. simpl. lia. }
    rewrite Hp. apply (GET_ALLOC_tag _ _ 16 true); [|done].
    unfold HDRP. by rewrite Hpro1.
  - (* a block precedes *)
    assert (Ht' : tiled_seg st a ((l1' ++ [(s0, al0)]) ++ (s, false) :: l2)) by exact Ht.
    pose proof (prev_footer st a l1' s0 al0 _ Ht') as (Hf & Hh & Hm & Hs0).
    assert (Hp : PREV_BLKP st b = a + total l1' + 8).
    { unfold PREV_BLKP.
      replace (b - DSIZE) with (a + total (l1' ++ [(s0, al0)]) - 8)
        by (unfold b, DSIZE, WSIZE; lia).
      rewrite (GET_SIZE_tag _ _ s0 al0 Hf Hm).
      unfold b. rewrite total_app. simpl. lia. }
    assert (Hhp : GET st (HDRP (PREV_BLKP st b)) = tag s0 al0).
    { rewrite Hp. unfold HDRP, WSIZE.
      replace (a + total l1' + 8 - 8) with (a + total l1') by lia. done. }
    destruct al0.
    { apply Hskip; [|apply join_prev_alloc]. by apply (GET_ALLOC_tag _ _ s0 true). }
    assert (Hbl : bl = l1' ++ [(s0, false); (s, false)] ++ l2).
    { unfold bl. rewrite <- app_assoc. reflexivity. }
    assert (Hrep0 : rep st (l1' ++ [(s0, false); (s, false)] ++ l2) fl)
      by (rewrite <- Hbl; exact Hrep).
    assert (Hlinked0 : linked (heap_ptr st + WSIZE)
                         (l1' ++ [(s0, false); (s, false)] ++ l2) fl [])
      by (rewrite <- Hbl; exact Hlinked).
    assert (Hb : b = a + total l1' + 8 + s0).
    { unfold b. rewrite total_app. simpl. lia. }
    destruct (merge_rep st fl l1' l2 s0 s Hrep0 Hlinked0 (a + total l1' + 8) b)
      as (st' & fl' & Hadd & Hrep' & Hlinked' & Hstep).
    { left. unfold a. split; [reflexivity|]. fold a. exact Hb. }
    cbv zeta in Hadd. fold a in Hadd.
    assert (Hx : blk_at a bl (a + total l1' + 8) s0 false).
    { rewrite Hbl. apply blk_at_app. right. simpl. left. done. }
    pose proof (rep_blk_bounds st bl fl Hrep _ s0 false Hx) as Hbx.
    exists st', fl'. rewrite join_prev_free. simpl.
    split; [|split; [exact Hrep'|split; [exact Hlinked'|]]].
    + unfold merge_prev. rewrite Hp.
      replace (GET_ALLOC st (HDRP (a + total l1' + 8))) with 0
        by (symmetry; rewrite <- Hp; by apply (GET_ALLOC_tag _ _ s0 false)).
      simpl. rewrite Hsize.
      rewrite (rep_GET_SIZE st bl fl Hrep _ s0 false Hx).
      replace (wrap64 (s0 + s)) with (s0 + s) by (unfold wrap64; zdiv).
      rewrite Hadd. reflexivity.
    + rewrite <- Hbl in Hstep. exact Hstep.
Qed.

Lemma join_prev_cases :
  join_prev l1 s = (l1, s)
  ∨ ∃ l1' s0, l1 = l1' ++ [(s0, false)] ∧ join_prev l1 s = (l1', s0 + s) ∧ 32 <= s0.
Proof.
  pose proof Hrep as (_ & Ht & _).
  destruct l1 as [|[s0 [|]] l1' _] using rev_ind.
  - by left.
  - left. apply join_prev_alloc.
  - right. exists l1', s0. split; [done|]. split; [apply join_prev_free|].
    assert (Ht' : tiled_seg st a ((l1' ++ [(s0, false)]) ++ (s, false) :: l2)) by exact Ht.
    by destruct (prev_footer st a l1' s0 false _ Ht') as (_ & _ & _ & ?).
Qed.

Lemma merge_prev_rep :
  ∃ st' r bl' fl' s',
    merge_prev st b = Some (st', r)
    ∧ rep st' bl' fl' ∧ linked a bl' fl' []
    ∧ step_ok st bl st' bl'
    ∧ blk_at a bl' r s' false ∧ s <= s'
    ∧ (∀ z sz, blk_at a bl z sz false → z ≠ b →
               ∃ sz', blk_at a bl' z sz' false ∧ sz <= sz')
    ∧ r <= b ∧ r + s' = b + s.
Proof.
  destruct merge_prev_layout as (st' & fl' & Hm & Hrep' & Hlinked' & Hstep).
  pose proof (rep_blk_bounds st bl fl Hrep b s false coalesce_blk) as Hbb.
  exists st', (a + total (fst (join_prev l1 s)) + 8),
    (fst (join_prev l1 s) ++ (snd (join_prev l1 s), false) :: l2), fl',
    (snd (join_prev l1 s)).
  split; [done|]. split; [done|]. split; [done|]. split; [done|].
  split; [apply blk_at_middle|].
  destruct join_prev_cases as [->|(l1' & s0 & El1 & -> & Hs0)]; simpl.
  - split; [lia|]. split; [|unfold b; lia].
    intros z sz Hz _. exists sz. split; [done|lia].
  - split; [lia|]. split; [|unfold b; rewrite El1, total_app; simpl; lia].
    intros z sz Hz Hzb. unfold bl in Hz. rewrite El1, <- app_assoc in Hz.
    apply blk_at_app in Hz as [Hz|Hz].
    * exists sz. split; [|lia]. apply blk_at_app. by left.
    * simpl in Hz. destruct Hz as [(-> & -> & _)|[(-> & _)|Hz]].
      -- exists (s0 + s). split; [|lia]. apply blk_at_app. right. simpl. by left.
      -- exfalso. apply Hzb. unfold b. rewrite El1, total_app. simpl. lia.
      -- exists sz. split; [|lia]. apply blk_at_app. right. simpl. right.
         by replace (a + total l1' + (s0 + s)) with (a + total l1' + s0 + s) by lia.
Qed.
End Coalesce.

(** [coalesce] on a listed free block of a well-formed heap, with the layout
    it leaves. *)
Lemma coalesce_layout st fl l1 l2 s :
  rep st (l1 ++ (s, false) :: l2) fl →
  linked (heap_ptr st + WSIZE) (l1 ++ (s, false) :: l2) fl [] →
  ∃ st' fl',
    coalesce st (heap_ptr st + WSIZE + total l1 + 8)
    = Some (st', heap_ptr st + WSIZE
                 + total (fst (join_prev l1 (fst (join_next s l2)))) + 8)
    ∧ rep st' (coalesced l1 s l2) fl'
    ∧ linked (heap_ptr st + WSIZE) (coalesced l1 s l2) fl' []
    ∧ step_ok st (l1 ++ (s, false) :: l2) st' (coalesced l1 s l2).
Proof.
  intros Hrep Hlinked.
  destruct (merge_next_layout st fl l1 l2 s Hrep Hlinked)
    as (st1 & fl1 & Hm1 & Hrep1 & Hlinked1 & Hstep1 & _).
  pose proof Hstep1 as (EH & _).
  rewrite <- EH in Hlinked1.
  destruct (merge_prev_layout st1 fl1 l1 _ _ Hrep1 Hlinked1)
    as (st2 & fl2 & Hm2 & Hrep2 & Hlinked2 & Hstep2).
  rewrite EH in *.
  exists st2, fl2. unfold coalesce. rewrite Hm1. simpl.
  split; [exact Hm2|]. split; [exact Hrep2|]. split; [exact Hlinked2|].
  eapply step_ok_trans; eassumption.
Qed.

(** [coalesce] on a listed free block of a well-formed heap. *)
Lemma coalesce_rep st bl fl b s :
  rep st bl fl → linked (heap_ptr st + WSIZE) bl fl [] →
  blk_at (heap_ptr st + WSIZE) bl b s false →
  ∃ st' r bl' fl' s',
    coalesce st b = Some (st', r)
    ∧ rep st' bl' fl' ∧ linked (heap_ptr st + WSIZE) bl' fl' []
    ∧ step_ok st bl st' bl'
    ∧ blk_at (heap_ptr st + WSIZE) bl' r s' false ∧ s <= s'.
Proof.
  intros Hrep Hlinked Hb.
  apply blk_at_split in Hb as (l1 & l2 & -> & ->).
  destruct (merge_next_rep st fl l1 l2 s Hrep Hlinked)
    as (st1 & fl1 & sc & l2c & Hm1 & Hrep1 & Hlinked1 & Hstep1 & Hsc & _).
  pose proof Hstep1 as (EH & _).
  rewrite <- EH in Hlinked1.
  destruct (merge_prev_rep st1 fl1 l1 l2c sc Hrep1 Hlinked1)
    as (st2 & r & bl2 & fl2 & s2 & Hm2 & Hrep2 & Hlinked2 & Hstep2 & Hr & Hs2 & _).
  rewrite EH in *.
  exists st2, r, bl2, fl2, s2. unfold coalesce. rewrite Hm1. simpl.
  split; [exact Hm2|]. split; [exact Hrep2|]. split; [exact Hlinked2|].
  split; [eapply step_ok_trans; eassumption|]. split; [exact Hr|lia].
Qed.

Lemma elem_of_one (x y : Z) : x ∈ [y] ↔ x = y.
Proof. apply list_elem_of_singleton. Qed.

(** ** [mm_free] *)

Section Free.
Context (st : heap) (fl : Z → list Z) (l1 l2 : layout) (s : Z).
Let a := heap_ptr st + WSIZE.
Let p := a + total l1 + 8.
Let bl := l1 ++ [(s, true)] ++ l2.
Let bl1 := l1 ++ [(s, false)] ++ l2.
Hypothesis Hrep : rep st bl fl.
Hypothesis Hlinked : linked a bl fl [].

Lemma mm_free_layout_at :
  ∃ st' fl',
    mm_free st p = Some st'
    ∧ rep st' (coalesced l1 s l2) fl' ∧ linked a (coalesced l1 s l2) fl' []
    ∧ same_region st st'
    ∧ keeps (λ w, free_space st bl w ∨ p - 8 <= w < p - 8 + s) st st'
    ∧ (∀ z sz, blk_at a bl z sz true → z ≠ p →
               blk_at a (coalesced l1 s l2) z sz true).
Proof.
  assert (Hp : blk_at a bl p s true) by (apply blk_at_app; right; by left).
  pose proof (rep_blk_bounds st bl fl Hrep p s true Hp) as (Hb1 & Hb2 & Hs1 & Hs2).
  pose proof (rep_GET_SIZE st bl fl Hrep p s true Hp) as Hsize.
  unfold mm_free. rewrite Hsize, PACK_0.
  set (st1 := PUT st (HDRP p) s).
  assert (Hsize1 : GET_SIZE st1 (HDRP p) = s).
  { apply (GET_SIZE_tag _ _ _ false); [|done]. unfold st1, tag. rewrite GET_PUT_eq. lia. }
  replace (FTRP st1 p) with (p + s - 16) by (unfold FTRP, DSIZE, WSIZE; rewrite Hsize1; lia).
  set (st2 := PUT st1 (p + s - 16) s).
  assert (Hr2 : same_region st st2).
  { unfold st2, st1. repeat apply same_region_PUT_r. apply same_region_refl. }
  pose proof Hr2 as (EH & Eb & Em).
  assert (Hrep2 : rep st2 bl1 fl).
  { apply (rep_retag st fl [] l1 [(s, true)] [(s, false)] l2 Hrep Hlinked).
    - done.
    - intros x sx Hx. simpl in Hx. destruct Hx as [(_ & _ & [=])|[]].
    - exact Hr2.
    - intros w Hw. simpl in Hw. unfold st2, st1. words.
      unfold p, a in *. rewrite !GET_PUT_ne by lia. done.
    - simpl. unfold st2, st1, tag. words.
      split; [done|]. split; [done|]. unfold p, a. split; [|split; [|done]]; get_put; lia. }
  assert (Hlinked2 : linked (heap_ptr st2 + WSIZE) bl1 fl [p]).
  { rewrite EH.
    apply (linked_retag st fl [] l1 [(s, true)] [(s, false)] l2 Hrep Hlinked).
    - done.
    - intros x sx Hx. simpl in Hx. destruct Hx as [(_ & _ & [=])|[]].
    - intros x sx Hx. simpl in Hx. destruct Hx as [(-> & _)|[]]. by left.
    - intros x Hx. by apply elem_of_nil in Hx.
    - intros x Hx. apply elem_of_one in Hx as ->. right. simpl. unfold p, a. lia. }
  assert (Hp2 : blk_at (heap_ptr st2 + WSIZE) bl1 p s false).
  { rewrite EH. apply blk_at_app. right. by left. }
  destruct (add_free_rep st2 bl1 fl [p] Hrep2 Hlinked2 p s s [] Hp2)
    as (st3 & fl3 & Hadd & Hrep3 & Hlinked3 & Hr3 & Hk3); [by left| | |].
  { intros z Hz. left. by apply elem_of_one in Hz. }
  { intros z Hz. by apply elem_of_nil in Hz. }
  pose proof Hr3 as (EH3 & _).
  rewrite <- EH3 in Hlinked3, Hp2.
  destruct (coalesce_layout st3 fl3 l1 l2 s Hrep3 Hlinked3)
    as (st4 & fl4 & Hco & Hrep4 & Hlinked4 & Hstep4).
  rewrite EH3, EH in Hlinked4, Hco. fold a in Hlinked4, Hco. fold p in Hco.
  set (bl4 := coalesced l1 s l2) in *.
  exists st4, fl4. rewrite Hadd. simpl. rewrite Hco. simpl.
  split; [done|]. split; [exact Hrep4|]. split; [exact Hlinked4|].
  assert (Hstep : step_ok st2 bl1 st4 bl4).
  { eapply step_ok_trans; [apply (step_ok_same_layout st2 st3 bl1 Hr3 Hk3)|exact Hstep4]. }
  destruct Hstep as (E1 & E2 & E3 & Hk & _ & Halloc).
  split; [|split].
  - eapply same_region_trans; [exact Hr2|].
    eapply same_region_trans; [exact Hr3|]. eapply coalesce_region; exact Hco.
  - intros w Hw. rewrite Hk.
    + assert (w ≠ p - 8 ∧ w ≠ p + s - 16) as [N1 N2]
        by (split; intros ->; apply Hw; right; lia).
      unfold st2, st1. words. get_put. done.
    + intros HF. apply Hw.
      apply (free_space_region st st2 bl1 w Hr2) in HF.
      destruct HF as [?|[?|HF]]; [left; by left|left; right; by left|].
      fold a in HF. unfold bl1 in HF.
      apply in_free_app in HF as [HF|HF].
      { left. right. right. fold a. apply in_free_app. by left. }
      apply in_free_app in HF as [HF|HF].
      { right. destruct HF as (z & sz & Hz & Hzw). simpl in Hz.
        destruct Hz as [(-> & -> & _)|[]]. unfold p. lia. }
      left. right. right. fold a. apply in_free_app. right. apply in_free_app. by right.
  - intros z sz Hz Hzp. rewrite EH in Halloc. fold a in Halloc. apply Halloc.
    apply blk_at_app in Hz as [Hz|Hz]; apply blk_at_app; [by left|right].
    apply blk_at_app in Hz as [Hz|Hz]; apply blk_at_app; [|by right].
    simpl in Hz. destruct Hz as [(-> & _)|[]]. by unfold p in Hzp.
Qed.

Lemma mm_free_rep_at :
  ∃ st' bl' fl',
    mm_free st p = Some st'
    ∧ rep st' bl' fl' ∧ linked a bl' fl' []
    ∧ same_region st st'
    ∧ keeps (λ w, free_space st bl w ∨ p - 8 <= w < p - 8 + s) st st'
    ∧ (∀ z sz, blk_at a bl z sz true → z ≠ p → blk_at a bl' z sz true).
Proof.
  destruct mm_free_layout_at as (st' & fl' & H).
  by exists st', (coalesced l1 s l2), fl'.
Qed.
End Free.

(** [mm_free] on an allocated block of a well-formed heap. *)
Lemma mm_free_rep st bl fl p s :
  rep st bl fl → linked (heap_ptr st + WSIZE) bl fl [] →
  blk_at (heap_ptr st + WSIZE) bl p s true →
  ∃ st' bl' fl',
    mm_free st p = Some st'
    ∧ rep st' bl' fl' ∧ linked (heap_ptr st + WSIZE) bl' fl' []
    ∧ same_region st st'
    ∧ keeps (λ w, free_space st bl w ∨ p - 8 <= w < p - 8 + s) st st'
    ∧ (∀ z sz, blk_at (heap_ptr st + WSIZE) bl z sz true → z ≠ p →
               blk_at (heap_ptr st + WSIZE) bl' z sz true).
Proof.
  intros Hrep Hlinked Hp.
  apply blk_at_split in Hp as (l1 & l2 & -> & ->).
  apply (mm_free_rep_at st fl l1 l2 s Hrep Hlinked).
Qed.

(** ** [place] *)

Section Place.
Context (st : heap) (fl : Z → list Z) (l1 l2 : layout) (s need : Z).
Let a := heap_ptr st + WSIZE.
Let b := a + total l1 + 8.
Let bl := l1 ++ [(s, false)] ++ l2.
Hypothesis Hrep : rep st bl fl.
Hypothesis Hlinked : linked a bl fl [].
Hypothesis Hneed : 32 <= need <= s ∧ need mod 8 = 0.

Lemma place_layout_at :
  ∃ st' fl',
    place st b need = Some (st', b)
    ∧ rep st' (placed l1 s need l2) fl' ∧ linked a (placed l1 s need l2) fl' []
    ∧ step_ok st bl st' (placed l1 s need l2).
Proof.
  destruct Hneed as ([Hn1 Hn2] & Hn3).
  assert (Hb : blk_at a bl b s false) by (apply blk_at_app; right; by left).
  pose proof (rep_blk_bounds st bl fl Hrep b s false Hb) as (Hb1 & Hb2 & Hs1 & Hs2).
  pose proof (rep_GET_SIZE st bl fl Hrep b s false Hb) as Hsize.
  pose proof Hrep as ((HH & _ & Hbrk & Hmax & _) & _).
  pose proof Hlinked as (_ & Hcomp & _).
  destruct (Hcomp b s Hb) as [HbU|Hbin]; [by apply elem_of_nil in HbU|].
  destruct (pop_free_rep st bl fl [] Hrep Hlinked b s Hb Hbin)
    as (fl1 & Hrep1 & Hlinked1 & Hk1).
  pose proof (pop_free_region st b) as Hr1. pose proof Hr1 as (EH1 & Eb1 & Em1).
  set (st1 := pop_free st b) in *.
  assert (Ha1 : heap_ptr st1 + WSIZE = a) by (unfold a; by rewrite EH1).
  assert (Hlinked1' : linked (heap_ptr st1 + WSIZE) bl fl1 [b])
    by (rewrite Ha1; exact Hlinked1).
  assert (Hstep1 : step_ok st bl st1 bl)
    by (apply (step_ok_same_layout st st1 bl Hr1 Hk1)).
  unfold place, placed. rewrite Hsize. fold st1.
  assert (HmidU : ∀ x sx, blk_at (heap_ptr st1 + WSIZE + total l1) [(s, false)] x sx false
                          → x ∈ [b]).
  { rewrite Ha1. intros x sx Hx. simpl in Hx. destruct Hx as [(-> & _)|[]]. by left. }
  assert (HU : ∀ x, x ∈ [b] → x ∈ (@nil Z) ∨
                    heap_ptr st1 + WSIZE + total l1 <= x - 8
                    < heap_ptr st1 + WSIZE + total l1 + total [(s, false)]).
  { rewrite Ha1. intros x Hx. apply elem_of_one in Hx as ->. right. simpl. unfold b. lia. }
  destruct (Z.leb_spec (4 * WSIZE) (s - need)) as [Hsplit|Hwhole].
  - (* the block is split *)
    unfold WSIZE in Hsplit.
    rewrite (PACK_1 need Hn3).
    set (st2 := PUT st1 (HDRP b) (need + 1)).
    assert (Hsize2 : GET_SIZE st2 (HDRP b) = need)
      by (unfold st2; apply GET_SIZE_PUT_eq; [done|lia]).
    replace (FTRP st2 b) with (b + need - 16)
      by (unfold FTRP, DSIZE, WSIZE; rewrite Hsize2; lia).
    set (st3 := PUT st2 (b + need - 16) (need + 1)).
    assert (Hsize3 : GET_SIZE st3 (HDRP b) = need).
    { unfold st3. rewrite GET_SIZE_PUT_ne by (unfold HDRP, WSIZE; lia). done. }
    replace (NEXT_BLKP st3 b) with (b + need)
      by (unfold NEXT_BLKP; unfold HDRP in Hsize3; rewrite Hsize3; lia).
    rewrite PACK_0.
    set (st4 := PUT st3 (HDRP (b + need)) (s - need)).
    assert (Hsize4 : GET_SIZE st4 (HDRP (b + need)) = s - need).
    { apply (GET_SIZE_tag _ _ _ false); [|zdiv].
      unfold st4, tag. rewrite GET_PUT_eq. lia. }
    replace (FTRP st4 (b + need)) with (b + s - 16)
      by (unfold FTRP, DSIZE, WSIZE; rewrite Hsize4; lia).
    set (st5 := PUT st4 (b + s - 16) (s - need)).
    assert (Hr5 : same_region st1 st5).
    { unfold st5, st4, st3, st2. repeat apply same_region_PUT_r. apply same_region_refl. }
    pose proof Hr5 as (EH5 & _).
    assert (Ha5 : heap_ptr st5 + WSIZE = a) by (rewrite EH5; exact Ha1).
    set (mid' := [(need, true); (s - need, false)]).
    assert (Hrep5 : rep st5 (l1 ++ mid' ++ l2) fl1).
    { apply (rep_retag st1 fl1 [b] l1 [(s, false)] mid' l2 Hrep1 Hlinked1').
      - simpl. lia.
      - exact HmidU.
      - exact Hr5.
      - rewrite Ha1. intros w Hw. simpl in Hw. unfold st5, st4, st3, st2. words.
        unfold b in *. rewrite !GET_PUT_ne by lia. done.
      - rewrite Ha1. simpl. unfold st5, st4, st3, st2, tag. words. unfold b.
        split; [lia|]. split; [done|]. split; [get_put; lia|]. split; [get_put; lia|].
        split; [lia|]. split; [zdiv|]. split; [get_put; lia|]. split; [get_put; lia|done]. }
    assert (Hlinked5 : linked (heap_ptr st5 + WSIZE) (l1 ++ mid' ++ l2) fl1 [b + need]).
    { rewrite Ha5. rewrite <- Ha1.
      apply (linked_retag st1 fl1 [b] l1 [(s, false)] mid' l2 Hrep1 Hlinked1').
      - simpl. lia.
      - exact HmidU.
      - rewrite Ha1. intros x sx Hx. simpl in Hx.
        destruct Hx as [(_ & _ & [=])|[(-> & _)|[]]].
        apply elem_of_one. unfold b. lia.
      - intros x Hx. destruct (HU x Hx) as [Hn|?]; [by apply elem_of_nil in Hn|by right].
      - rewrite Ha1. intros x Hx. apply elem_of_one in Hx as ->. right. simpl.
        unfold b. lia. }
    assert (Hrest : blk_at (heap_ptr st5 + WSIZE) (l1 ++ mid' ++ l2) (b + need)
                      (s - need) false).
    { rewrite Ha5. apply blk_at_app. right. simpl. right. left. unfold b.
      split; [lia|done]. }
    destruct (add_free_rep st5 (l1 ++ mid' ++ l2) fl1 [b + need] Hrep5 Hlinked5
                (b + need) (s - need) (s - need) [] Hrest)
      as (st6 & fl6 & Hadd & Hrep6 & Hlinked6 & Hr6 & Hk6); [by left| | |].
    { intros z Hz. left. by apply elem_of_one in Hz. }
    { intros z Hz. by apply elem_of_nil in Hz. }
    rewrite Ha5 in Hlinked6.
    exists st6, fl6.
    rewrite Hadd. simpl.
    split; [done|]. split; [exact Hrep6|]. split; [exact Hlinked6|].
    change (step_ok st bl st6 (l1 ++ mid' ++ l2)).
    eapply step_ok_trans; [exact Hstep1|].
      eapply step_ok_trans; [|apply (step_ok_same_layout st5 st6 _ Hr6 Hk6)].
      apply (retag_step st1 l1 [(s, false)] mid' l2 ltac:(simpl; lia) st5 Hr5).
      * rewrite Ha1. intros w Hw. exists b, s. split; [by left|].
        destruct (Z.eq_dec w (b - 8)) as [->|N1]; [lia|].
        destruct (Z.eq_dec w (b + need - 16)) as [->|N2]; [lia|].
        destruct (Z.eq_dec w (b + need - 8)) as [->|N3]; [lia|].
        destruct (Z.eq_dec w (b + s - 16)) as [->|N4]; [lia|].
        exfalso. apply Hw. unfold st5, st4, st3, st2. words. get_put. done.
      * rewrite Ha1. intros w (z & sz & Hz & Hw). simpl in Hz.
        destruct Hz as [(_ & _ & [=])|[(-> & -> & _)|[]]].
        exists b, s. split; [by left|]. unfold b in *. lia.
      * intros z sz Hz. simpl in Hz. destruct Hz as [(_ & _ & [=])|[]].
  - (* the whole block is taken *)
    unfold WSIZE in Hwhole.
    rewrite (PACK_1 s Hs2).
    set (st2 := PUT st1 (HDRP b) (s + 1)).
    assert (Hsize2 : GET_SIZE st2 (HDRP b) = s)
      by (unfold st2; apply GET_SIZE_PUT_eq; [done|lia]).
    replace (FTRP st2 b) with (b + s - 16)
      by (unfold FTRP, DSIZE, WSIZE; rewrite Hsize2; lia).
    set (st3 := PUT st2 (b + s - 16) (s + 1)).
    assert (Hr3 : same_region st1 st3).
    { unfold st3, st2. repeat apply same_region_PUT_r. apply same_region_refl. }
    pose proof Hr3 as (EH3 & _).
    assert (Ha3 : heap_ptr st3 + WSIZE = a) by (rewrite EH3; exact Ha1).
    assert (Hrep3 : rep st3 (l1 ++ [(s, true)] ++ l2) fl1).
    { apply (rep_retag st1 fl1 [b] l1 [(s, false)] [(s, true)] l2 Hrep1 Hlinked1').
      - done.
      - exact HmidU.
      - exact Hr3.
      - rewrite Ha1. intros w Hw. simpl in Hw. unfold st3, st2. words.
        unfold b in *. rewrite !GET_PUT_ne by lia. done.
      - rewrite Ha1. simpl. unfold st3, st2, tag. words. unfold b.
        split; [lia|]. split; [done|]. split; [get_put; lia|]. split; [get_put; lia|done]. }
    assert (Hlinked3 : linked a (l1 ++ [(s, true)] ++ l2) fl1 []).
    { rewrite <- Ha1.
      apply (linked_retag st1 fl1 [b] l1 [(s, false)] [(s, true)] l2 Hrep1 Hlinked1').
      - done.
      - exact HmidU.
      - intros x sx Hx. simpl in Hx. destruct Hx as [(_ & _ & [=])|[]].
      - exact HU.
      - intros x Hx. by apply elem_of_nil in Hx. }
    exists st3, fl1.
    split; [done|]. split; [exact Hrep3|]. split; [exact Hlinked3|].
    change (step_ok st bl st3 (l1 ++ [(s, true)] ++ l2)).
    eapply step_ok_trans; [exact Hstep1|].
      apply (retag_step st1 l1 [(s, false)] [(s, true)] l2 ltac:(done) st3 Hr3).
      * rewrite Ha1. intros w Hw. exists b, s. split; [by left|].
        destruct (Z.eq_dec w (b - 8)) as [->|N1]; [lia|].
        destruct (Z.eq_dec w (b + s - 16)) as [->|N4]; [lia|].
        exfalso. apply Hw. unfold st3, st2. words. get_put. done.
      * intros w (z & sz & Hz & Hw). simpl in Hz.
        destruct Hz as [(_ & _ & [=])|[]].
      * intros z sz Hz. simpl in Hz. destruct Hz as [(_ & _ & [=])|[]].
Qed.

Lemma place_rep_at :
  ∃ st' bl' fl' sq,
    place st b need = Some (st', b)
    ∧ rep st' bl' fl' ∧ linked a bl' fl' []
    ∧ step_ok st bl st' bl'
    ∧ blk_at a bl' b sq true ∧ need <= sq <= s.
Proof.
  destruct place_layout_at as (st' & fl' & Hpl & Hrep' & Hlinked' & Hstep).
  exists st', (placed l1 s need l2), fl', (if 4 * WSIZE <=? s - need then need else s).
  split; [done|]. split; [done|]. split; [done|]. split; [done|].
  unfold placed. destruct (Z.leb_spec (4 * WSIZE) (s - need)).
  - split; [apply blk_at_middle|lia].
  - split; [apply blk_at_middle|lia].
Qed.
End Place.

(** [place] on a listed free block of a well-formed heap. *)
Lemma place_rep st bl fl b s need :
  rep st bl fl → linked (heap_ptr st + WSIZE) bl fl [] →
  blk_at (heap_ptr st + WSIZE) bl b s false →
  32 <= need <= s → need mod 8 = 0 →
  ∃ st' bl' fl' sq,
    place st b need = Some (st', b)
    ∧ rep st' bl' fl' ∧ linked (heap_ptr st + WSIZE) bl' fl' []
    ∧ step_ok st bl st' bl'
    ∧ blk_at (heap_ptr st + WSIZE) bl' b sq true ∧ need <= sq <= s.
Proof.
  intros Hrep Hlinked Hb Hn Hm.
  apply blk_at_split in Hb as (l1 & l2 & -> & ->).
  apply (place_rep_at st fl l1 l2 s need Hrep Hlinked). done.
Qed.

(** ** [extend_heap] *)

Lemma GET_mkHeap m h b x w : GET (mkHeap m h b x) w = default 0 (m !! w).
Proof. reflexivity. Qed.

Section Extend.
Context (st : heap) (bl : layout) (fl : Z → list Z) (size : Z).
Let a := heap_ptr st + WSIZE.
Let sz := ALIGN size.
Let bp := mem_brk st.
Hypothesis Hrep : rep st bl fl.
Hypothesis Hlinked : linked a bl fl [].
Hypothesis Hsz : 32 <= sz ∧ sz mod 8 = 0.
Hypothesis Hroom : mem_brk st + sz <= mem_max_addr st.

(** The region after [mem_sbrk] and the three tags of the new block. *)
Let st3 : heap :=
  PUT (PUT (PUT (mkHeap (mem st) (heap_ptr st) (mem_brk st + sz) (mem_max_addr st))
                (bp - 8) sz) (bp + sz - 16) sz) (bp + sz - 8) 1.

Lemma extend_format :
  rep st3 (bl ++ [(sz, false)]) fl
  ∧ linked a (bl ++ [(sz, false)]) fl [bp]
  ∧ step_ok st bl st3 (bl ++ [(sz, false)])
  ∧ blk_at a (bl ++ [(sz, false)]) bp sz false.
Proof.
  destruct Hsz as [Hs1 Hs2].
  pose proof Hrep as ((H1 & H2 & H3 & H4 & H5 & H6) & Ht & Htot & Hepi & Hlists).
  pose proof (total_nonneg bl (rep_sized st bl fl Hrep)) as Htn.
  assert (Hlow : ∀ w, w < bp - 8 → GET st3 w = GET st w).
  { intros w Hw. unfold st3. rewrite !GET_PUT_ne by lia. reflexivity. }
  assert (Hbp : bp = a + total bl + 8) by (unfold bp, a, WSIZE in *; lia).
  assert (Hblk : blk_at a (bl ++ [(sz, false)]) bp sz false).
  { rewrite Hbp. apply blk_at_middle. }
  split; [|split; [|split; [|exact Hblk]]].
  - unfold rep, region_ok. unfold WSIZE in *.
    change (heap_ptr st3) with (heap_ptr st).
    change (mem_brk st3) with (mem_brk st + sz).
    change (mem_max_addr st3) with (mem_max_addr st).
    split; [|split; [|split; [|split]]].
    + rewrite !Hlow by (unfold bp; lia). repeat split; try done; lia.
    + apply tiled_seg_app. split.
      * eapply tiled_seg_frame_range; [exact Ht|].
        intros w Hw. apply Hlow. unfold bp, a, WSIZE in *. lia.
      * simpl. unfold st3, tag. fold a.
        replace (a + total bl) with (bp - 8) by lia.
        split; [done|]. split; [done|]. split; [get_put; lia|].
        split; [get_put; lia|done].
    + rewrite total_app. simpl. lia.
    + unfold st3. fold bp. get_put. reflexivity.
    + intros i Hi. change (freelists st3 i) with (freelists st i).
      destruct (freelists_range st i Hi) as [Hsl _].
      rewrite Hlow by (unfold bp; lia).
      eapply dllseg_frame; [|by apply Hlists].
      intros x Hx.
      destruct (listed_blk st bl fl [] Hlinked i x Hx) as (_ & sx & Hbx & _).
      pose proof (rep_blk_bounds st bl fl Hrep x sx false Hbx).
      split; apply Hlow; unfold bp; lia.
  - pose proof Hlinked as (Hl1 & Hl2 & Hl3 & Hl4).
    split; [|split; [|split]].
    + intros i x Hx. destruct (Hl1 i x Hx) as (Hi & sx & Hbx & Hc).
      split; [done|]. exists sx. split; [|done]. apply blk_at_app. by left.
    + intros x sx Hx. apply blk_at_app in Hx as [Hx|Hx].
      * destruct (Hl2 x sx Hx) as [Hn|?]; [by apply elem_of_nil in Hn|by right].
      * simpl in Hx. destruct Hx as [(-> & _)|[]]. left. rewrite Hbp. by left.
    + done.
    + intros x i Hx Hxi. apply elem_of_one in Hx as ->.
      destruct (Hl1 i bp Hxi) as (_ & sx & Hbx & _).
      pose proof (rep_blk_bounds st bl fl Hrep bp sx false Hbx). unfold bp in *. lia.
  - unfold step_ok.
    change (heap_ptr st3) with (heap_ptr st).
    change (mem_brk st3) with (mem_brk st + sz).
    change (mem_max_addr st3) with (mem_max_addr st).
    split; [done|]. split; [done|]. split; [lia|]. split; [|split].
    + intros w Hw. apply Hlow.
      destruct (Z.lt_ge_cases w (bp - 8)); [done|].
      exfalso. apply Hw. right. left. unfold bp in *. lia.
    + intros w Hf. unfold free_space in Hf.
      change (heap_ptr st3) with (heap_ptr st) in Hf.
      change (mem_brk st3) with (mem_brk st + sz) in Hf.
      destruct Hf as [?|[?|Hf]]; [by left|right; left; lia|].
      fold a in Hf. apply in_free_app in Hf as [Hf|Hf].
      * right. right. done.
      * right. left. destruct Hf as (x & sx & Hx & Hw). simpl in Hx.
        destruct Hx as [(-> & -> & _)|[]]. unfold bp, a, WSIZE in *. lia.
    + intros z sz0 Hz. apply blk_at_app. by left.
Qed.

Lemma extend_heap_unfold :
  extend_heap st size = (st4 ← add_free st3 bp sz; coalesce st4 bp).
Proof.
  destruct Hsz as [Hs1 Hs2].
  pose proof Hrep as ((H1 & H2 & H3 & H4 & H5 & H6) & _).
  unfold extend_heap, mem_sbrk. fold sz.
  replace (sz <? 0) with false by (symmetry; lia).
  replace (mem_max_addr st <? mem_brk st + sz) with false by (symmetry; lia).
  simpl. fold bp.
  replace (bp =? MINUS1) with false by (symmetry; unfold MINUS1, bp; lia).
  rewrite PACK_0.
  set (st0 := mkHeap (mem st) (heap_ptr st) (bp + sz) (mem_max_addr st)).
  set (st1 := PUT st0 (HDRP bp) sz).
  assert (Hsize1 : GET_SIZE st1 (HDRP bp) = sz).
  { apply (GET_SIZE_tag _ _ _ false); [|done]. unfold st1, tag. rewrite GET_PUT_eq. lia. }
  replace (FTRP st1 bp) with (bp + sz - 16)
    by (unfold FTRP, DSIZE, WSIZE; rewrite Hsize1; lia).
  set (st2 := PUT st1 (bp + sz - 16) sz).
  assert (Hsize2 : GET_SIZE st2 (HDRP bp) = sz).
  { unfold st2. rewrite GET_SIZE_PUT_ne by (unfold HDRP, WSIZE; lia). done. }
  replace (HDRP (NEXT_BLKP st2 bp)) with (bp + sz - 8)
    by (unfold NEXT_BLKP; unfold HDRP in *; rewrite Hsize2; unfold WSIZE; lia).
  reflexivity.
Qed.

(** [extend_heap] when the region can grow, with the layout it leaves: the
    new block at the end, merged with a free last block. *)
Lemma extend_heap_layout :
  ∃ st' fl',
    extend_heap st size = Some (st', a + total (fst (join_prev bl sz)) + 8)
    ∧ rep st' (coalesced bl sz []) fl' ∧ linked a (coalesced bl sz []) fl' []
    ∧ step_ok st bl st' (coalesced bl sz [])
    ∧ mem_brk st' = mem_brk st + sz.
Proof.
  destruct extend_format as (Hrep3 & Hlinked3 & Hstep3 & Hblk3).
  pose proof Hrep as ((H1 & _) & _ & Htot & _).
  assert (Hbp : bp = a + total bl + 8) by (unfold bp, a, WSIZE in *; lia).
  assert (Ha3 : heap_ptr st3 + WSIZE = a) by reflexivity.
  destruct (add_free_rep st3 _ fl [bp] Hrep3 Hlinked3 bp sz sz [] Hblk3)
    as (st4 & fl4 & Hadd & Hrep4 & Hlinked4 & Hr4 & Hk4); [by left| | |].
  { intros z Hz. left. by apply elem_of_one in Hz. }
  { intros z Hz. by apply elem_of_nil in Hz. }
  pose proof Hr4 as (EH4 & Eb4 & _).
  assert (Ha4 : heap_ptr st4 + WSIZE = a) by (rewrite EH4; exact Ha3).
  rewrite Ha3 in Hlinked4. rewrite <- Ha4 in Hlinked4.
  assert (Hrep4' : rep st4 (bl ++ (sz, false) :: []) fl4) by exact Hrep4.
  destruct (coalesce_layout st4 fl4 bl [] sz Hrep4' Hlinked4)
    as (st5 & fl5 & Hco & Hrep5 & Hlinked5 & Hstep5).
  rewrite Ha4 in Hco, Hlinked5. simpl in Hco.
  replace (a + total bl + 8) with bp in Hco by lia.
  exists st5, fl5.
  split; [by rewrite extend_heap_unfold, Hadd|].
  split; [exact Hrep5|]. split; [exact Hlinked5|]. split.
  - eapply step_ok_trans; [exact Hstep3|].
    eapply step_ok_trans; [apply (step_ok_same_layout st3 st4 _ Hr4 Hk4)|].
    exact Hstep5.
  - destruct (coalesce_region st4 bp st5 _ Hco) as (_ & -> & _).
    rewrite Eb4. reflexivity.
Qed.

(** [extend_heap] when the region can grow. *)
Lemma extend_heap_rep :
  ∃ st' r bl' fl' s',
    extend_heap st size = Some (st', r) ∧ r ≠ NULL
    ∧ rep st' bl' fl' ∧ linked a bl' fl' []
    ∧ step_ok st bl st' bl'
    ∧ blk_at a bl' r s' false ∧ sz <= s'
    ∧ mem_brk st' = mem_brk st + sz
    ∧ (∀ z sz0, blk_at a bl z sz0 false →
                ∃ sz1, blk_at a bl' z sz1 false ∧ sz0 <= sz1)
    ∧ r <= mem_brk st ∧ r + s' = mem_brk st + sz.
Proof.
  destruct extend_format as (Hrep3 & Hlinked3 & Hstep3 & Hblk3).
  pose proof Hrep as ((H1 & _) & _ & Htot & _).
  assert (Hbp : bp = a + total bl + 8) by (unfold bp, a, WSIZE in *; lia).
  assert (Ha3 : heap_ptr st3 + WSIZE = a) by reflexivity.
  destruct (add_free_rep st3 _ fl [bp] Hrep3 Hlinked3 bp sz sz [] Hblk3)
    as (st4 & fl4 & Hadd & Hrep4 & Hlinked4 & Hr4 & Hk4); [by left| | |].
  { intros z Hz. left. by apply elem_of_one in Hz. }
  { intros z Hz. by apply elem_of_nil in Hz. }
  pose proof Hr4 as (EH4 & Eb4 & _).
  assert (Ha4 : heap_ptr st4 + WSIZE = a) by (rewrite EH4; exact Ha3).
  rewrite Ha3 in Hlinked4. rewrite <- Ha4 in Hlinked4.
  assert (Hrep4' : rep st4 (bl ++ (sz, false) :: []) fl4) by exact Hrep4.
  destruct (merge_next_rep st4 fl4 bl [] sz Hrep4' Hlinked4)
    as (st5 & fl5 & sc & l2c & Hmn & Hrep5 & Hlinked5 & Hstep5 & _ & Hsame).
  destruct (Hsame eq_refl) as (-> & -> & ->).
  destruct (merge_prev_rep st4 fl5 bl [] sz Hrep5 Hlinked5)
    as (st6 & r & bl6 & fl6 & s6 & Hmp & Hrep6 & Hlinked6 & Hstep6 & Hr6 & Hs6
        & Hpersist & Hrle & Hrend).
  rewrite Ha4 in *.
  replace (a + total bl + 8) with bp in * by lia.
  exists st6, r, bl6, fl6, s6.
  split.
  { rewrite extend_heap_unfold, Hadd. simpl. unfold coalesce. rewrite Hmn. simpl.
    exact Hmp. }
  pose proof (rep_blk_bounds st6 bl6 fl6 Hrep6 r s6 false) as Hrb.
  pose proof Hstep6 as (E61 & E62 & E63 & Hk6 & Hf6 & Hal6).
  assert (Hstep : step_ok st bl st6 bl6).
  { eapply step_ok_trans; [exact Hstep3|].
    eapply step_ok_trans; [apply (step_ok_same_layout st3 st4 _ Hr4 Hk4)|].
    exact Hstep6. }
  split.
  { rewrite E61, Ha4 in Hrb. specialize (Hrb Hr6). unfold NULL. lia. }
  split; [exact Hrep6|]. split; [exact Hlinked6|]. split; [exact Hstep|].
  split; [exact Hr6|]. split; [lia|]. split.
  { destruct (merge_prev_region st4 bp st6 r Hmp) as (_ & -> & _).
    rewrite Eb4. reflexivity. }
  split; [|unfold bp in *; lia].
  intros z sz0 Hz. apply (Hpersist z sz0).
  - apply blk_at_app. by left.
  - pose proof (rep_blk_bounds st bl fl Hrep z sz0 false Hz). unfold bp. lia.
Qed.
End Extend.

(** ** [mm_malloc] *)

Lemma align_size_small n :
  0 <= n < 2 ^ 62 → n + 16 <= align_size n <= n + 32.
Proof.
  intros Hn. unfold align_size, MAX, ALIGN, wrap64, ALIGNMENT, DSIZE, WSIZE.
  destruct (Z.gtb_spec (4 * 8) ((((n + 2 * 8) mod 2 ^ 64 + (8 - 1)) mod 2 ^ 64 / 8 * 8) mod 2 ^ 64));
    zdiv.
Qed.

Lemma MAX_max x y : MAX x y = Z.max x y.
Proof. unfold MAX. destruct (Z.gtb_spec x y); lia. Qed.

Lemma mm_malloc_rep st bl fl n :
  rep st bl fl → linked (heap_ptr st + WSIZE) bl fl [] → 0 < n < 2 ^ 61 →
  ∃ st' q, mm_malloc st n = Some (st', q)
           ∧ ((q = NULL ∧ st' = st
               ∧ mem_max_addr st < mem_brk st + Z.max (align_size n) 4112)
              ∨ (q ≠ NULL ∧ delivered st bl (align_size n) st' q)).
Proof.
  intros Hrep Hlinked Hn.
  destruct (align_size_props n) as (Hm & Hlo & _).
  pose proof (align_size_small n ltac:(lia)) as Hsmall.
  set (need := align_size n) in *.
  unfold mm_malloc. replace (n =? 0) with false by (symmetry; lia). fold need.
  destruct (Z.eqb_spec (scan st need (Z.to_nat LISTSIZE) 0) NULL) as [Hscan|Hscan].
  - (* nothing fits: the region grows *)
    pose proof Hrep as ((H1 & _ & H3 & H4 & _) & _).
    assert (Hsz : ALIGN (MAX need CHUNKSIZE) = Z.max need 4112).
    { rewrite MAX_max. change CHUNKSIZE with 4112.
      apply ALIGN_aligned; [zdiv|lia]. }
    destruct (Z.lt_ge_cases (mem_max_addr st) (mem_brk st + ALIGN (MAX need CHUNKSIZE)))
      as [Hfull|Hroom].
    + rewrite extend_heap_fails by exact Hfull. simpl.
      exists st, NULL. split; [done|]. left. rewrite <- Hsz. done.
    + destruct (extend_heap_rep st bl fl (MAX need CHUNKSIZE) Hrep Hlinked)
        as (st1 & r & bl1 & fl1 & s1 & Hext & Hr & Hrep1 & Hlinked1 & Hstep1 & Hblk1
            & Hs1 & _); [rewrite Hsz; split; [lia|zdiv]|lia|].
      pose proof Hstep1 as (EH1 & _ & _ & _ & Hfree1 & _).
      rewrite <- EH1 in Hlinked1, Hblk1.
      destruct (place_rep st1 bl1 fl1 r s1 need Hrep1 Hlinked1 Hblk1)
        as (st2 & bl2 & fl2 & sq & Hpl & Hrep2 & Hlinked2 & Hstep2 & Hblk2 & Hsq);
        [lia|done|].
      rewrite Hext. simpl.
      replace (r =? NULL) with false by (symmetry; unfold NULL in *; lia).
      exists st2, r. split; [exact Hpl|]. right. split; [done|].
      rewrite EH1 in *.
      exists bl2, fl2, sq.
      split; [exact Hrep2|]. split; [exact Hlinked2|].
      split; [eapply step_ok_trans; eassumption|]. split; [exact Hblk2|].
      split; [lia|].
      intros w Hw. apply Hfree1. right. right. rewrite EH1.
      exists r, s1. split; [done|lia].
  - (* the head of a class fits *)
    destruct (scan_found st need _ 0 _ eq_refl Hscan) as (i & Hi & Hbp & Hgt & _).
    set (bp := scan st need (Z.to_nat LISTSIZE) 0) in *.
    pose proof Hrep as (_ & _ & _ & _ & Hlists).
    pose proof (Hlists i Hi) as Hdll. rewrite <- Hbp in Hdll.
    destruct (fl i) as [|b0 l] eqn:Hfl; [simpl in Hdll; done|].
    destruct Hdll as (Hb0 & _). subst b0.
    pose proof Hlinked as (Hl1 & _).
    destruct (Hl1 i bp) as (_ & s & Hblk & _); [rewrite Hfl; by left|].
    rewrite (rep_GET_SIZE st bl fl Hrep bp s false Hblk) in Hgt.
    destruct (place_rep st bl fl bp s need Hrep Hlinked Hblk)
      as (st2 & bl2 & fl2 & sq & Hpl & Hrep2 & Hlinked2 & Hstep2 & Hblk2 & Hsq);
      [lia|done|].
    exists st2, bp. split; [exact Hpl|]. right. split; [done|].
    exists bl2, fl2, sq.
    split; [exact Hrep2|]. split; [exact Hlinked2|]. split; [exact Hstep2|].
    split; [exact Hblk2|]. split; [lia|].
    intros w Hw. right. right. exists bp, s. split; [done|lia].
Qed.

(** ** Payloads *)

Lemma blk_at_aligned a bl b s al :
  sized bl → blk_at a bl b s al → (b - a) mod 8 = 0.
Proof.
  intros Hs. revert a. induction Hs as [|[s0 al0] r [H1 H2] Hr IH]; intros a; simpl.
  - tauto.
  - intros [(-> & -> & ->)|H].
    + zdiv.
    + apply IH in H. simpl in H2. zdiv.
Qed.

Lemma rep_blk_aligned st bl fl b s al :
  rep st bl fl → blk_at (heap_ptr st + WSIZE) bl b s al → b mod 8 = 0.
Proof.
  intros Hrep Hb. pose proof Hrep as ((_ & Hm & _) & _).
  apply blk_at_aligned in Hb; [|by eapply rep_sized].
  unfold WSIZE in *. zdiv.
Qed.

(** No word of an allocated block is free space. *)
Lemma alloc_not_free st bl fl x s w :
  rep st bl fl → blk_at (heap_ptr st + WSIZE) bl x s true →
  x - 8 <= w < x - 8 + s → ¬ free_space st bl w.
Proof.
  intros Hrep Hx Hw.
  pose proof (rep_blk_bounds st bl fl Hrep x s true Hx) as Hbx.
  intros [H|[H|(y & sy & Hy & Hwy)]]; [lia..|].
  destruct (blk_at_disjoint _ _ _ _ _ _ _ _ (rep_sized st bl fl Hrep) Hx Hy)
    as [(_ & _ & ?)|[?|?]]; [done|lia..].
Qed.

(** The representation does not read the payloads of allocated blocks. *)
Lemma rep_keep_payload st bl fl st' :
  rep st bl fl → linked (heap_ptr st + WSIZE) bl fl [] → same_region st st' →
  keeps (in_payload (heap_ptr st + WSIZE) bl) st st' →
  rep st' bl fl.
Proof.
  intros Hrep Hlinked (E1 & E2 & E3) Hk.
  pose proof Hrep as ((H1 & H2 & H3 & H4 & H5 & H6) & Ht & Htot & Hepi & Hlists).
  pose proof (rep_sized st bl fl Hrep) as Hs.
  assert (Hout : ∀ w, (∀ x sx, blk_at (heap_ptr st + WSIZE) bl x sx true →
                               ¬ x <= w <= x + sx - 24) → GET st' w = GET st w).
  { intros w Hw. apply Hk. intros (x & sx & Hx & Hin). by apply (Hw x sx). }
  assert (Hlow : ∀ w, w < heap_ptr st + 16 → GET st' w = GET st w).
  { intros w Hw. apply Hout. intros x sx Hx.
    pose proof (rep_blk_bounds st bl fl Hrep x sx true Hx). lia. }
  unfold rep, region_ok. rewrite E1, E2, E3.
  split; [|split; [|split; [|split]]].
  - rewrite !Hlow by (unfold WSIZE; lia). done.
  - eapply tiled_seg_frame_tags; [exact Ht|].
    intros b s al Hb.
    assert (Hn : ∀ w, w = b - 8 ∨ w = b + s - 16 → GET st' w = GET st w).
    { intros w Hw. apply Hout. intros x sx Hx Hin.
      destruct (interior_not_tag _ bl x sx true w b s al Hs Hx Hin Hb). lia. }
    split; apply Hn; lia.
  - done.
  - rewrite Hout; [done|]. intros x sx Hx.
    pose proof (rep_blk_bounds st bl fl Hrep x sx true Hx). unfold WSIZE. lia.
  - intros i Hi. specialize (Hlists i Hi).
    destruct (freelists_range st i Hi) as [Hr _].
    replace (freelists st' i) with (freelists st i) by (unfold freelists; by rewrite E1).
    rewrite Hlow by lia.
    eapply dllseg_frame; [|exact Hlists].
    intros y Hy.
    destruct (listed_blk st bl fl [] Hlinked i y Hy) as (_ & sy & Hby & _).
    pose proof (rep_blk_bounds st bl fl Hrep y sy false Hby).
    assert (Hn : ∀ w, w = y ∨ w = y + 8 → GET st' w = GET st w).
    { intros w Hw. apply Hout. intros x sx Hx Hin.
      destruct (blk_at_disjoint _ _ _ _ _ _ _ _ Hs Hx Hby) as [(_ & _ & ?)|[?|?]];
        [done|lia..]. }
    split; apply Hn; lia.
Qed.


(** [memcpy] between two stretches that do not overlap. *)
Lemma copy_words_spec n : ∀ st dst src,
  dst + 8 * Z.of_nat n <= src ∨ src + 8 * Z.of_nat n <= dst →
  same_region st (copy_words st n dst src)
  ∧ (∀ w, ¬ dst <= w < dst + 8 * Z.of_nat n →
          GET (copy_words st n dst src) w = GET st w)
  ∧ (∀ i, 0 <= i < Z.of_nat n →
          GET (copy_words st n dst src) (dst + 8 * i) = GET st (src + 8 * i)).
Proof.
  induction n as [|n IH]; intros st dst src Hd.
  - simpl. split; [apply same_region_refl|]. split; [done|]. lia.
  - cbn [copy_words]. unfold WSIZE.
    destruct (IH (PUT st dst (GET st src)) (dst + 8) (src + 8)) as (Hr & Ho & Hc); [lia|].
    split; [|split].
    + destruct Hr as (E1 & E2 & E3). done.
    + intros w Hw. rewrite Ho by lia. apply GET_PUT_ne. lia.
    + intros i Hi. destruct (Z.eq_dec i 0) as [->|Hne].
      * rewrite !Z.mul_0_r, !Z.add_0_r. rewrite Ho by lia. apply GET_PUT_eq.
      * replace (dst + 8 * i) with (dst + 8 + 8 * (i - 1)) by lia.
        rewrite Hc by lia. rewrite GET_PUT_ne by lia. f_equal. lia.
Qed.


(** ** [mm_realloc] keeps the payload *)







(** ** [mm_init] *)

Lemma mm_init_formatted st0 :
  0 <= mem_brk st0 → mem_brk st0 + 160 <= mem_max_addr st0 < 2 ^ 62 →
  mm_init st0
  = '(st, bp) ← extend_heap (formatted st0) INITSIZE;
    if bp =? NULL then Some (st, -1) else Some (st, 0).
Proof.
  intros H0 H1. unfold mm_init, mem_sbrk, formatted.
  change ((LISTSIZE + 4) * WSIZE) with 160.
  replace ((160 <? 0) || (mem_max_addr st0 <? mem_brk st0 + 160)) with false
    by (symmetry; apply orb_false_iff; lia).
  cbn [mem mem_brk mem_max_addr heap_ptr].
  replace (mem_brk st0 =? MINUS1) with false by (symmetry; unfold MINUS1; lia).
  reflexivity.
Qed.

Lemma lookup_insert_same (m : gmap Z Z) p q v : p = q → <[p:=v]> m !! q = Some v.
Proof. intros ->. apply lookup_insert_eq. Qed.

Ltac probe :=
  unfold formatted;
  (let l := eval vm_compute in (map Z.of_nat (seq 1 (Z.to_nat LISTSIZE))) in
   change (map Z.of_nat (seq 1 (Z.to_nat LISTSIZE))) with l);
  unfold GET, PUT, LISTSIZE, WSIZE;
  cbn [mem heap_ptr mem_brk mem_max_addr fold_left];
  repeat (rewrite lookup_insert_ne by lia); rewrite lookup_insert_same by lia; reflexivity.

Lemma formatted_rep st0 :
  0 <= mem_brk st0 → mem_brk st0 mod 8 = 0 →
  mem_brk st0 + 160 <= mem_max_addr st0 < 2 ^ 62 →
  rep (formatted st0) [] (λ _, [])
  ∧ linked (heap_ptr (formatted st0) + WSIZE) [] (λ _, []) []
  ∧ heap_ptr (formatted st0) = mem_brk st0 + 144
  ∧ mem_brk (formatted st0) = mem_brk st0 + 160
  ∧ mem_max_addr (formatted st0) = mem_max_addr st0.
Proof.
  intros H0 Hm H1.
  assert (E1 : heap_ptr (formatted st0) = mem_brk st0 + 144) by reflexivity.
  assert (E2 : mem_brk (formatted st0) = mem_brk st0 + 160) by reflexivity.
  assert (E3 : mem_max_addr (formatted st0) = mem_max_addr st0) by reflexivity.
  split; [|split; [|done]].
  - unfold rep, region_ok. rewrite E1, E2, E3. unfold WSIZE.
    split; [|split; [|split; [|split]]].
    + split; [lia|]. split; [zdiv|]. split; [lia|]. split; [lia|].
      split.
      * replace (mem_brk st0 + 144 - 8) with (mem_brk st0 + 136) by lia. probe.
      * probe.
    + exact I.
    + simpl. lia.
    + replace (mem_brk st0 + 160 - 8) with (mem_brk st0 + 152) by lia. probe.
    + intros i Hi. simpl. unfold freelists. rewrite E1.
      each_class i Hi; unfold NULL; probe.
  - split; [|split; [|split]].
    + intros i b Hb. by apply elem_of_nil in Hb.
    + intros b s [].
    + intros i. constructor.
    + intros b i Hb. by apply elem_of_nil in Hb.
Qed.

(** [mm_init] on a region with room for the directory and the first block
    gives a well-formed heap. *)
Lemma mm_init_wf st0 :
  0 <= mem_brk st0 → mem_brk st0 mod 8 = 0 →
  mem_brk st0 + 304 <= mem_max_addr st0 < 2 ^ 62 →
  ∃ st, mm_init st0 = Some (st, 0) ∧ wf st
        ∧ heap_ptr st = mem_brk st0 + 144 ∧ mem_brk st = mem_brk st0 + 304
        ∧ mem_max_addr st = mem_max_addr st0.
Proof.
  intros H0 Hm H1.
  destruct (formatted_rep st0) as (Hrep & Hlinked & E1 & E2 & E3); [lia..|].
  rewrite mm_init_formatted by lia.
  destruct (extend_heap_rep (formatted st0) [] (λ _, []) INITSIZE Hrep Hlinked)
    as (st & r & bl & fl & s & Hex & Hr & Hrep' & Hlinked' & Hstep & _ & _ & Hbrk & _).
  { change (ALIGN INITSIZE) with 144. split; [lia|done]. }
  { change (ALIGN INITSIZE) with 144. lia. }
  change (ALIGN INITSIZE) with 144 in Hbrk.
  destruct Hstep as (EH & EM & _).
  rewrite Hex. cbn [mbind option_bind].
  replace (r =? NULL) with false by (symmetry; unfold NULL in *; lia).
  exists st. split; [done|]. split; [|lia].
  exists bl, fl. rewrite EH. done.
Qed.

(** ** The public functions on well-formed heaps *)

(** [mm_malloc] returns, and what it returns is an allocated block of a
    well-formed heap. *)
Lemma mm_malloc_wf st n :
  wf st → 0 < n < 2 ^ 61 →
  ∃ st' q, mm_malloc st n = Some (st', q) ∧ wf st'
           ∧ (q ≠ NULL → ∃ sq, allocated st' q sq ∧ align_size n <= sq).
Proof.
  intros (bl & fl & Hrep & Hlinked) Hn.
  destruct (mm_malloc_rep st bl fl n Hrep Hlinked Hn)
    as (st' & q & Hmal & [(-> & -> & _)|(Hq & Hd)]).
  - exists st, NULL. split; [done|]. split; [by exists bl, fl|done].
  - destruct Hd as (bl' & fl' & sq & Hrep' & Hlinked' & (EH & _) & Hb & Hsq & _).
    rewrite <- EH in Hlinked', Hb.
    exists st', q. split; [done|]. split; [by exists bl', fl'|].
    intros _. exists sq. split; [by exists bl', fl'|done].
Qed.

(** The blocks allocated before are allocated after, with their payloads. *)
Lemma mm_malloc_keeps_allocated st n st' q z sz :
  allocated st z sz → 0 < n < 2 ^ 61 → mm_malloc st n = Some (st', q) →
  allocated st' z sz ∧ ∀ w, z <= w < z + sz - 16 → GET st' w = GET st w.
Proof.
  intros (bl & fl & Hrep & Hlinked & Hz) Hn Hmal.
  destruct (mm_malloc_rep st bl fl n Hrep Hlinked Hn)
    as (st1 & q1 & Hmal1 & Hcase).
  rewrite Hmal in Hmal1. injection Hmal1 as <- <-.
  destruct Hcase as [(-> & -> & _)|(Hq & Hd)].
  - split; [by exists bl, fl|done].
  - destruct Hd as (bl' & fl' & sq & Hrep' & Hlinked' & Hstep & _).
    destruct Hstep as (EH & _ & _ & Hkeep & _ & Halloc).
    split.
    + exists bl', fl'. rewrite EH. split; [done|]. split; [done|]. by apply Halloc.
    + intros w Hw. apply Hkeep.
      apply (alloc_not_free st bl fl z sz _ Hrep Hz). lia.
Qed.

(** [mm_free] returns on an allocated block, and the heap stays well-formed. *)
Lemma mm_free_wf st p s :
  allocated st p s → ∃ st', mm_free st p = Some st' ∧ wf st'.
Proof.
  intros (bl & fl & Hrep & Hlinked & Hp).
  destruct (mm_free_rep st bl fl p s Hrep Hlinked Hp)
    as (st' & bl' & fl' & Hfree & Hrep' & Hlinked' & (EH & _) & _).
  exists st'. split; [done|]. exists bl', fl'. by rewrite EH.
Qed.

(** A client that writes into its payload leaves the block allocated. *)
Lemma allocated_PUT st p s w v :
  allocated st p s → p <= w < p + s - 16 → w mod 8 = 0 →
  allocated (PUT st w v) p s.
Proof.
  intros (bl & fl & Hrep & Hlinked & Hp) Hw Hm.
  pose proof (rep_blk_bounds st bl fl Hrep p s true Hp) as (_ & _ & _ & Hs).
  pose proof (rep_blk_aligned st bl fl p s true Hrep Hp) as Hpm.
  exists bl, fl. split; [|done].
  apply (rep_keep_payload st bl fl _ Hrep Hlinked).
  - done.
  - intros x Hx. apply GET_PUT_ne. intros <-. apply Hx.
    exists p, s. split; [done|]. zdiv.
Qed.


(** ** An example heap *)

Lemma Some_pair_inj {A B : Type} (a c : A) (b d : B) :
  Some (a, b) = Some (c, d) → a = c ∧ b = d.
Proof. intros H. by injection H. Qed.

Lemma fresh_init : mm_init (mkHeap ∅ NULL 1024 65536) = Some (fresh, 0).
Proof. vm_compute. reflexivity. Qed.

Lemma one_plain_malloc : mm_malloc fresh 8 = Some (one_plain, 1184).
Proof. vm_compute. reflexivity. Qed.

Lemma two_plain_malloc : mm_malloc one_plain 8 = Some (two_plain, 1216).
Proof. vm_compute. reflexivity. Qed.

Lemma two_plain_size : GET_SIZE two_plain (HDRP 1184) = 32.
Proof. vm_compute. reflexivity. Qed.

Lemma fresh_wf : wf fresh.
Proof.
  destruct (mm_init_wf (mkHeap ∅ NULL 1024 65536)) as (st0 & Hinit & Hwf0 & _);
    [cbn; lia|reflexivity|cbn; lia|].
  rewrite fresh_init in Hinit. apply Some_pair_inj in Hinit as [E _].
  subst st0. exact Hwf0.
Qed.

Lemma one_plain_allocated : ∃ sq, allocated one_plain 1184 sq.
Proof.
  destruct (mm_malloc_wf fresh 8 fresh_wf) as (st1 & q1 & Hmal1 & _ & Hq1); [lia|].
  rewrite one_plain_malloc in Hmal1. apply Some_pair_inj in Hmal1 as [E1 E2].
  subst st1 q1.
  destruct Hq1 as (sq & Hal & _); [discriminate|]. exists sq. exact Hal.
Qed.

Lemma two_blocks_allocated : allocated two_blocks 1184 32.
Proof.
  destruct one_plain_allocated as (sq & Hal1).
  destruct (mm_malloc_keeps_allocated one_plain 8 two_plain 1216 1184 sq Hal1
              ltac:(lia) two_plain_malloc) as [Hal2 _].
  assert (sq = 32) as ->.
  { destruct Hal2 as (bl & fl & Hrep & _ & Hb).
    rewrite <- two_plain_size. symmetry.
    exact (rep_GET_SIZE two_plain bl fl Hrep 1184 sq true Hb). }
  unfold two_blocks.
  apply allocated_PUT; [apply allocated_PUT| |];
    [exact Hal2|lia|reflexivity|lia|reflexivity].
Qed.




(** ** The layout is read off the memory *)

Lemma tag_inj s al s' al' :
  s mod 8 = 0 → s' mod 8 = 0 → tag s al = tag s' al' → s = s' ∧ al = al'.
Proof.
  unfold tag. intros H1 H2 H. destruct al, al'; (split; [zdiv|]); try done; zdiv.
Qed.

Lemma tiled_seg_unique st a bl : ∀ bl',
  tiled_seg st a bl → tiled_seg st a bl' → total bl = total bl' → bl = bl'.
Proof.
  revert a. induction bl as [|[s al] r IH]; intros a [|[s' al'] r']; simpl.
  - done.
  - intros _ (H1 & _ & _ & _ & Hr) Ht.
    pose proof (total_nonneg r' (tiled_seg_sized _ _ _ Hr)). lia.
  - intros (H1 & _ & _ & _ & Hr) _ Ht.
    pose proof (total_nonneg r (tiled_seg_sized _ _ _ Hr)). lia.
  - intros (H1 & H2 & Hh & _ & Hr) (H1' & H2' & Hh' & _ & Hr') Ht.
    rewrite Hh in Hh'. apply tag_inj in Hh' as [<- <-]; [|done..].
    f_equal. apply (IH (a + s)); [done..|lia].
Qed.

Lemma rep_layout_unique st bl fl bl' fl' : rep st bl fl → rep st bl' fl' → bl = bl'.
Proof.
  intros (_ & Ht & Htot & _) (_ & Ht' & Htot' & _).
  apply (tiled_seg_unique st (heap_ptr st + WSIZE)); [done..|lia].
Qed.

(** ** The invariant through the public functions *)

(** [mm_init] (mm.c lines 99-133) on a region with room for the directory and
    the first block of [INITSIZE] bytes returns 0 and leaves a well-formed
    heap: prologue, blocks tiling the region up to the epilogue, and every
    free block on the list of its class. *)
Theorem mm_init_establishes_invariant st0 :
  0 <= mem_brk st0 → mem_brk st0 mod 8 = 0 →
  mem_brk st0 + 304 <= mem_max_addr st0 < 2 ^ 62 →
  ∃ st, mm_init st0 = Some (st, 0) ∧ wf st.
Proof.
  intros H0 Hm H1.
  destruct (mm_init_wf st0 H0 Hm H1) as (st & Hinit & Hwf & _). by exists st.
Qed.

Lemma mm_init_establishes_invariant_witness :
  ∃ st, mm_init (mkHeap ∅ NULL 1024 65536) = Some (st, 0) ∧ wf st.
Proof.
  apply mm_init_establishes_invariant; [cbn; lia|reflexivity|cbn; lia].
Defined.

(** [mm_malloc] (mm.c lines 138-177) on a well-formed heap returns, and the
    heap stays well-formed.  A result other than [NULL] is an allocated block
    of at least the rounded request.  The blocks allocated before are still
    allocated, their payloads are untouched, and the new block overlaps none
    of them. *)
Theorem mm_malloc_keeps_invariant st n :
  wf st → 0 < n < 2 ^ 61 →
  ∃ st' q sq,
    mm_malloc st n = Some (st', q) ∧ wf st'
    ∧ (q ≠ NULL → allocated st' q sq ∧ align_size n <= sq)
    ∧ (∀ z sz, allocated st z sz →
               allocated st' z sz
               ∧ (∀ w, z <= w < z + sz - 16 → GET st' w = GET st w)
               ∧ (q ≠ NULL → z + sz <= q ∨ q + sq <= z)).
Proof.
  intros (bl & fl & Hrep & Hlinked) Hn.
  destruct (mm_malloc_rep st bl fl n Hrep Hlinked Hn)
    as (st' & q & Hmal & [(-> & -> & _)|(Hq & Hd)]).
  - exists st, NULL, 0. split; [done|]. split; [by exists bl, fl|].
    split; [done|]. intros z sz Hz. split; [done|]. split; done.
  - destruct Hd as (bl' & fl' & sq & Hrep' & Hlinked' & Hstep & Hb & Hsq & Hcover).
    pose proof Hstep as (EH & _ & _ & Hkeep & _ & Halloc).
    exists st', q, sq. split; [done|].
    split; [exists bl', fl'; by rewrite EH|].
    split; [intros _; split; [exists bl', fl'; by rewrite EH|done]|].
    intros z sz (bl0 & fl0 & Hrep0 & _ & Hz).
    rewrite <- (rep_layout_unique st bl fl bl0 fl0 Hrep Hrep0) in Hz.
    pose proof (rep_blk_bounds st bl fl Hrep z sz true Hz) as Hbz.
    pose proof (rep_blk_bounds st' bl' fl' Hrep' q sq true
                  ltac:(by rewrite EH)) as Hbq.
    split; [exists bl', fl'; rewrite EH; split; [done|]; split; [done|by apply Halloc]|].
    split.
    + intros w Hw. apply Hkeep. apply (alloc_not_free st bl fl z sz _ Hrep Hz). lia.
    + intros _.
      destruct (Z.le_gt_cases (z + sz) q) as [?|H1]; [by left|].
      destruct (Z.le_gt_cases (q + sq) z) as [?|H2]; [by right|].
      exfalso.
      apply (alloc_not_free st bl fl z sz (Z.max (z - 8) (q - 8)) Hrep Hz); [lia|].
      apply Hcover. lia.
Qed.

Lemma mm_malloc_keeps_invariant_witness :
  ∃ st' q sq,
    mm_malloc fresh 8 = Some (st', q) ∧ wf st'
    ∧ (q ≠ NULL → allocated st' q sq ∧ align_size 8 <= sq)
    ∧ (∀ z sz, allocated fresh z sz →
               allocated st' z sz
               ∧ (∀ w, z <= w < z + sz - 16 → GET st' w = GET fresh w)
               ∧ (q ≠ NULL → z + sz <= q ∨ q + sq <= z)).
Proof.
  assert (H : 0 < 8 < 2 ^ 61) by lia.
  exact (mm_malloc_keeps_invariant fresh 8 fresh_wf H).
Defined.

(** [mm_free] (mm.c lines 182-197) of an allocated block of a well-formed
    heap returns, and the heap stays well-formed; the other allocated blocks
    are still allocated and their payloads are untouched. *)
Theorem mm_free_keeps_invariant st p s :
  allocated st p s →
  ∃ st', mm_free st p = Some st' ∧ wf st'
         ∧ (∀ z sz, allocated st z sz → z ≠ p →
                    allocated st' z sz
                    ∧ (∀ w, z <= w < z + sz - 16 → GET st' w = GET st w)).
Proof.
  intros (bl & fl & Hrep & Hlinked & Hp).
  destruct (mm_free_rep st bl fl p s Hrep Hlinked Hp)
    as (st' & bl' & fl' & Hfree & Hrep' & Hlinked' & (EH & _) & Hkeep & Halloc).
  exists st'. split; [done|]. split; [exists bl', fl'; by rewrite EH|].
  intros z sz (bl0 & fl0 & Hrep0 & _ & Hz) Hne.
  rewrite <- (rep_layout_unique st bl fl bl0 fl0 Hrep Hrep0) in Hz.
  split; [exists bl', fl'; rewrite EH; split; [done|]; split; [done|by apply Halloc]|].
  intros w Hw. apply Hkeep. intros [Hf|Hin].
  - revert Hf. apply (alloc_not_free st bl fl z sz _ Hrep Hz). lia.
  - destruct (blk_at_disjoint _ _ _ _ _ _ _ _ (rep_sized st bl fl Hrep) Hz Hp)
      as [(? & _)|[?|?]]; [done|lia..].
Qed.

Lemma mm_free_keeps_invariant_witness :
  ∃ st', mm_free two_blocks 1184 = Some st' ∧ wf st'
         ∧ (∀ z sz, allocated two_blocks z sz → z ≠ 1184 →
                    allocated st' z sz
                    ∧ (∀ w, z <= w < z + sz - 16 → GET st' w = GET two_blocks w)).
Proof. exact (mm_free_keeps_invariant two_blocks 1184 32 two_blocks_allocated). Defined.

(** ** [mm_realloc] on a well-formed heap *)

(** The two ways of growing, on the example heaps.  In [one_written] the block
    at 1184 has a free right neighbour of 112 bytes and stays where it is; in
    [two_blocks] its right neighbour is allocated and it moves to 1248, where
    the pattern is found again, while list links take its place at 1184. *)
Lemma mm_realloc_payload_examples :
  (snd <$> mm_realloc one_written 1184 100) = Some 1184
  ∧ ((λ r, GET (fst r) 1184) <$> mm_realloc one_written 1184 100) = Some 23130
  ∧ (snd <$> mm_realloc two_blocks 1184 100) = Some 1248
  ∧ ((λ r, (GET (fst r) 1248, GET (fst r) 1256)) <$> mm_realloc two_blocks 1184 100)
    = Some (23130, 42405)
  ∧ ((λ r, byte_at (fst r) 1249) <$> mm_realloc two_blocks 1184 100) = Some 90
  ∧ byte_at two_blocks 1185 = 90.
Proof. vm_compute. repeat split; reflexivity. Qed.




(** * Layouts of the public functions *)

(** ** Lists of blocks *)

Lemma ends_free_cons p s al r : ends_free p ((s, al) :: r) = ends_free (negb al) r.
Proof. unfold ends_free. rewrite last_cons. by destruct (last r) as [[? ?]|]. Qed.

Lemma tight_from_app l1 : ∀ p l2,
  tight_from p (l1 ++ l2) = tight_from p l1 && tight_from (ends_free p l1) l2.
Proof.
  induction l1 as [|[s al] r IH]; intros p l2; simpl; [done|].
  rewrite IH, ends_free_cons. by rewrite andb_assoc.
Qed.

Lemma tight_from_weaken p bl : tight_from true bl = true → tight_from p bl = true.
Proof. destruct bl as [|[s [|]] r], p; simpl; done. Qed.

Lemma join_prev_spec l1 s :
  (join_prev l1 s = (l1, s) ∧ ends_free false l1 = false)
  ∨ ∃ l1' s0, l1 = l1' ++ [(s0, false)] ∧ join_prev l1 s = (l1', s0 + s).
Proof.
  destruct l1 as [|[s0 [|]] l1' _] using rev_ind.
  - by left.
  - left. split; [apply join_prev_alloc|]. unfold ends_free. by rewrite last_snoc.
  - right. exists l1', s0. split; [done|apply join_prev_free].
Qed.

Lemma join_next_spec s l2 :
  (join_next s l2 = (s, l2) ∧ tight_from true l2 = tight_from false l2)
  ∨ ∃ s2 r, l2 = (s2, false) :: r ∧ join_next s l2 = (s + s2, r).
Proof.
  destruct l2 as [|[s2 [|]] r].
  - by left.
  - by left.
  - right. by exists s2, r.
Qed.

Lemma join_prev_total l1 s :
  total (fst (join_prev l1 s)) + snd (join_prev l1 s) = total l1 + s.
Proof.
  destruct (join_prev_spec l1 s) as [[-> _]|(l1' & s0 & -> & ->)]; simpl; [done|].
  rewrite total_app. simpl. lia.
Qed.

Lemma join_next_total s l2 :
  fst (join_next s l2) + total (snd (join_next s l2)) = s + total l2.
Proof.
  destruct (join_next_spec s l2) as [[-> _]|(s2 & r & -> & ->)]; simpl; lia.
Qed.

Lemma coalesced_total l1 s l2 : total (coalesced l1 s l2) = total l1 + s + total l2.
Proof.
  unfold coalesced. rewrite total_app. simpl.
  pose proof (join_prev_total l1 (fst (join_next s l2))).
  pose proof (join_next_total s l2). lia.
Qed.

(** Merging leaves no free neighbours where there were none apart from the
    block itself. *)
Lemma tight_coalesced l1 s l2 :
  tight l1 = true → tight l2 = true → tight (coalesced l1 s l2) = true.
Proof.
  unfold tight, coalesced. intros H1 H2.
  assert (Hr : tight_from true (snd (join_next s l2)) = true).
  { destruct (join_next_spec s l2) as [[-> E]|(s2 & r & -> & ->)]; simpl.
    - (* [l2] is empty or starts with an allocated block *)
      destruct l2 as [|[s2 [|]] r]; simpl in *; congruence.
    - simpl in H2. done. }
  set (s1 := fst (join_next s l2)).
  rewrite tight_from_app. simpl. rewrite Hr.
  destruct (join_prev_spec l1 s1) as [[-> E]|(l1' & s0 & -> & ->)]; simpl.
  - by rewrite H1, E.
  - rewrite tight_from_app in H1. simpl in H1.
    apply andb_true_iff in H1 as [H1 H1'].
    rewrite H1. destruct (ends_free false l1'); simpl in *; done.
Qed.

Lemma tight_app_inv l1 l2 : tight (l1 ++ l2) = true → tight l1 = true.
Proof. unfold tight. rewrite tight_from_app. by intros [? _]%andb_true_iff. Qed.

Lemma tight_freed l1 s l2 :
  tight (l1 ++ (s, true) :: l2) = true → tight (coalesced l1 s l2) = true.
Proof.
  intros H. apply tight_coalesced; [by eapply tight_app_inv|].
  unfold tight in *. rewrite tight_from_app in H. simpl in H.
  by apply andb_true_iff in H as [_ [_ ?]%andb_true_iff].
Qed.

Lemma tight_placed l1 s need l2 :
  tight (l1 ++ (s, false) :: l2) = true → tight (placed l1 s need l2) = true.
Proof.
  unfold tight, placed. rewrite tight_from_app. simpl.
  intros [H1 [H2 H3]%andb_true_iff]%andb_true_iff.
  destruct (4 * WSIZE <=? s - need); rewrite tight_from_app; simpl;
    rewrite H1, andb_false_r; simpl.
  - done.
  - by apply tight_from_weaken.
Qed.

(** The allocated blocks after a merge are those on either side. *)
Lemma blk_at_coalesced a l1 s l2 z sz :
  blk_at a (coalesced l1 s l2) z sz true
  ↔ blk_at a l1 z sz true ∨ blk_at (a + total l1 + s) l2 z sz true.
Proof.
  unfold coalesced.
  pose proof (join_prev_total l1 (fst (join_next s l2))) as Et.
  rewrite blk_at_app. simpl.
  replace (a + total (fst (join_prev l1 (fst (join_next s l2))))
           + snd (join_prev l1 (fst (join_next s l2))))
    with (a + total l1 + fst (join_next s l2)) by lia.
  assert (H2 : blk_at (a + total l1 + fst (join_next s l2)) (snd (join_next s l2)) z sz true
               ↔ blk_at (a + total l1 + s) l2 z sz true).
  { destruct (join_next_spec s l2) as [[-> _]|(s2 & r & -> & ->)]; simpl; [done|].
    replace (a + total l1 + s + s2) with (a + total l1 + (s + s2)) by lia.
    split; [by right|]. by intros [(_ & _ & [=])|?]. }
  assert (H1 : blk_at a (fst (join_prev l1 (fst (join_next s l2)))) z sz true
               ↔ blk_at a l1 z sz true).
  { destruct (join_prev_spec l1 (fst (join_next s l2)))
      as [[-> _]|(l1' & s0 & -> & ->)]; simpl; [done|].
    rewrite blk_at_app. simpl. split; [by left|].
    by intros [?|[(_ & _ & [=])|[]]]. }
  rewrite H1, H2. split.
  - intros [?|[(_ & _ & [=])|?]]; [by left|by right].
  - intros [?|?]; [by left|right; by right].
Qed.

(** The free block that a merge leaves covers the block that was merged. *)
Lemma coalesced_cover a l1 s l2 :
  let r := a + total (fst (join_prev l1 (fst (join_next s l2)))) + 8 in
  let s' := snd (join_prev l1 (fst (join_next s l2))) in
  sized l1 → sized l2 →
  blk_at a (coalesced l1 s l2) r s' false
  ∧ r <= a + total l1 + 8 ∧ a + total l1 + 8 + s <= r + s'.
Proof.
  cbv zeta. intros Hs1 Hs2. split; [apply blk_at_middle|].
  pose proof (join_prev_total l1 (fst (join_next s l2))) as Et.
  assert (s <= fst (join_next s l2)).
  { destruct (join_next_spec s l2) as [[-> _]|(s2 & r & -> & ->)]; simpl; [lia|].
    apply Forall_cons in Hs2 as [[? _] _]. simpl in *. lia. }
  destruct (join_prev_spec l1 (fst (join_next s l2)))
    as [[E _]|(l1' & s0 & El & E)]; rewrite E in *; simpl in *; [lia|].
  rewrite El in *. rewrite total_app in *. simpl in *.
  apply sized_app in Hs1 as [_ Hs]. apply Forall_cons in Hs as [[? _] _].
  simpl in *. lia.
Qed.

(** The allocated blocks after a placement: the block itself and the
    others. *)
Lemma blk_at_placed a l1 s need l2 z sz :
  blk_at a (placed l1 s need l2) z sz true
  ↔ blk_at a l1 z sz true
    ∨ (z = a + total l1 + 8 ∧ sz = if 4 * WSIZE <=? s - need then need else s)
    ∨ blk_at (a + total l1 + s) l2 z sz true.
Proof.
  unfold placed. destruct (4 * WSIZE <=? s - need); rewrite blk_at_app; simpl.
  - replace (a + total l1 + need + (s - need)) with (a + total l1 + s) by lia.
    split.
    + intros [?|[(-> & -> & _)|[(_ & _ & [=])|?]]]; [by left|right; by left|right; by right].
    + intros [?|[(-> & ->)|?]]; [by left|right; by left|right; right; by right].
  - split.
    + intros [?|[(-> & -> & _)|?]]; [by left|right; by left|right; by right].
    + intros [?|[(-> & ->)|?]]; [by left|right; by left|right; by right].
Qed.

(** ** [place] and [mm_malloc] with their layouts *)

Lemma place_region st b need st' r :
  place st b need = Some (st', r) → same_region st st'.
Proof.
  unfold place.
  pose proof (pop_free_region st b) as H1.
  set (st1 := pop_free st b) in *.
  destruct (4 * WSIZE <=? GET_SIZE st (HDRP b) - need).
  - destruct (add_free _ _ _) as [st6|] eqn:Hadd; [|discriminate].
    simpl. intros [= <- _].
    eapply same_region_trans; [|exact (add_free_region _ _ _ _ Hadd)].
    repeat apply same_region_PUT_r. exact H1.
  - intros [= <- _]. repeat apply same_region_PUT_r. exact H1.
Qed.

Lemma join_prev_size bl sz :
  sized bl → sz <= snd (join_prev bl sz).
Proof.
  intros Hs. destruct (join_prev_spec bl sz) as [[-> _]|(l1' & s0 & -> & ->)]; simpl; [lia|].
  apply sized_app in Hs as [_ Hs]. apply Forall_cons in Hs as [[? _] _]. simpl in *. lia.
Qed.

(** The three ways of [mm_malloc] on a well-formed heap: nothing fits and
    the region cannot grow; the head of a class is placed; the region grows
    and the new last block is placed. *)
Lemma mm_malloc_layout st bl fl n :
  rep st bl fl → linked (heap_ptr st + WSIZE) bl fl [] → 0 < n < 2 ^ 61 →
  (mm_malloc st n = Some (st, NULL)
   ∧ scan st (align_size n) (Z.to_nat LISTSIZE) 0 = NULL
   ∧ mem_max_addr st < mem_brk st + Z.max (align_size n) 4112)
  ∨ (∃ st' fl' l1 s l2,
       bl = l1 ++ (s, false) :: l2 ∧ align_size n < s
       ∧ scan st (align_size n) (Z.to_nat LISTSIZE) 0 = heap_ptr st + WSIZE + total l1 + 8
       ∧ mm_malloc st n = Some (st', heap_ptr st + WSIZE + total l1 + 8)
       ∧ rep st' (placed l1 s (align_size n) l2) fl'
       ∧ linked (heap_ptr st + WSIZE) (placed l1 s (align_size n) l2) fl' []
       ∧ step_ok st bl st' (placed l1 s (align_size n) l2)
       ∧ mem_brk st' = mem_brk st)
  ∨ (∃ st' fl' r1 s2,
       join_prev bl (Z.max (align_size n) 4112) = (r1, s2)
       ∧ scan st (align_size n) (Z.to_nat LISTSIZE) 0 = NULL
       ∧ mem_brk st + Z.max (align_size n) 4112 <= mem_max_addr st
       ∧ mm_malloc st n = Some (st', heap_ptr st + WSIZE + total r1 + 8)
       ∧ rep st' (placed r1 s2 (align_size n) []) fl'
       ∧ linked (heap_ptr st + WSIZE) (placed r1 s2 (align_size n) []) fl' []
       ∧ step_ok st bl st' (placed r1 s2 (align_size n) [])
       ∧ mem_brk st' = mem_brk st + Z.max (align_size n) 4112).
Proof.
  intros Hrep Hlinked Hn.
  destruct (align_size_props n) as (Hm & Hlo & _).
  pose proof (align_size_small n ltac:(lia)) as Hsmall.
  set (need := align_size n) in *.
  pose proof Hrep as ((H1 & _ & H3 & H4 & _) & _).
  unfold mm_malloc. replace (n =? 0) with false by (symmetry; lia). fold need.
  destruct (Z.eqb_spec (scan st need (Z.to_nat LISTSIZE) 0) NULL) as [Hscan|Hscan].
  - (* nothing fits: the region grows *)
    assert (Hsz : ALIGN (MAX need CHUNKSIZE) = Z.max need 4112).
    { rewrite MAX_max. change CHUNKSIZE with 4112.
      apply ALIGN_aligned; [zdiv|lia]. }
    destruct (Z.lt_ge_cases (mem_max_addr st) (mem_brk st + ALIGN (MAX need CHUNKSIZE)))
      as [Hfull|Hroom].
    + left. rewrite extend_heap_fails by exact Hfull. simpl.
      split; [done|]. split; [done|]. by rewrite <- Hsz.
    + right. right.
      destruct (extend_heap_layout st bl fl (MAX need CHUNKSIZE) Hrep Hlinked)
        as (st1 & fl1 & Hext & Hrep1 & Hlinked1 & Hstep1 & Hbrk1);
        [rewrite Hsz; split; [lia|zdiv]|lia|].
      rewrite Hsz in *.
      pose proof Hstep1 as (EH1 & _).
      destruct (join_prev bl (Z.max need 4112)) as [r1 s2] eqn:Ej.
      pose proof (join_prev_size bl (Z.max need 4112) (rep_sized st bl fl Hrep)) as Hs2.
      rewrite Ej in Hs2. simpl in Hs2, Hext.
      assert (Ec : coalesced bl (Z.max need 4112) [] = r1 ++ [(s2, false)] ++ [])
        by (unfold coalesced; simpl; by rewrite Ej).
      rewrite Ec in Hrep1, Hlinked1, Hstep1.
      rewrite <- EH1 in Hlinked1.
      destruct (place_layout_at st1 fl1 r1 [] s2 need Hrep1 Hlinked1)
        as (st2 & fl2 & Hpl & Hrep2 & Hlinked2 & Hstep2); [split; [lia|done]|].
      rewrite EH1 in Hpl, Hlinked2.
      rewrite Hext. simpl.
      pose proof (total_nonneg r1) as Htn.
      assert (Hsr : sized r1).
      { pose proof (rep_sized st1 _ fl1 Hrep1) as Hs. by apply sized_app in Hs as [? _]. }
      specialize (Htn Hsr).
      replace (heap_ptr st + WSIZE + total r1 + 8 =? NULL) with false
        by (symmetry; unfold NULL, WSIZE; lia).
      exists st2, fl2, r1, s2.
      split; [done|]. split; [done|]. split; [lia|]. split; [exact Hpl|].
      split; [exact Hrep2|]. split; [exact Hlinked2|].
      split; [eapply step_ok_trans; eassumption|].
      destruct (place_region _ _ _ _ _ Hpl) as (_ & -> & _). exact Hbrk1.
  - (* the head of a class fits *)
    right. left.
    destruct (scan_found st need _ 0 _ eq_refl Hscan) as (i & Hi & Hbp & Hgt & _).
    set (bp := scan st need (Z.to_nat LISTSIZE) 0) in *.
    pose proof Hrep as (_ & _ & _ & _ & Hlists).
    pose proof (Hlists i Hi) as Hdll. rewrite <- Hbp in Hdll.
    destruct (fl i) as [|b0 l] eqn:Hfl; [simpl in Hdll; done|].
    destruct Hdll as (Hb0 & _). subst b0.
    pose proof Hlinked as (Hl1 & _).
    destruct (Hl1 i bp) as (_ & s & Hblk & _); [rewrite Hfl; by left|].
    rewrite (rep_GET_SIZE st bl fl Hrep bp s false Hblk) in Hgt.
    destruct (blk_at_split _ _ _ _ _ Hblk) as (l1 & l2 & Ebl & Ebp).
    subst bl.
    destruct (place_layout_at st fl l1 l2 s need Hrep Hlinked)
      as (st2 & fl2 & Hpl & Hrep2 & Hlinked2 & Hstep2); [split; [lia|done]|].
    rewrite <- Ebp in Hpl.
    exists st2, fl2, l1, s, l2.
    split; [done|]. split; [lia|]. split; [done|]. rewrite <- Ebp.
    split; [exact Hpl|]. split; [exact Hrep2|]. split; [exact Hlinked2|].
    split; [exact Hstep2|].
    by destruct (place_region _ _ _ _ _ Hpl) as (_ & -> & _).
Qed.

(** ** What [mm_free] and [mm_malloc] do to the set of allocated blocks *)

Lemma allocated_in st bl fl z sz :
  rep st bl fl → allocated st z sz → blk_at (heap_ptr st + WSIZE) bl z sz true.
Proof.
  intros Hrep (bl0 & fl0 & Hrep0 & _ & Hz).
  by rewrite (rep_layout_unique st bl fl bl0 fl0 Hrep Hrep0).
Qed.

(** mm.c, lines 182-197.  After [mm_free] of an allocated block [p] the
    allocated blocks are exactly the others, the bytes of [p] lie inside one
    free block, and the region is as large as before: nothing is given back. *)
Theorem mm_free_releases_exactly st p s :
  allocated st p s →
  ∃ st', mm_free st p = Some st'
         ∧ same_region st st'
         ∧ (∀ z sz, allocated st' z sz ↔ allocated st z sz ∧ z ≠ p)
         ∧ (∃ r s', is_block st' r s' false ∧ r <= p ∧ p + s <= r + s').
Proof.
  intros (bl & fl & Hrep & Hlinked & Hp).
  destruct (blk_at_split _ _ _ _ _ Hp) as (l1 & l2 & -> & Ep).
  destruct (mm_free_layout_at st fl l1 l2 s Hrep Hlinked)
    as (st' & fl' & Hfree & Hrep' & Hlinked' & Hreg & _ & _).
  rewrite <- Ep in Hfree.
  pose proof Hreg as (EH & _).
  pose proof (rep_blk_bounds st _ fl Hrep p s true Hp) as Hbp.
  pose proof (rep_sized st _ fl Hrep) as Hs.
  apply sized_app in Hs as [Hs1 Hs2]. apply Forall_cons in Hs2 as [_ Hs2].
  exists st'. split; [done|]. split; [done|]. split.
  - intros z sz. split.
    + intros Hz. apply (allocated_in st' _ fl' z sz Hrep') in Hz.
      rewrite EH in Hz. apply blk_at_coalesced in Hz.
      assert (blk_at (heap_ptr st + WSIZE) (l1 ++ (s, true) :: l2) z sz true ∧ z ≠ p)
        as [Hz' Hne].
      { destruct Hz as [Hz|Hz].
        - split; [apply blk_at_app; by left|].
          pose proof (blk_at_bounds _ _ _ _ _ Hs1 Hz). lia.
        - split; [apply blk_at_app; right; simpl; by right|].
          pose proof (blk_at_bounds _ _ _ _ _ Hs2 Hz). lia. }
      split; [|done]. by exists (l1 ++ (s, true) :: l2), fl.
    + intros [Hz Hne]. apply (allocated_in st _ fl z sz Hrep) in Hz.
      exists (coalesced l1 s l2), fl'. rewrite EH.
      split; [done|]. split; [done|]. apply blk_at_coalesced.
      apply blk_at_app in Hz as [Hz|Hz]; [by left|].
      simpl in Hz. destruct Hz as [(-> & _)|Hz]; [done|by right].
  - destruct (coalesced_cover (heap_ptr st + WSIZE) l1 s l2 Hs1 Hs2) as (Hr & Hlo & Hhi).
    eexists _, _. split; [|split; [rewrite Ep; exact Hlo|rewrite Ep; exact Hhi]].
    exists (coalesced l1 s l2), fl'. rewrite EH. done.
Qed.

Lemma mm_free_releases_exactly_witness :
  ∃ st', mm_free two_blocks 1184 = Some st'
         ∧ same_region two_blocks st'
         ∧ (∀ z sz, allocated st' z sz ↔ allocated two_blocks z sz ∧ z ≠ 1184)
         ∧ (∃ r s', is_block st' r s' false ∧ r <= 1184 ∧ 1184 + 32 <= r + s').
Proof. exact (mm_free_releases_exactly two_blocks 1184 32 two_blocks_allocated). Defined.

(** mm.c, lines 138-177.  A block that [mm_malloc] returns is aligned, lies
    in the region, has room for the request, is at most 24 bytes larger than
    the rounded request, and joins the allocated blocks, which are otherwise
    the same as before.  [NULL] comes with an unchanged heap. *)
Theorem mm_malloc_allocates_exactly st n :
  wf st → 0 < n < 2 ^ 61 →
  ∃ st' q sq,
    mm_malloc st n = Some (st', q)
    ∧ (q = NULL → st' = st)
    ∧ (q ≠ NULL →
       (∀ z sz, allocated st' z sz ↔ allocated st z sz ∨ (z = q ∧ sz = sq))
       ∧ q mod 8 = 0
       ∧ n + DSIZE <= sq ∧ align_size n <= sq < align_size n + 4 * WSIZE
       ∧ heap_ptr st' + DSIZE <= q ∧ q + sq <= mem_brk st').
Proof.
  intros (bl & fl & Hrep & Hlinked) Hn.
  pose proof (align_size_small n ltac:(lia)) as Hsmall.
  destruct (align_size_props n) as (Hm & Hlo & _).
  assert (Hgen : ∀ st' fl' l1 s l2 bl0,
            rep st bl0 fl → step_ok st bl0 st' (placed l1 s (align_size n) l2) →
            (∀ z sz, blk_at (heap_ptr st + WSIZE) bl0 z sz true
                     ↔ blk_at (heap_ptr st + WSIZE) l1 z sz true
                       ∨ blk_at (heap_ptr st + WSIZE + total l1 + s) l2 z sz true) →
            align_size n <= s →
            rep st' (placed l1 s (align_size n) l2) fl' →
            linked (heap_ptr st + WSIZE) (placed l1 s (align_size n) l2) fl' [] →
            let q := heap_ptr st + WSIZE + total l1 + 8 in
            let sq := if 4 * WSIZE <=? s - align_size n then align_size n else s in
            (∀ z sz, allocated st' z sz ↔ allocated st z sz ∨ (z = q ∧ sz = sq))
            ∧ q mod 8 = 0
            ∧ n + DSIZE <= sq ∧ align_size n <= sq < align_size n + 4 * WSIZE
            ∧ heap_ptr st' + DSIZE <= q ∧ q + sq <= mem_brk st').
  { intros st' fl' l1 s l2 bl0 Hrep0 Hstep Hold Hs Hrep' Hlinked'. cbv zeta.
    pose proof Hstep as (EH & _).
    assert (Hq : blk_at (heap_ptr st' + WSIZE) (placed l1 s (align_size n) l2)
                   (heap_ptr st + WSIZE + total l1 + 8)
                   (if 4 * WSIZE <=? s - align_size n then align_size n else s) true).
    { rewrite EH. apply blk_at_placed. right. by left. }
    pose proof (rep_blk_bounds st' _ fl' Hrep' _ _ _ Hq) as (Hq1 & Hq2 & _).
    pose proof (rep_blk_aligned st' _ fl' _ _ _ Hrep' Hq) as Hqm.
    split; [|split; [done|split; [|split; [|unfold DSIZE, WSIZE in *; lia]]]].
    - intros z sz. split.
      + intros Hz. apply (allocated_in st' _ fl' z sz Hrep') in Hz.
        rewrite EH in Hz. apply blk_at_placed in Hz.
        destruct Hz as [Hz|[Hz|Hz]]; [left|by right|left];
          (exists bl0, fl; split; [done|]; split; [|apply Hold; tauto]).
        all: destruct (rep_layout_unique st bl fl bl0 fl Hrep Hrep0); done.
      + intros [Hz|[-> ->]].
        * apply (allocated_in st bl0 fl z sz Hrep0) in Hz.
          exists (placed l1 s (align_size n) l2), fl'. rewrite EH.
          split; [done|]. split; [done|]. apply blk_at_placed.
          apply Hold in Hz. tauto.
        * exists (placed l1 s (align_size n) l2), fl'. rewrite EH.
          split; [done|]. split; [done|]. pose proof Hq as Hq'.
          rewrite EH in Hq'. exact Hq'.
    - destruct (Z.leb_spec (4 * WSIZE) (s - align_size n)); unfold DSIZE, WSIZE in *; lia.
    - destruct (Z.leb_spec (4 * WSIZE) (s - align_size n)); unfold DSIZE, WSIZE in *; lia. }
  destruct (mm_malloc_layout st bl fl n Hrep Hlinked Hn)
    as [(Hmal & _)|[(st' & fl' & l1 & s & l2 & Ebl & Hs & _ & Hmal & Hrep' & Hlinked' & Hstep & _)
                   |(st' & fl' & r1 & s2 & Ej & _ & _ & Hmal & Hrep' & Hlinked' & Hstep & _)]].
  - exists st, NULL, 0. split; [done|]. split; done.
  - eexists st', _, _. split; [exact Hmal|]. split.
    { pose proof (total_nonneg l1). pose proof Hrep as ((? & _) & _).
      pose proof (rep_sized st bl fl Hrep) as Hsz. rewrite Ebl in Hsz.
      apply sized_app in Hsz as [Hsz _]. unfold NULL, WSIZE. intros ?. exfalso.
      specialize (H Hsz). lia. }
    intros _. apply (Hgen st' fl' l1 s l2 bl); [done..| |lia|done|done].
    intros z sz. rewrite Ebl, blk_at_app. simpl. split.
    + intros [?|[(_ & _ & [=])|?]]; [by left|by right].
    + intros [?|?]; [by left|right; by right].
  - pose proof (rep_sized st bl fl Hrep) as Hsz.
    pose proof (join_prev_size bl (Z.max (align_size n) 4112) Hsz) as Hs2.
    pose proof (join_prev_total bl (Z.max (align_size n) 4112)) as Ht.
    rewrite Ej in Hs2, Ht. simpl in Hs2, Ht.
    eexists st', _, _. split; [exact Hmal|]. split.
    { pose proof (rep_sized st' _ fl' Hrep') as Hsz'.
      assert (sized r1).
      { destruct (join_prev_spec bl (Z.max (align_size n) 4112))
          as [[E _]|(l1' & s0 & El & E)]; rewrite Ej in E; injection E as -> ->; [done|].
        rewrite El in Hsz. by apply sized_app in Hsz as [? _]. }
      pose proof (total_nonneg r1 H). pose proof Hrep as ((? & _) & _).
      unfold NULL, WSIZE. intros ?. exfalso. lia. }
    intros _. apply (Hgen st' fl' r1 s2 [] bl); [done..| |lia|done|done].
    intros z sz.
    destruct (join_prev_spec bl (Z.max (align_size n) 4112))
      as [[E _]|(l1' & s0 & El & E)]; rewrite Ej in E; injection E as -> ->.
    + simpl. tauto.
    + rewrite El, blk_at_app. simpl. split; [|tauto].
      intros [?|[(_ & _ & [=])|[]]]. by left.
Qed.

Lemma mm_malloc_allocates_exactly_witness :
  ∃ st' q sq,
    mm_malloc fresh 8 = Some (st', q)
    ∧ (q = NULL → st' = fresh)
    ∧ (q ≠ NULL →
       (∀ z sz, allocated st' z sz ↔ allocated fresh z sz ∨ (z = q ∧ sz = sq))
       ∧ q mod 8 = 0
       ∧ 8 + DSIZE <= sq ∧ align_size 8 <= sq < align_size 8 + 4 * WSIZE
       ∧ heap_ptr st' + DSIZE <= q ∧ q + sq <= mem_brk st').
Proof.
  assert (H : 0 < 8 < 2 ^ 61) by lia.
  exact (mm_malloc_allocates_exactly fresh 8 fresh_wf H).
Defined.

(** ** [mm_init]: its outcomes *)

Lemma mm_init_no_directory st0 :
  mem_max_addr st0 < mem_brk st0 + 160 →
  mm_init st0
  = Some (mkHeap (mem st0) MINUS1 (mem_brk st0) (mem_max_addr st0), -1).
Proof.
  intros H. unfold mm_init, mem_sbrk.
  change ((LISTSIZE + 4) * WSIZE) with 160.
  replace ((160 <? 0) || (mem_max_addr st0 <? mem_brk st0 + 160)) with true
    by (symmetry; apply orb_true_iff; right; lia).
  reflexivity.
Qed.

Lemma mm_init_no_block st0 :
  0 <= mem_brk st0 → mem_brk st0 + 160 <= mem_max_addr st0 < mem_brk st0 + 304 →
  mem_max_addr st0 < 2 ^ 62 →
  mm_init st0 = Some (formatted st0, -1).
Proof.
  intros H0 H1 H2. rewrite mm_init_formatted by lia.
  rewrite extend_heap_fails; [reflexivity|].
  change (ALIGN INITSIZE) with 144.
  change (mem_max_addr (formatted st0)) with (mem_max_addr st0).
  change (mem_brk (formatted st0)) with (mem_brk st0 + 160). lia.
Qed.

Lemma mm_init_layout st0 :
  0 <= mem_brk st0 → mem_brk st0 mod 8 = 0 →
  mem_brk st0 + 304 <= mem_max_addr st0 < 2 ^ 62 →
  ∃ st fl, mm_init st0 = Some (st, 0)
           ∧ rep st [(INITSIZE, false)] fl
           ∧ linked (heap_ptr st + WSIZE) [(INITSIZE, false)] fl []
           ∧ heap_ptr st = mem_brk st0 + 144 ∧ mem_brk st = mem_brk st0 + 304
           ∧ mem_max_addr st = mem_max_addr st0.
Proof.
  intros H0 Hm H1.
  destruct (formatted_rep st0) as (Hrep & Hlinked & E1 & E2 & E3); [lia..|].
  rewrite mm_init_formatted by lia.
  destruct (extend_heap_layout (formatted st0) [] (λ _, []) INITSIZE Hrep Hlinked)
    as (st & fl & Hex & Hrep' & Hlinked' & Hstep & Hbrk).
  { change (ALIGN INITSIZE) with 144. split; [lia|done]. }
  { change (ALIGN INITSIZE) with 144. lia. }
  change (ALIGN INITSIZE) with 144 in *.
  change (coalesced [] 144 []) with [(INITSIZE, false)] in *.
  change (total (fst (join_prev [] 144))) with 0 in Hex.
  destruct Hstep as (EH & EM & _).
  rewrite Hex. cbn [mbind option_bind].
  replace (heap_ptr (formatted st0) + WSIZE + 0 + 8 =? NULL) with false
    by (symmetry; unfold NULL, WSIZE; lia).
  exists st, fl. split; [done|]. split; [done|]. rewrite EH. split; [done|]. lia.
Qed.

(** mm.c, lines 99-133.  [mm_init] returns 0 exactly when the region can
    take the 304 bytes of the directory, the prologue, the epilogue and the
    first block; the heap then holds one block, free, of [INITSIZE] bytes.
    Otherwise the result is -1: without room for the first 160 bytes nothing
    is written and [heap_ptr] is [(void * ) -1]; with it, the directory and
    the sentinels stay in a heap of no block. *)
Theorem mm_init_outcome st0 :
  0 <= mem_brk st0 → mem_brk st0 mod 8 = 0 → mem_max_addr st0 < 2 ^ 62 →
  ∃ st r,
    mm_init st0 = Some (st, r)
    ∧ (r = 0 ↔ mem_brk st0 + 304 <= mem_max_addr st0)
    ∧ (r = 0 →
       (∃ fl, rep st [(INITSIZE, false)] fl
              ∧ linked (heap_ptr st + WSIZE) [(INITSIZE, false)] fl [])
       ∧ heap_ptr st = mem_brk st0 + 144 ∧ mem_brk st = mem_brk st0 + 304)
    ∧ (r ≠ 0 → r = -1)
    ∧ (mem_max_addr st0 < mem_brk st0 + 160 →
       mem st = mem st0 ∧ mem_brk st = mem_brk st0 ∧ heap_ptr st = MINUS1)
    ∧ (mem_brk st0 + 160 <= mem_max_addr st0 < mem_brk st0 + 304 →
       mem_brk st = mem_brk st0 + 160 ∧ rep st [] (λ _, [])).
Proof.
  intros H0 Hm H2.
  destruct (Z.lt_ge_cases (mem_max_addr st0) (mem_brk st0 + 160)) as [Hno|Hdir].
  - eexists _, _. split; [by apply mm_init_no_directory|].
    split; [split; [done|lia]|]. split; [done|]. split; [done|]. split; [done|lia].
  - destruct (Z.lt_ge_cases (mem_max_addr st0) (mem_brk st0 + 304)) as [Hnb|Hroom].
    + eexists _, _. split; [by apply mm_init_no_block|].
      split; [split; [done|lia]|]. split; [done|]. split; [done|]. split; [lia|].
      intros _. destruct (formatted_rep st0) as (Hrep & _ & _ & E2 & _); [lia..|]. done.
    + destruct (mm_init_layout st0) as (st & fl & Hinit & Hrep & Hlinked & E1 & E2 & _);
        [lia..|].
      exists st, 0. split; [done|]. split; [done|].
      split; [intros _; split; [by exists fl|done]|]. split; [done|]. split; lia.
Qed.

Lemma mm_init_outcome_witness :
  ∃ st r,
    mm_init (mkHeap ∅ NULL 1024 1200) = Some (st, r)
    ∧ (r = 0 ↔ 1024 + 304 <= 1200)
    ∧ (r = 0 →
       (∃ fl, rep st [(INITSIZE, false)] fl
              ∧ linked (heap_ptr st + WSIZE) [(INITSIZE, false)] fl [])
       ∧ heap_ptr st = 1024 + 144 ∧ mem_brk st = 1024 + 304)
    ∧ (r ≠ 0 → r = -1)
    ∧ (1200 < 1024 + 160 → mem st = ∅ ∧ mem_brk st = 1024 ∧ heap_ptr st = MINUS1)
    ∧ (1024 + 160 <= 1200 < 1024 + 304 →
       mem_brk st = 1024 + 160 ∧ rep st [] (λ _, [])).
Proof.
  apply (mm_init_outcome (mkHeap ∅ NULL 1024 1200)); [cbn; lia|reflexivity|cbn; lia].
Defined.

(** ** No two free neighbours *)

Lemma tight_next_alloc st bl fl b s :
  rep st bl fl → tight bl = true → blk_at (heap_ptr st + WSIZE) bl b s false →
  GET_ALLOC st (HDRP (NEXT_BLKP st b)) = 1.
Proof.
  intros Hrep Ht Hb.
  pose proof (rep_GET_SIZE st bl fl Hrep b s false Hb) as Hsize.
  assert (Hnx : NEXT_BLKP st b = b + s)
    by (unfold NEXT_BLKP; fold (HDRP b); by rewrite Hsize).
  rewrite Hnx.
  pose proof Hrep as (_ & Hts & Htot & Hepi & _).
  destruct (blk_at_split _ _ _ _ _ Hb) as (l1 & l2 & -> & ->).
  pose proof (next_header st _ l1 s false l2 Hts) as Hn.
  unfold tight in Ht. rewrite tight_from_app in Ht. simpl in Ht.
  apply andb_true_iff in Ht as [_ [_ Ht]%andb_true_iff].
  replace (HDRP (heap_ptr st + WSIZE + total l1 + 8 + s))
    with (heap_ptr st + WSIZE + total l1 + s) by (unfold HDRP, WSIZE; lia).
  destruct l2 as [|[s2 [|]] l2'].
  - rewrite total_app in Htot. simpl in Htot.
    replace (heap_ptr st + WSIZE + total l1 + s) with (mem_brk st - WSIZE) by lia.
    apply (GET_ALLOC_tag _ _ 0 true); [by rewrite Hepi|done].
  - destruct Hn as (Hh & Hm & _). by apply (GET_ALLOC_tag _ _ s2 true).
  - simpl in Ht. done.
Qed.

(** A reachable heap represents a layout without two free blocks in a row. *)
Lemma reachable_tight st :
  reachable st →
  ∃ bl fl, rep st bl fl ∧ linked (heap_ptr st + WSIZE) bl fl [] ∧ tight bl = true.
Proof.
  intros Hreach.
  induction Hreach as [st0 st H0 Hm H2 Hinit
                      |st n st' q _ IH Hn Hmal
                      |st p s st' _ IH Hp Hfree].
  - destruct (Z.lt_ge_cases (mem_max_addr st0) (mem_brk st0 + 160)) as [Hno|Hdir].
    { rewrite mm_init_no_directory in Hinit by done.
      apply Some_pair_inj in Hinit as [_ [=]]. }
    destruct (Z.lt_ge_cases (mem_max_addr st0) (mem_brk st0 + 304)) as [Hnb|Hroom].
    { rewrite mm_init_no_block in Hinit by lia.
      apply Some_pair_inj in Hinit as [_ [=]]. }
    destruct (mm_init_layout st0) as (st1 & fl & Hinit1 & Hrep & Hlinked & _); [lia..|].
    rewrite Hinit in Hinit1. apply Some_pair_inj in Hinit1 as [<- _].
    by exists [(INITSIZE, false)], fl.
  - destruct IH as (bl & fl & Hrep & Hlinked & Ht).
    destruct (mm_malloc_layout st bl fl n Hrep Hlinked Hn)
      as [(Hmal1 & _)
         |[(st1 & fl' & l1 & s & l2 & Ebl & _ & _ & Hmal1 & Hrep' & Hlinked' & Hstep & _)
          |(st1 & fl' & r1 & s2 & Ej & _ & _ & Hmal1 & Hrep' & Hlinked' & Hstep & _)]];
      rewrite Hmal in Hmal1; apply Some_pair_inj in Hmal1 as [<- _].
    + by exists bl, fl.
    + destruct Hstep as (EH & _).
      exists (placed l1 s (align_size n) l2), fl'. rewrite EH.
      split; [done|]. split; [done|]. apply tight_placed. by rewrite <- Ebl.
    + destruct Hstep as (EH & _).
      exists (placed r1 s2 (align_size n) []), fl'. rewrite EH.
      split; [done|]. split; [done|]. apply tight_placed.
      pose proof (tight_coalesced bl (Z.max (align_size n) 4112) [] Ht eq_refl) as Hc.
      unfold coalesced in Hc. simpl in Hc. by rewrite Ej in Hc.
  - destruct IH as (bl & fl & Hrep & Hlinked & Ht).
    apply (allocated_in st bl fl p s Hrep) in Hp.
    destruct (blk_at_split _ _ _ _ _ Hp) as (l1 & l2 & -> & Ep).
    destruct (mm_free_layout_at st fl l1 l2 s Hrep Hlinked)
      as (st1 & fl' & Hfree1 & Hrep' & Hlinked' & (EH & _) & _).
    rewrite <- Ep, Hfree in Hfree1. injection Hfree1 as <-.
    exists (coalesced l1 s l2), fl'. rewrite EH.
    split; [done|]. split; [done|]. by apply tight_freed.
Qed.

(** mm.c, lines 99-197.  In every heap reached from [mm_init] through
    [mm_malloc] and [mm_free] the blocks tile the region, every free block is
    on the list of its class, and no two adjacent blocks are both free: the
    header after a free block has its allocation bit set. *)
Theorem reachable_heap_is_coalesced st :
  reachable st →
  wf st ∧ ∀ b s, is_block st b s false → GET_ALLOC st (HDRP (NEXT_BLKP st b)) = 1.
Proof.
  intros Hreach.
  destruct (reachable_tight st Hreach) as (bl & fl & Hrep & Hlinked & Ht).
  split; [by exists bl, fl|].
  intros b s (bl0 & fl0 & Hrep0 & _ & Hb).
  rewrite <- (rep_layout_unique st bl fl bl0 fl0 Hrep Hrep0) in Hb.
  by apply (tight_next_alloc st bl fl b s).
Qed.

Lemma two_plain_reachable : reachable two_plain.
Proof.
  apply (reach_malloc one_plain 8 two_plain 1216); [|lia|exact two_plain_malloc].
  apply (reach_malloc fresh 8 one_plain 1184); [|lia|exact one_plain_malloc].
  apply (reach_init (mkHeap ∅ NULL 1024 65536) fresh);
    [cbn; lia|reflexivity|cbn; lia|exact fresh_init].
Qed.

Lemma reachable_heap_is_coalesced_witness :
  wf two_plain
  ∧ ∀ b s, is_block two_plain b s false →
           GET_ALLOC two_plain (HDRP (NEXT_BLKP two_plain b)) = 1.
Proof. exact (reachable_heap_is_coalesced two_plain two_plain_reachable). Defined.

(** mm.c, lines 150-170.  When the scan finds a class head, [mm_malloc]
    returns that very address and the break stays; when it finds none the
    break rises by exactly [MAX(need, CHUNKSIZE)] if that fits below the limit,
    and else the result is [NULL] from an unchanged heap.  [heap_ptr] and the
    limit never change. *)
Theorem mm_malloc_growth st n :
  wf st → 0 < n < 2 ^ 61 →
  ∃ st' q,
    mm_malloc st n = Some (st', q)
    ∧ heap_ptr st' = heap_ptr st ∧ mem_max_addr st' = mem_max_addr st
    ∧ (scan st (align_size n) (Z.to_nat LISTSIZE) 0 ≠ NULL →
       q = scan st (align_size n) (Z.to_nat LISTSIZE) 0 ∧ mem_brk st' = mem_brk st)
    ∧ (scan st (align_size n) (Z.to_nat LISTSIZE) 0 = NULL →
       if mem_brk st + MAX (align_size n) CHUNKSIZE <=? mem_max_addr st
       then q ≠ NULL ∧ mem_brk st' = mem_brk st + MAX (align_size n) CHUNKSIZE
       else q = NULL ∧ st' = st).
Proof.
  intros (bl & fl & Hrep & Hlinked) Hn.
  rewrite MAX_max. change CHUNKSIZE with 4112.
  destruct (mm_malloc_layout st bl fl n Hrep Hlinked Hn)
    as [(Hmal & Hscan & Hfull)
       |[(st' & fl' & l1 & s & l2 & Ebl & _ & Hscan & Hmal & Hrep' & _ & Hstep & Hbrk)
        |(st' & fl' & r1 & s2 & Ej & Hscan & Hroom & Hmal & Hrep' & _ & Hstep & Hbrk)]].
  - exists st, NULL. split; [done|]. split; [done|]. split; [done|].
    split; [done|]. intros _.
    by replace (mem_brk st + Z.max (align_size n) 4112 <=? mem_max_addr st) with false
      by (symmetry; lia).
  - exists st', (heap_ptr st + WSIZE + total l1 + 8).
    destruct Hstep as (EH & EM & _).
    split; [done|]. split; [done|]. split; [done|].
    split; [done|]. intros Hnull. exfalso.
    pose proof (rep_sized st bl fl Hrep) as Hsz. rewrite Ebl in Hsz.
    apply sized_app in Hsz as [Hsz _]. pose proof (total_nonneg l1 Hsz).
    pose proof Hrep as ((? & _) & _). unfold NULL, WSIZE in *. lia.
  - exists st', (heap_ptr st + WSIZE + total r1 + 8).
    destruct Hstep as (EH & EM & _).
    split; [done|]. split; [done|]. split; [done|].
    split; [done|]. intros _.
    replace (mem_brk st + Z.max (align_size n) 4112 <=? mem_max_addr st) with true
      by (symmetry; lia).
    split; [|done].
    pose proof (rep_sized st' _ fl' Hrep') as Hsz.
    assert (Hsr : sized r1).
    { unfold placed in Hsz. destruct (4 * WSIZE <=? s2 - align_size n);
        by apply sized_app in Hsz as [? _]. }
    pose proof (total_nonneg r1 Hsr). pose proof Hrep as ((? & _) & _).
    unfold NULL, WSIZE. lia.
Qed.

Lemma mm_malloc_growth_witness :
  ∃ st' q,
    mm_malloc fresh 8 = Some (st', q)
    ∧ heap_ptr st' = heap_ptr fresh ∧ mem_max_addr st' = mem_max_addr fresh
    ∧ (scan fresh (align_size 8) (Z.to_nat LISTSIZE) 0 ≠ NULL →
       q = scan fresh (align_size 8) (Z.to_nat LISTSIZE) 0 ∧ mem_brk st' = mem_brk fresh)
    ∧ (scan fresh (align_size 8) (Z.to_nat LISTSIZE) 0 = NULL →
       if mem_brk fresh + MAX (align_size 8) CHUNKSIZE <=? mem_max_addr fresh
       then q ≠ NULL ∧ mem_brk st' = mem_brk fresh + MAX (align_size 8) CHUNKSIZE
       else q = NULL ∧ st' = fresh).
Proof.
  assert (H : 0 < 8 < 2 ^ 61) by lia.
  exact (mm_malloc_growth fresh 8 fresh_wf H).
Defined.

(** ** [mm_realloc] and the invariant *)

Section Absorb.
Context (st : heap) (fl : Z → list Z) (l1 l2 : layout) (s sx need rem : Z).
Let a := heap_ptr st + WSIZE.
Let p := a + total l1 + 8.
Let bl := l1 ++ [(s, true); (sx, false)] ++ l2.
Hypothesis Hrep : rep st bl fl.
Hypothesis Hlinked : linked a bl fl [].
Hypothesis HT : need + rem = s + sx.

(** Case 1-b of [mm_realloc] when the header it writes ends the block where
  the right neighbour ended: the two blocks become one allocated block. *)
Lemma absorb_next_layout :
∃ fl',
  rep (absorb_next st p need rem) (l1 ++ [(s + sx, true)] ++ l2) fl'
  ∧ linked a (l1 ++ [(s + sx, true)] ++ l2) fl' []
  ∧ same_region st (absorb_next st p need rem)
  ∧ keeps (λ w, free_space st bl w ∨ w = p - 8) st (absorb_next st p need rem).
Proof.
assert (Hp : blk_at a bl p s true) by (apply blk_at_app; right; by left).
assert (Hx : blk_at a bl (p + s) sx false).
{ apply blk_at_app. right. simpl. right. left. unfold p. split; [lia|done]. }
pose proof (rep_blk_bounds st bl fl Hrep p s true Hp) as (Hb1 & Hb2 & Hs1 & Hs2).
pose proof (rep_blk_bounds st bl fl Hrep _ sx false Hx) as (Hx1 & Hx2 & Hx3 & Hx4).
pose proof (rep_GET_SIZE st bl fl Hrep p s true Hp) as Hsize.
pose proof Hrep as ((HH & _ & Hbrk & Hmax & _) & _).
assert (Hnx : NEXT_BLKP st p = p + s)
  by (unfold NEXT_BLKP; fold (HDRP p); by rewrite Hsize).
pose proof Hlinked as (_ & Hcomp & _).
destruct (Hcomp _ sx Hx) as [HU|Hin]; [by apply elem_of_nil in HU|].
destruct (pop_free_rep st bl fl [] Hrep Hlinked _ sx Hx Hin)
  as (fl1 & Hrep1 & Hlinked1 & Hk1).
pose proof (pop_free_region st (p + s)) as Hr1. pose proof Hr1 as (EH1 & Eb1 & Em1).
unfold absorb_next. rewrite Hnx.
set (st1 := pop_free st (p + s)) in *.
assert (Ha1 : heap_ptr st1 + WSIZE = a) by (unfold a; by rewrite EH1).
assert (Hlinked1' : linked (heap_ptr st1 + WSIZE) bl fl1 [p + s])
  by (rewrite Ha1; exact Hlinked1).
rewrite HT.
replace (wrap64 (s + sx)) with (s + sx) by (unfold wrap64; zdiv).
rewrite PACK_1 by zdiv.
set (st2 := PUT st1 (HDRP p) (s + sx + 1)).
assert (Hsize2 : GET_SIZE st2 (HDRP p) = s + sx)
  by (unfold st2; apply GET_SIZE_PUT_eq; [zdiv|lia]).
replace (FTRP st2 p) with (p + s + sx - 16)
  by (unfold FTRP, DSIZE, WSIZE; rewrite Hsize2; lia).
set (st3 := PUT st2 (p + s + sx - 16) (s + sx + 1)).
assert (Hr3 : same_region st1 st3).
{ unfold st3, st2. repeat apply same_region_PUT_r. apply same_region_refl. }
assert (HmidU : ∀ x sz, blk_at (heap_ptr st1 + WSIZE + total l1)
                          [(s, true); (sx, false)] x sz false → x ∈ [p + s]).
{ rewrite Ha1. intros x sz Hz. simpl in Hz.
  destruct Hz as [(_ & _ & [=])|[(-> & _)|[]]]. apply elem_of_one. unfold p. lia. }
exists fl1. split; [|split; [|split]].
- apply (rep_retag st1 fl1 [p + s] l1 [(s, true); (sx, false)] [(s + sx, true)] l2
           Hrep1 Hlinked1').
  + simpl. lia.
  + exact HmidU.
  + exact Hr3.
  + rewrite Ha1. intros w Hw. simpl in Hw. unfold st3, st2. words.
    unfold p in *. rewrite !GET_PUT_ne by lia. done.
  + rewrite Ha1. simpl. unfold st3, st2, tag. words. unfold p.
    split; [lia|]. split; [zdiv|]. split; [get_put; lia|]. split; [get_put; lia|done].
- rewrite <- Ha1.
  apply (linked_retag st1 fl1 [p + s] l1 [(s, true); (sx, false)] [(s + sx, true)] l2
           Hrep1 Hlinked1').
  + simpl. lia.
  + exact HmidU.
  + intros x sz Hz. simpl in Hz. destruct Hz as [(_ & _ & [=])|[]].
  + rewrite Ha1. intros x Hxu. apply elem_of_one in Hxu as ->. right. simpl.
    unfold p. lia.
  + intros x Hxu. by apply elem_of_nil in Hxu.
- eapply same_region_trans; [exact Hr1|exact Hr3].
- intros w Hw.
  assert (w ≠ p - 8 ∧ w ≠ p + s + sx - 16) as [N1 N2].
  { split; [intros ->; apply Hw; by right|].
    intros ->. apply Hw. left. right. right. exists (p + s), sx. split; [done|lia]. }
  unfold st3, st2. words. get_put. apply Hk1. intros HF. apply Hw. by left.
Qed.
End Absorb.

Lemma sized_total_0 l : sized l → total l = 0 → l = [].
Proof.
  destruct l as [|[s al] r]; [done|]. intros Hs Ht.
  apply Forall_cons in Hs as [[? _] Hr]. pose proof (total_nonneg r Hr).
  simpl in *. lia.
Qed.

(** Case 1 of [mm_realloc] outside that situation, with the layout it
    leaves. *)
Lemma in_place_layout st fl l1 l2 s n :
  let a := heap_ptr st + WSIZE in
  let p := a + total l1 + 8 in
  let bl := l1 ++ (s, true) :: l2 in
  rep st bl fl → linked a bl fl [] →
  n ≠ 0 → s < align_size n → align_size n < 2 ^ 31 →
  mem_brk st - heap_ptr st < 2 ^ 31 →
  mem_brk st + Z.max 4112 (align_size n) <= mem_max_addr st →
  GET_ALLOC st (HDRP (NEXT_BLKP st p)) = 0
  ∨ GET_SIZE st (HDRP (NEXT_BLKP st p)) = 0 →
  ¬ realloc_overruns st p n →
  ∃ st' fl' T l2',
    mm_realloc st p n = Some (st', p)
    ∧ rep st' (l1 ++ (T, true) :: l2') fl'
    ∧ linked a (l1 ++ (T, true) :: l2') fl' []
    ∧ align_size n <= T ∧ heap_ptr st' = heap_ptr st
    ∧ (∀ z sz, blk_at (a + total l1 + s) l2 z sz true →
               blk_at (a + total l1 + T) l2' z sz true)
    ∧ keeps (λ w, free_space st bl w ∨ w = p - 8) st st'.
Proof.
  cbv zeta. intros Hrep Hlinked Hn Hs Hneed Hsmall Hroom Hnext Hsafe.
  destruct (align_size_props n) as (Hm & Hlo & _).
  set (need := align_size n) in *.
  set (a := heap_ptr st + WSIZE) in *.
  set (p := a + total l1 + 8) in *.
  assert (Hp : blk_at a (l1 ++ (s, true) :: l2) p s true) by apply blk_at_middle.
  pose proof (rep_blk_bounds st _ fl Hrep p s true Hp) as (Hb1 & Hb2 & Hb3 & Hb4).
  pose proof (rep_GET_SIZE st _ fl Hrep p s true Hp) as Hold.
  pose proof Hrep as ((HH & _ & Hbrk & Hmax & _) & Hts & Htot & Hepi & _).
  pose proof (rep_sized st _ fl Hrep) as Hsz.
  apply sized_app in Hsz as [Hsz1 Hsz2]. apply Forall_cons in Hsz2 as [_ Hsz2].
  assert (Hnx : NEXT_BLKP st p = p + s)
    by (unfold NEXT_BLKP; fold (HDRP p); by rewrite Hold).
  rewrite Hnx in Hnext.
  assert (Hhd : HDRP (p + s) = a + total l1 + s) by (unfold HDRP, WSIZE, p; lia).
  pose proof (next_header st a l1 s true l2 Hts) as Hnh.
  rewrite total_app in Htot. simpl in Htot.
  (* the heap after the growth, if any *)
  assert (Hgrow : ∃ nxt ext st1 fl1 sx l2',
             GET_SIZE st (HDRP (p + s)) = nxt ∧ 0 <= nxt ∧ s + nxt < 2 ^ 31
             ∧ ext = (if s + nxt <? need then MAX CHUNKSIZE (need - s - nxt) else 0)
             ∧ grown st ext st1
             ∧ rep st1 (l1 ++ [(s, true); (sx, false)] ++ l2') fl1
             ∧ linked a (l1 ++ [(s, true); (sx, false)] ++ l2') fl1 []
             ∧ heap_ptr st1 = heap_ptr st
             ∧ keeps (free_space st (l1 ++ (s, true) :: l2)) st st1
             ∧ (∀ w, free_space st1 (l1 ++ [(s, true); (sx, false)] ++ l2') w →
                     free_space st (l1 ++ (s, true) :: l2) w)
             ∧ s + nxt + ext = s + sx ∧ need <= s + sx
             ∧ (∀ z sz, blk_at (a + total l1 + s) l2 z sz true →
                        blk_at (a + total l1 + (s + sx)) l2' z sz true)).
  { assert (Hext : ∀ nxt, 0 <= nxt → nxt mod 8 = 0 → s + nxt < need →
               let ext := MAX CHUNKSIZE (need - s - nxt) in
               ext = Z.max 4112 (need - s - nxt) ∧ ALIGN ext = ext
               ∧ 32 <= ext ∧ ext mod 8 = 0 ∧ mem_brk st + ext <= mem_max_addr st).
    { intros nxt H0 H8 Hlt. cbv zeta. rewrite MAX_CHUNKSIZE.
      split; [done|]. split; [apply ALIGN_aligned; [zdiv|lia]|].
      split; [lia|]. split; [zdiv|lia]. }
    destruct l2 as [|[s2 al2] l2'].
    - (* the epilogue follows *)
      simpl in Htot.
      assert (Hnxt : GET_SIZE st (HDRP (p + s)) = 0).
      { rewrite Hhd. replace (a + total l1 + s) with (mem_brk st - WSIZE) by (unfold a; lia).
        rewrite PACK_0_1 in Hepi. by rewrite (GET_SIZE_tag _ _ 0 true Hepi). }
      destruct (Hext 0) as (Ee & Hal & He1 & He2 & He3); [lia|done|lia|].
      replace (need - s - 0) with (need - s) in * by lia.
      set (ext := MAX CHUNKSIZE (need - s)) in *.
      destruct (extend_heap_layout st _ fl ext Hrep Hlinked)
        as (st1 & fl1 & Hex & Hrep1 & Hlinked1 & Hstep1 & _);
        [by rewrite Hal|by rewrite Hal|].
      rewrite Hal in Hex, Hrep1, Hlinked1, Hstep1.
      assert (Ej : join_prev (l1 ++ [(s, true)]) ext = (l1 ++ [(s, true)], ext))
        by apply join_prev_alloc.
      assert (Ec : coalesced (l1 ++ [(s, true)]) ext []
                   = l1 ++ [(s, true); (ext, false)] ++ []).
      { unfold coalesced. simpl. rewrite Ej. simpl. by rewrite <- app_assoc. }
      rewrite Ec in Hrep1, Hlinked1, Hstep1.
      destruct Hstep1 as (EH & _ & _ & Hk & Hf & _).
      exists 0, ext, st1, fl1, ext, [].
      split; [done|]. split; [lia|]. split; [lia|].
      split; [replace (s + 0 <? need) with true by (symmetry; lia);
              unfold ext; f_equal; lia|].
      split.
      { unfold grown. replace (ext =? 0) with false by (symmetry; lia).
        eexists. split; [exact Hex|]. rewrite Ej. simpl.
        unfold NULL, a, WSIZE in *. pose proof (total_nonneg l1 Hsz1).
        rewrite total_app. simpl. lia. }
      split; [done|]. split; [done|]. split; [done|]. split; [done|].
      split; [done|]. split; [lia|]. split; [lia|]. intros z sz [].
    - destruct Hnh as (Hh & Hm2 & Hs2).
      rewrite <- Hhd in Hh.
      assert (Hnxt : GET_SIZE st (HDRP (p + s)) = s2) by (by apply (GET_SIZE_tag _ _ s2 al2)).
      assert (Hal2 : GET_ALLOC st (HDRP (p + s)) = if al2 then 1 else 0)
        by (by apply (GET_ALLOC_tag _ _ s2 al2)).
      destruct al2; [rewrite Hal2, Hnxt in Hnext; lia|].
      simpl in Htot. pose proof (total_nonneg l2' (proj2 (proj1 (Forall_cons _ _ _) Hsz2))) as Ht2.
      destruct (Z.ltb_spec (s + s2) need) as [Hlt|Hge].
      + (* the neighbour is too small: it is the last block *)
        assert (El2 : l2' = []).
        { apply sized_total_0; [by apply Forall_cons in Hsz2 as [_ ?]|].
          destruct (Z.eq_dec (total l2') 0) as [|Hne]; [done|]. exfalso.
          apply Hsafe. unfold realloc_overruns.
          rewrite Hold, Hnx, Hal2, Hnxt.
          split; [done|]. split; [done|]. split; [done|].
          unfold NEXT_BLKP. fold (HDRP (p + s)). rewrite Hnxt.
          unfold p, a, WSIZE in *. lia. }
        subst l2'. simpl in Htot.
        destruct (Hext s2) as (Ee & Hal & He1 & He2 & He3); [lia|done|lia|].
        set (ext := MAX CHUNKSIZE (need - s - s2)) in *.
        destruct (extend_heap_layout st _ fl ext Hrep Hlinked)
          as (st1 & fl1 & Hex & Hrep1 & Hlinked1 & Hstep1 & _);
          [by rewrite Hal|by rewrite Hal|].
        rewrite Hal in Hex, Hrep1, Hlinked1, Hstep1.
        assert (Ebl : l1 ++ [(s, true); (s2, false)] = (l1 ++ [(s, true)]) ++ [(s2, false)])
          by (by rewrite <- app_assoc).
        assert (Ej : join_prev (l1 ++ [(s, true); (s2, false)]) ext
                     = (l1 ++ [(s, true)], s2 + ext))
          by (rewrite Ebl; apply join_prev_free).
        assert (Ec : coalesced (l1 ++ [(s, true); (s2, false)]) ext []
                     = l1 ++ [(s, true); (s2 + ext, false)] ++ []).
        { unfold coalesced. simpl. rewrite Ej. simpl. by rewrite <- app_assoc. }
        rewrite Ec in Hrep1, Hlinked1, Hstep1.
        destruct Hstep1 as (EH & _ & _ & Hk & Hf & _).
        exists s2, ext, st1, fl1, (s2 + ext), [].
        split; [done|]. split; [lia|]. split; [unfold a, p, WSIZE in *; lia|].
        split; [by replace (s + s2 <? need) with true by (symmetry; lia)|].
        split.
        { unfold grown. replace (ext =? 0) with false by (symmetry; lia).
          eexists. split; [exact Hex|]. rewrite Ej. simpl.
          unfold NULL, a, WSIZE in *. pose proof (total_nonneg l1 Hsz1).
          rewrite total_app. simpl. lia. }
        split; [done|]. split; [done|]. split; [done|]. split; [done|].
        split; [done|]. split; [lia|]. split; [lia|].
        intros z sz Hz. simpl in Hz. by destruct Hz as [(_ & _ & [=])|[]].
      + (* the neighbour is large enough *)
        exists s2, 0, st, fl, s2, l2'.
        split; [done|]. split; [lia|]. split; [unfold a, p, WSIZE in *; lia|].
        split; [by replace (s + s2 <? need) with false by (symmetry; lia)|].
        split; [done|]. split; [done|]. split; [done|]. split; [done|].
        split; [apply keeps_refl|]. split; [done|]. split; [lia|]. split; [lia|].
        intros z sz Hz. simpl in Hz. destruct Hz as [(_ & _ & [=])|Hz].
        by replace (a + total l1 + (s + s2)) with (a + total l1 + s + s2) by lia. }
  destruct Hgrow as (nxt & ext & st1 & fl1 & sx & l2' & Hnxt & Hn0 & Hsum & Eext & Hgr
                     & Hrep1 & Hlinked1 & EH & Hk & Hf & HT & HTn & Hl2).
  pose proof (mm_realloc_in_place st p n st1) as Hin. cbv zeta in Hin.
  rewrite Hnx, Hold, Hnxt in Hin. fold need in Hin. rewrite <- Eext in Hin.
  assert (Ha1 : heap_ptr st1 + WSIZE = a) by (unfold a; by rewrite EH).
  rewrite <- Ha1 in Hlinked1.
  destruct (absorb_next_layout st1 fl1 l1 l2' s sx need (s + nxt + ext - need)
              Hrep1 Hlinked1 ltac:(lia))
    as (fl' & Hrep' & Hlinked' & Hreg' & Hk').
  rewrite Ha1 in Hrep', Hlinked', Hk', Hreg'. fold p in Hrep', Hk', Hreg'.
  destruct Hreg' as (EH' & _).
  exists (absorb_next st1 p need (s + nxt + ext - need)), fl', (s + sx), l2'.
  split.
  { apply Hin; [exact Hn|lia|lia|lia|lia| |exact Hgr].
    rewrite <- Hnxt. tauto. }
  split; [exact Hrep'|]. split; [exact Hlinked'|]. split; [lia|].
  split; [congruence|]. split; [exact Hl2|].
  intros w Hw. rewrite Hk'; [apply Hk; tauto|].
  intros [HF|E]; apply Hw; [left; by apply Hf|by right].
Qed.

(** Case 2 of [mm_realloc] when [mm_malloc] has room. *)
Lemma move_block_wf st bl fl p s need :
  rep st bl fl → linked (heap_ptr st + WSIZE) bl fl [] →
  blk_at (heap_ptr st + WSIZE) bl p s true →
  s < need → need mod 8 = 0 → 0 < need < 2 ^ 61 →
  mem_brk st + Z.max (align_size need) 4112 <= mem_max_addr st →
  ∃ st' q bl' fl' sq,
    move_block st p need = Some (st', q) ∧ q ≠ NULL
    ∧ rep st' bl' fl' ∧ linked (heap_ptr st + WSIZE) bl' fl' []
    ∧ heap_ptr st' = heap_ptr st
    ∧ blk_at (heap_ptr st + WSIZE) bl' q sq true ∧ need <= sq
    ∧ (∀ z sz, blk_at (heap_ptr st + WSIZE) bl z sz true → z ≠ p →
               blk_at (heap_ptr st + WSIZE) bl' z sz true
               ∧ (∀ w, z <= w < z + sz - 16 → GET st' w = GET st w)
               ∧ (z + sz <= q ∨ q + sq <= z)).
Proof.
  intros Hrep Hlinked Hp Hs Hm Hneed Hroom.
  destruct (mm_malloc_rep st bl fl need Hrep Hlinked Hneed)
    as (st1 & q & Hmal & [(_ & _ & Hfull)|(Hq & Hd)]); [lia|].
  destruct Hd as (bl1 & fl1 & sq & Hrep1 & Hlinked1 & Hstep1 & Hbq & Hsq & Hcover).
  pose proof (align_size_small need ltac:(lia)) as Hal.
  pose proof Hstep1 as (EH & _ & _ & Hkeep1 & _ & Halloc).
  pose proof (Halloc p s Hp) as Hp1.
  rewrite <- EH in Hlinked1, Hbq, Hp1.
  pose proof (rep_blk_bounds st bl fl Hrep p s true Hp) as Hbp.
  pose proof (rep_blk_bounds st1 bl1 fl1 Hrep1 q sq true Hbq) as Hbq'.
  pose proof (rep_sized st1 bl1 fl1 Hrep1) as Hsz1.
  assert (Hdis : p - 8 + s <= q - 8 ∨ q - 8 + sq <= p - 8).
  { destruct (blk_at_disjoint _ _ _ _ _ _ _ _ Hsz1 Hp1 Hbq) as [(_ & ? & _)|H]; [lia|exact H]. }
  unfold move_block. rewrite Hmal. cbn [mbind option_bind].
  rewrite (rep_GET_SIZE st1 bl1 fl1 Hrep1 p s true Hp1).
  unfold memcpy, WSIZE.
  set (k := Z.to_nat (s / 8)).
  assert (Hk : 8 * Z.of_nat k = s) by (unfold k; zdiv).
  clearbody k.
  destruct (copy_words_spec k st1 q p) as (Hr2 & Ho2 & _); [lia|].
  set (st2 := copy_words st1 k q p) in *.
  pose proof Hr2 as (EH2 & _).
  assert (Hrep2 : rep st2 bl1 fl1).
  { apply (rep_keep_payload st1 bl1 fl1 st2 Hrep1 Hlinked1 Hr2).
    intros w Hw. apply Ho2. intros Hin. apply Hw. exists q, sq. split; [done|zdiv]. }
  rewrite <- EH2 in Hlinked1, Hbq, Hp1.
  destruct (mm_free_rep st2 bl1 fl1 p s Hrep2 Hlinked1 Hp1)
    as (st3 & bl3 & fl3 & Hfree & Hrep3 & Hlinked3 & (EH3 & _) & Hkeep3 & Halloc3).
  rewrite Hfree. cbn [mbind option_bind].
  rewrite EH2, EH in *.
  exists st3, q, bl3, fl3, sq.
  split; [done|]. split; [done|]. split; [done|]. split; [done|].
  split; [congruence|]. split; [apply Halloc3; [done|lia]|]. split; [lia|].
  intros z sz Hz Hzp.
  pose proof (Halloc z sz Hz) as Hz1.
  assert (Hzq : z ≠ q).
  { intros ->. apply (alloc_not_free st bl fl q sz (q - 8) Hrep Hz).
    - pose proof (rep_blk_bounds st bl fl Hrep q sz true Hz). lia.
    - apply Hcover. lia. }
  assert (Hzq' : z - 8 + sz <= q - 8 ∨ q - 8 + sq <= z - 8).
  { destruct (blk_at_disjoint _ _ _ _ _ _ _ _ Hsz1 Hz1 Hbq) as [(? & _)|?]; done. }
  assert (Hzp' : z - 8 + sz <= p - 8 ∨ p - 8 + s <= z - 8).
  { destruct (blk_at_disjoint _ _ _ _ _ _ _ _ Hsz1 Hz1 Hp1) as [(? & _)|?]; done. }
  split; [by apply Halloc3|]. split; [|lia].
  intros w Hw. rewrite Hkeep3.
  - rewrite Ho2 by lia. apply Hkeep1.
    apply (alloc_not_free st bl fl z sz _ Hrep Hz). lia.
  - intros [Hf|Hin]; [|lia].
    revert Hf. apply (alloc_not_free st2 bl1 fl1 z sz _ Hrep2).
    + by rewrite EH2.
    + lia.
Qed.

(** mm.c, lines 202-245.  In a heap smaller than [2 ^ 31] bytes and for a
    request that rounds to less than [2 ^ 31] bytes (the sizes that the [int]
    holding [rem_size] can take), with room below the limit and outside the
    one situation of [realloc_overruns], [mm_realloc] with a size other than 0
    returns an allocated block that is large enough, in a well-formed heap
    where every other allocated block is still allocated, keeps its payload
    and does not overlap the returned block. *)
Theorem mm_realloc_keeps_invariant st p s n :
  allocated st p s → n ≠ 0 → align_size n < 2 ^ 31 →
  mem_brk st - heap_ptr st < 2 ^ 31 →
  mem_brk st + align_size n + 4112 <= mem_max_addr st →
  ¬ realloc_overruns st p n →
  ∃ st' q sq,
    mm_realloc st p n = Some (st', q) ∧ q ≠ NULL
    ∧ wf st' ∧ allocated st' q sq ∧ align_size n <= sq ∧ s <= sq
    ∧ (∀ z sz, allocated st z sz → z ≠ p →
               allocated st' z sz
               ∧ (∀ w, z <= w < z + sz - 16 → GET st' w = GET st w)
               ∧ (z + sz <= q ∨ q + sq <= z)).
Proof.
  intros (bl & fl & Hrep & Hlinked & Hp) Hn Hneed Hsmall Hroom Hsafe.
  destruct (align_size_props n) as (Hm & Hlo & _).
  pose proof (rep_blk_bounds st bl fl Hrep p s true Hp) as (Hb1 & Hb2 & Hb3 & Hb4).
  pose proof Hrep as ((Hh & _) & _).
  pose proof (rep_GET_SIZE st bl fl Hrep p s true Hp) as Hold.
  pose proof (rep_sized st bl fl Hrep) as Hsz.
  destruct (Z.le_gt_cases (align_size n) s) as [Hle|Hgt].
  - (* the block is large enough *)
    exists st, p, s. split.
    { unfold mm_realloc. replace (n =? 0) with false by (symmetry; lia).
      rewrite Hold. by replace (align_size n <=? s) with true by (symmetry; lia). }
    split; [unfold NULL; lia|]. split; [by exists bl, fl|].
    split; [by exists bl, fl|]. split; [done|]. split; [lia|].
    intros z sz Hz Hzp. split; [done|]. split; [done|].
    apply (allocated_in st bl fl z sz Hrep) in Hz.
    destruct (blk_at_disjoint _ _ _ _ _ _ _ _ Hsz Hz Hp) as [(? & _)|?]; [done|lia].
  - destruct ((GET_ALLOC st (HDRP (NEXT_BLKP st p)) =? 0)
              || (GET_SIZE st (HDRP (NEXT_BLKP st p)) =? 0)) eqn:Hcond.
    + (* case 1: in place *)
      apply orb_true_iff in Hcond.
      destruct (blk_at_split _ _ _ _ _ Hp) as (l1 & l2 & Ebl & Ep). subst bl.
      rewrite Ep in Hcond, Hsafe.
      destruct (in_place_layout st fl l1 l2 s n Hrep Hlinked Hn Hgt Hneed Hsmall)
        as (st' & fl' & T & l2' & Hre & Hrep' & Hlinked' & HT & EH & Hl2 & Hk);
        [lia|lia|done|].
      rewrite <- Ep in Hre, Hk.
      assert (Hq : blk_at (heap_ptr st + WSIZE) (l1 ++ (T, true) :: l2') p T true)
        by (rewrite Ep; apply blk_at_middle).
      exists st', p, T. split; [done|]. split; [unfold NULL; lia|].
      split; [exists (l1 ++ (T, true) :: l2'), fl'; by rewrite EH|].
      split; [exists (l1 ++ (T, true) :: l2'), fl'; by rewrite EH|].
      split; [done|]. split; [lia|].
      intros z sz Hz Hzp.
      apply (allocated_in st _ fl z sz Hrep) in Hz.
      assert (Hz' : blk_at (heap_ptr st + WSIZE) (l1 ++ (T, true) :: l2') z sz true).
      { apply blk_at_app in Hz as [Hz|Hz]; apply blk_at_app; [by left|right].
        simpl in Hz. destruct Hz as [(-> & _)|Hz]; [by rewrite Ep in Hzp|].
        simpl. right. by apply Hl2. }
      pose proof (rep_sized st' _ fl' Hrep') as Hsz'.
      split; [exists (l1 ++ (T, true) :: l2'), fl'; by rewrite EH|].
      split.
      * intros w Hw. apply Hk. intros [HF|E].
        -- revert HF. apply (alloc_not_free st _ fl z sz _ Hrep Hz). lia.
        -- destruct (blk_at_disjoint _ _ _ _ _ _ _ _ Hsz Hz Hp) as [(? & _)|?]; [done|lia].
      * destruct (blk_at_disjoint _ _ _ _ _ _ _ _ Hsz' Hz' Hq) as [(? & _)|?]; [done|lia].
    + (* case 2: the block moves *)
      assert (Hmove : mm_realloc st p n = move_block st p (align_size n)).
      { unfold mm_realloc. rewrite Hcond.
        replace (n =? 0) with false by (symmetry; lia).
        replace (align_size n <=? GET_SIZE st (HDRP p)) with false by (symmetry; lia).
        reflexivity. }
      rewrite Hmove.
      pose proof (align_size_small (align_size n) ltac:(lia)) as Hal.
      destruct (move_block_wf st bl fl p s (align_size n) Hrep Hlinked Hp Hgt Hm)
        as (st' & q & bl' & fl' & sq & Hmv & Hq & Hrep' & Hlinked' & EH & Hbq & Hsq & Hothers);
        [lia|lia|].
      exists st', q, sq. split; [done|]. split; [done|].
      split; [exists bl', fl'; by rewrite EH|].
      split; [exists bl', fl'; by rewrite EH|].
      split; [done|]. split; [lia|].
      intros z sz Hz Hzp.
      apply (allocated_in st bl fl z sz Hrep) in Hz.
      destruct (Hothers z sz Hz Hzp) as (H1 & H2 & H3).
      split; [exists bl', fl'; by rewrite EH|]. done.
Qed.

Lemma two_blocks_no_overrun : ¬ realloc_overruns two_blocks 1184 100.
Proof. intros (_ & H & _). vm_compute in H. discriminate. Qed.

Lemma mm_realloc_keeps_invariant_witness :
  ∃ st' q sq,
    mm_realloc two_blocks 1184 100 = Some (st', q) ∧ q ≠ NULL
    ∧ wf st' ∧ allocated st' q sq ∧ align_size 100 <= sq ∧ 32 <= sq
    ∧ (∀ z sz, allocated two_blocks z sz → z ≠ 1184 →
               allocated st' z sz
               ∧ (∀ w, z <= w < z + sz - 16 → GET st' w = GET two_blocks w)
               ∧ (z + sz <= q ∨ q + sq <= z)).
Proof.
  assert (H0 : 100 ≠ 0) by discriminate.
  assert (H1 : align_size 100 < 2 ^ 31) by (vm_compute; reflexivity).
  assert (H2 : mem_brk two_blocks - heap_ptr two_blocks < 2 ^ 31)
    by (vm_compute; reflexivity).
  assert (H3 : mem_brk two_blocks + align_size 100 + 4112 <= mem_max_addr two_blocks)
    by (vm_compute; discriminate).
  exact (mm_realloc_keeps_invariant two_blocks 1184 32 100 two_blocks_allocated
           H0 H1 H2 H3 two_blocks_no_overrun).
Defined.

(** ** The macros: tags, rounding and the walk from block to block *)

(** mm.c, lines 50-58.  A tag packed from a size that is a multiple of eight
    and an allocation bit, once written, reads back as that size and that bit;
    the other words of the memory read as before. *)
Theorem boundary_tag_round_trip st p size alloc :
  size mod 8 = 0 → 0 <= alloc <= 1 →
  GET_SIZE (PUT st p (PACK size alloc)) p = size
  ∧ GET_ALLOC (PUT st p (PACK size alloc)) p = alloc
  ∧ (∀ q, q ≠ p → GET (PUT st p (PACK size alloc)) q = GET st q).
Proof.
  intros Hm Ha.
  assert (E : PACK size alloc = size + alloc).
  { destruct (Z.eq_dec alloc 0) as [->|]; [rewrite PACK_0; lia|].
    replace alloc with 1 by lia. by apply PACK_1. }
  rewrite E. split; [apply GET_SIZE_PUT_eq; [done|lia]|].
  split; [apply GET_ALLOC_PUT_eq; [done|lia]|].
  intros q Hq. apply GET_PUT_ne. congruence.
Qed.

Lemma boundary_tag_round_trip_witness :
  GET_SIZE (PUT fresh 1184 (PACK 48 1)) 1184 = 48
  ∧ GET_ALLOC (PUT fresh 1184 (PACK 48 1)) 1184 = 1
  ∧ (∀ q, q ≠ 1184 → GET (PUT fresh 1184 (PACK 48 1)) q = GET fresh q).
Proof.
  apply (boundary_tag_round_trip fresh 1184 48 1); [reflexivity|lia].
Defined.

(** mm.c, lines 37-38.  [ALIGN] rounds a [size_t] up to the next multiple of
    eight and leaves a multiple of eight alone; for the seven largest values
    the sum in the macro wraps around and the result is 0. *)
Theorem ALIGN_rounds_up size :
  0 <= size < 2 ^ 64 →
  if size <=? 2 ^ 64 - 8
  then ALIGN size mod 8 = 0 ∧ size <= ALIGN size < size + 8
       ∧ (size mod 8 = 0 → ALIGN size = size)
       ∧ ALIGN (ALIGN size) = ALIGN size
  else ALIGN size = 0.
Proof.
  intros H. unfold ALIGN, wrap64, ALIGNMENT.
  destruct (Z.leb_spec size (2 ^ 64 - 8)) as [Hle|Hgt].
  - assert (E1 : (size + (8 - 1)) mod 2 ^ 64 = size + 7) by (apply Z.mod_small; lia).
    rewrite E1.
    assert (E2 : ((size + 7) / 8 * 8) mod 2 ^ 64 = (size + 7) / 8 * 8)
      by (apply Z.mod_small; zdiv).
    rewrite E2.
    assert (E3 : ((size + 7) / 8 * 8 + (8 - 1)) mod 2 ^ 64 = (size + 7) / 8 * 8 + 7)
      by (apply Z.mod_small; zdiv).
    rewrite E3.
    assert (E4 : ((size + 7) / 8 * 8 + 7) / 8 * 8 = (size + 7) / 8 * 8) by zdiv.
    rewrite E4, E2.
    repeat split; zdiv.
  - assert (E1 : (size + (8 - 1)) mod 2 ^ 64 = size + 7 - 2 ^ 64) by zdiv.
    rewrite E1.
    replace ((size + 7 - 2 ^ 64) / 8) with 0 by zdiv. reflexivity.
Qed.

Lemma ALIGN_rounds_up_witness :
  ALIGN 13 mod 8 = 0 ∧ 13 <= ALIGN 13 < 13 + 8
  ∧ (13 mod 8 = 0 → ALIGN 13 = 13) ∧ ALIGN (ALIGN 13) = ALIGN 13.
Proof.
  apply (ALIGN_rounds_up 13). lia.
Defined.

(** mm.c, lines 60-66.  From a block of a well-formed heap, the header gives
    its size and state, the footer holds the same word, [NEXT_BLKP] leads to
    the next block or to the end of the region, [PREV_BLKP] to the block
    before or to the prologue, and each undoes the other. *)
Theorem block_navigation st b s al :
  is_block st b s al →
  GET_SIZE st (HDRP b) = s
  ∧ GET_ALLOC st (HDRP b) = (if al then 1 else 0)
  ∧ FTRP st b = b + s - DSIZE
  ∧ GET st (FTRP st b) = GET st (HDRP b)
  ∧ NEXT_BLKP st b = b + s
  ∧ PREV_BLKP st (NEXT_BLKP st b) = b
  ∧ ((NEXT_BLKP st b = mem_brk st ∧ GET st (HDRP (NEXT_BLKP st b)) = PACK 0 1)
     ∨ ∃ s' al', is_block st (NEXT_BLKP st b) s' al')
  ∧ ((PREV_BLKP st b = heap_ptr st ∧ GET st (HDRP (PREV_BLKP st b)) = PACK DSIZE 1)
     ∨ ∃ s' al', is_block st (PREV_BLKP st b) s' al'
                 ∧ NEXT_BLKP st (PREV_BLKP st b) = b).
Proof.
  intros (bl & fl & Hrep & Hlinked & Hb).
  pose proof (rep_GET_SIZE st bl fl Hrep b s al Hb) as Hsize.
  pose proof (rep_GET_ALLOC st bl fl Hrep b s al Hb) as Halloc.
  pose proof (rep_tags st bl fl Hrep b s al Hb) as (Hh & Hf).
  pose proof (rep_blk_bounds st bl fl Hrep b s al Hb) as (Hb1 & Hb2 & Hb3 & Hb4).
  pose proof Hrep as ((Hr1 & Hr2 & Hr3 & Hr4 & Hpro & Hpro') & Ht & Htot & Hepi & _).
  assert (Hnext : NEXT_BLKP st b = b + s).
  { unfold NEXT_BLKP. fold (HDRP b). by rewrite Hsize. }
  assert (Hftr : FTRP st b = b + s - DSIZE) by (unfold FTRP; by rewrite Hsize).
  split; [done|]. split; [done|]. split; [done|].
  split; [rewrite Hftr; unfold HDRP, DSIZE, WSIZE; by rewrite Hh, <- Hf|].
  split; [done|].
  split.
  { unfold PREV_BLKP. rewrite Hnext.
    replace (b + s - DSIZE) with (b + s - 16) by (unfold DSIZE, WSIZE; lia).
    rewrite (GET_SIZE_tag st _ s al Hf Hb4). lia. }
  destruct (blk_at_split _ _ _ _ _ Hb) as (l1 & l2 & -> & Eb).
  split.
  - rewrite Hnext. destruct l2 as [|[s2 al2] r].
    + left. rewrite total_app in Htot. simpl in Htot.
      assert (E : b + s = mem_brk st) by (unfold WSIZE in *; lia).
      rewrite E. split; [done|]. exact Hepi.
    + right. exists s2, al2, (l1 ++ (s, al) :: (s2, al2) :: r), fl.
      split; [done|]. split; [done|].
      replace (l1 ++ (s, al) :: (s2, al2) :: r)
        with ((l1 ++ [(s, al)]) ++ (s2, al2) :: r) by (by rewrite <- app_assoc).
      replace (b + s) with (heap_ptr st + WSIZE + total (l1 ++ [(s, al)]) + 8)
        by (rewrite total_app; simpl; lia).
      apply blk_at_middle.
  - assert (Hl1 : (∃ l0 x, l1 = l0 ++ [x]) ∨ l1 = [])
      by (clear; destruct l1 using rev_ind; eauto).
    destruct Hl1 as [(l0 & [s0 al0] & ->)|Hnil].
    + right.
      replace ((l0 ++ [(s0, al0)]) ++ (s, al) :: l2)
        with ((l0 ++ [(s0, al0)]) ++ [(s, al)] ++ l2) in Ht by done.
      destruct (prev_footer st _ l0 s0 al0 _ Ht) as (Hpf & Hph & Hm0 & _).
      assert (Hprev : PREV_BLKP st b = heap_ptr st + WSIZE + total l0 + 8).
      { unfold PREV_BLKP.
        replace (b - DSIZE) with (heap_ptr st + WSIZE + total (l0 ++ [(s0, al0)]) - 8)
          by (unfold DSIZE, WSIZE in *; lia).
        rewrite (GET_SIZE_tag st _ s0 al0 Hpf Hm0).
        rewrite total_app in Eb. simpl in Eb. lia. }
      rewrite Hprev. exists s0, al0. split.
      * exists ((l0 ++ [(s0, al0)]) ++ (s, al) :: l2), fl.
        split; [done|]. split; [done|].
        rewrite <- app_assoc. apply blk_at_middle.
      * unfold NEXT_BLKP.
        replace (heap_ptr st + WSIZE + total l0 + 8 - WSIZE)
          with (heap_ptr st + WSIZE + total l0) by (unfold WSIZE; lia).
        rewrite (GET_SIZE_tag st _ s0 al0 Hph Hm0).
        rewrite total_app in Eb. simpl in Eb. lia.
    + left. subst l1. simpl in Eb.
      assert (Hprev : PREV_BLKP st b = heap_ptr st).
      { unfold PREV_BLKP.
        replace (b - DSIZE) with (heap_ptr st) by (unfold DSIZE, WSIZE in *; lia).
        rewrite PACK_DSIZE_1 in Hpro'.
        rewrite (GET_SIZE_tag st _ 16 true Hpro' eq_refl).
        unfold WSIZE in *. lia. }
      rewrite Hprev. split; [done|]. exact Hpro.
Qed.

Lemma block_navigation_witness :
  GET_SIZE two_blocks (HDRP 1184) = 32
  ∧ GET_ALLOC two_blocks (HDRP 1184) = 1
  ∧ FTRP two_blocks 1184 = 1184 + 32 - DSIZE
  ∧ GET two_blocks (FTRP two_blocks 1184) = GET two_blocks (HDRP 1184)
  ∧ NEXT_BLKP two_blocks 1184 = 1184 + 32
  ∧ PREV_BLKP two_blocks (NEXT_BLKP two_blocks 1184) = 1184
  ∧ ((NEXT_BLKP two_blocks 1184 = mem_brk two_blocks
      ∧ GET two_blocks (HDRP (NEXT_BLKP two_blocks 1184)) = PACK 0 1)
     ∨ ∃ s' al', is_block two_blocks (NEXT_BLKP two_blocks 1184) s' al')
  ∧ ((PREV_BLKP two_blocks 1184 = heap_ptr two_blocks
      ∧ GET two_blocks (HDRP (PREV_BLKP two_blocks 1184)) = PACK DSIZE 1)
     ∨ ∃ s' al', is_block two_blocks (PREV_BLKP two_blocks 1184) s' al'
                 ∧ NEXT_BLKP two_blocks (PREV_BLKP two_blocks 1184) = 1184).
Proof.
  exact (block_navigation two_blocks 1184 32 true two_blocks_allocated).
Defined.

(** ** [mm_malloc] and then [mm_free] *)

(** Around a free block of a layout without two free blocks in a row there
    is nothing to join. *)
Lemma tight_around l1 s l2 x :
  tight (l1 ++ (s, false) :: l2) = true →
  join_prev l1 x = (l1, x) ∧ join_next x l2 = (x, l2).
Proof.
  unfold tight. rewrite tight_from_app. simpl.
  intros [_ [Hl Hr]%andb_true_iff]%andb_true_iff.
  rewrite andb_true_r in Hl. apply negb_true_iff in Hl.
  split.
  - destruct (join_prev_spec l1 x) as [[E _]|(l1' & s0 & -> & _)]; [done|].
    unfold ends_free in Hl. by rewrite last_snoc in Hl.
  - destruct (join_next_spec x l2) as [[E _]|(s2 & r & -> & _)]; [done|].
    simpl in Hr. done.
Qed.

(** Freeing the block that [place] made gives the free block back. *)
Lemma coalesced_placed l1 s need l2 :
  tight (l1 ++ (s, false) :: l2) = true →
  coalesced l1 need ((s - need, false) :: l2) = l1 ++ (s, false) :: l2
  ∧ coalesced l1 s l2 = l1 ++ (s, false) :: l2.
Proof.
  intros Ht. unfold coalesced. split.
  - simpl. destruct (tight_around l1 s l2 (need + (s - need)) Ht) as [-> _].
    simpl. do 3 f_equal. lia.
  - destruct (tight_around l1 s l2 s Ht) as [_ ->]. simpl.
    destruct (tight_around l1 s l2 s Ht) as [-> _]. done.
Qed.

(** The same for the block at the end of a region that has grown. *)
Lemma coalesced_grown bl x r1 s2 need :
  tight bl = true → join_prev bl x = (r1, s2) →
  coalesced bl x [] = r1 ++ [(s2, false)]
  ∧ coalesced r1 need [(s2 - need, false)] = r1 ++ [(s2, false)]
  ∧ coalesced r1 s2 [] = r1 ++ [(s2, false)].
Proof.
  intros Ht Ej.
  assert (Hr : tight (r1 ++ [(s2, false)]) = true).
  { pose proof (tight_coalesced bl x [] Ht eq_refl) as Hc.
    unfold coalesced in Hc. simpl in Hc. by rewrite Ej in Hc. }
  split; [unfold coalesced; simpl; by rewrite Ej|].
  apply (coalesced_placed r1 s2 need [] Hr).
Qed.

(** The layout after [mm_malloc] and [mm_free] of its result. *)
Lemma malloc_free_layout st bl fl n :
  rep st bl fl → linked (heap_ptr st + WSIZE) bl fl [] → tight bl = true →
  0 < n < 2 ^ 61 →
  ∃ st1 q,
    mm_malloc st n = Some (st1, q)
    ∧ (q = NULL → st1 = st)
    ∧ (q ≠ NULL →
       ∃ st2 fl2 bl2,
         mm_free st1 q = Some st2
         ∧ rep st2 bl2 fl2 ∧ linked (heap_ptr st + WSIZE) bl2 fl2 []
         ∧ heap_ptr st2 = heap_ptr st ∧ mem_brk st2 = mem_brk st1
         ∧ ((bl2 = bl ∧ mem_brk st1 = mem_brk st)
            ∨ (bl2 = coalesced bl (Z.max (align_size n) 4112) []
               ∧ mem_brk st1 = mem_brk st + Z.max (align_size n) 4112))).
Proof.
  intros Hrep Hlinked Ht Hn.
  destruct (mm_malloc_layout st bl fl n Hrep Hlinked Hn)
    as [(Hmal & _)
       |[(st1 & fl1 & l1 & s & l2 & Ebl & _ & _ & Hmal & Hrep1 & Hlinked1 & Hstep & Hbrk)
        |(st1 & fl1 & r1 & s2 & Ej & _ & _ & Hmal & Hrep1 & Hlinked1 & Hstep & Hbrk)]].
  - exists st, NULL. by split.
  - destruct Hstep as (EH & _). rewrite <- EH in Hlinked1 |- *.
    exists st1, (heap_ptr st1 + WSIZE + total l1 + 8).
    rewrite <- EH in Hmal.
    split; [done|].
    pose proof Hrep as ((Hh & _) & _).
    pose proof (rep_sized st bl fl Hrep) as Hsz. rewrite Ebl in Hsz.
    apply sized_app in Hsz as [Hsz _]. pose proof (total_nonneg l1 Hsz).
    split; [unfold NULL, WSIZE; lia|]. intros _.
    rewrite Ebl in Ht.
    destruct (coalesced_placed l1 s (align_size n) l2 Ht) as [E1 E2].
    unfold placed in Hrep1, Hlinked1.
    destruct (4 * WSIZE <=? s - align_size n).
    + destruct (mm_free_layout_at st1 fl1 l1 ((s - align_size n, false) :: l2)
                  (align_size n) Hrep1 Hlinked1)
        as (st2 & fl2 & Hfree & Hrep2 & Hlinked2 & (EH2 & EB2 & _) & _).
      rewrite E1 in Hrep2, Hlinked2.
      exists st2, fl2, bl. rewrite Ebl.
      split; [done|]. split; [done|]. split; [done|]. split; [done|].
      split; [done|]. by left.
    + destruct (mm_free_layout_at st1 fl1 l1 l2 s Hrep1 Hlinked1)
        as (st2 & fl2 & Hfree & Hrep2 & Hlinked2 & (EH2 & EB2 & _) & _).
      rewrite E2 in Hrep2, Hlinked2.
      exists st2, fl2, bl. rewrite Ebl.
      split; [done|]. split; [done|]. split; [done|]. split; [done|].
      split; [done|]. by left.
  - destruct Hstep as (EH & _). rewrite <- EH in Hlinked1 |- *.
    exists st1, (heap_ptr st1 + WSIZE + total r1 + 8).
    rewrite <- EH in Hmal.
    split; [done|].
    pose proof Hrep1 as ((Hh & _) & _).
    pose proof (rep_sized st1 _ fl1 Hrep1) as Hsz.
    assert (Hsr : sized r1).
    { unfold placed in Hsz. destruct (4 * WSIZE <=? s2 - align_size n);
        by apply sized_app in Hsz as [? _]. }
    pose proof (total_nonneg r1 Hsr).
    split; [unfold NULL, WSIZE; lia|]. intros _.
    destruct (coalesced_grown bl _ r1 s2 (align_size n) Ht Ej) as (E0 & E1 & E2).
    unfold placed in Hrep1, Hlinked1.
    destruct (4 * WSIZE <=? s2 - align_size n).
    + destruct (mm_free_layout_at st1 fl1 r1 [(s2 - align_size n, false)]
                  (align_size n) Hrep1 Hlinked1)
        as (st2 & fl2 & Hfree & Hrep2 & Hlinked2 & (EH2 & EB2 & _) & _).
      rewrite E1, <- E0 in Hrep2, Hlinked2.
      exists st2, fl2, (coalesced bl (Z.max (align_size n) 4112) []).
      split; [done|]. split; [done|]. split; [done|]. split; [done|].
      split; [done|]. by right.
    + destruct (mm_free_layout_at st1 fl1 r1 [] s2 Hrep1 Hlinked1)
        as (st2 & fl2 & Hfree & Hrep2 & Hlinked2 & (EH2 & EB2 & _) & _).
      rewrite E2, <- E0 in Hrep2, Hlinked2.
      exists st2, fl2, (coalesced bl (Z.max (align_size n) 4112) []).
      split; [done|]. split; [done|]. split; [done|]. split; [done|].
      split; [done|]. by right.
Qed.

(** mm.c, lines 138-197.  In a heap reached from [mm_init] through
    [mm_malloc] and [mm_free], freeing the block that [mm_malloc] has just
    returned leaves the allocated blocks exactly as they were before the
    [mm_malloc].  When [mm_malloc] did not move the break, all blocks, free
    ones too, are as before; when it did, the break stays where [mm_malloc]
    put it. *)
Theorem mm_malloc_then_mm_free st n :
  reachable st → 0 < n < 2 ^ 61 →
  ∃ st1 q,
    mm_malloc st n = Some (st1, q)
    ∧ (q ≠ NULL →
       ∃ st2,
         mm_free st1 q = Some st2
         ∧ (∀ z sz, allocated st2 z sz ↔ allocated st z sz)
         ∧ (mem_brk st1 = mem_brk st →
            ∀ b s al, is_block st2 b s al ↔ is_block st b s al)
         ∧ mem_brk st2 = mem_brk st1).
Proof.
  intros Hreach Hn.
  destruct (reachable_tight st Hreach) as (bl & fl & Hrep & Hlinked & Ht).
  destruct (malloc_free_layout st bl fl n Hrep Hlinked Ht Hn)
    as (st1 & q & Hmal & _ & Hq).
  exists st1, q. split; [done|]. intros Hne.
  destruct (Hq Hne) as (st2 & fl2 & bl2 & Hfree & Hrep2 & Hlinked2 & EH & EB & Hbl).
  exists st2. split; [done|].
  assert (Hblk : ∀ b s al, is_block st2 b s al ↔ blk_at (heap_ptr st + WSIZE) bl2 b s al).
  { intros b s al. split.
    - intros (bl0 & fl0 & Hrep0 & _ & Hb).
      rewrite <- (rep_layout_unique st2 bl2 fl2 bl0 fl0 Hrep2 Hrep0) in Hb.
      by rewrite EH in Hb.
    - intros Hb. exists bl2, fl2. by rewrite EH. }
  assert (Hblk0 : ∀ b s al, is_block st b s al ↔ blk_at (heap_ptr st + WSIZE) bl b s al).
  { intros b s al. split.
    - intros (bl0 & fl0 & Hrep0 & _ & Hb).
      by rewrite <- (rep_layout_unique st bl fl bl0 fl0 Hrep Hrep0) in Hb.
    - intros Hb. by exists bl, fl. }
  split; [|split; [|done]].
  - intros z sz. change (is_block st2 z sz true ↔ is_block st z sz true).
    rewrite Hblk, Hblk0.
    destruct Hbl as [[-> _]|[-> _]]; [done|].
    rewrite blk_at_coalesced. simpl. tauto.
  - intros Hsame b s al. rewrite Hblk, Hblk0.
    destruct Hbl as [[-> _]|[_ Hg]]; [done|].
    pose proof (align_size_props n). lia.
Qed.

Lemma mm_malloc_then_mm_free_witness :
  ∃ st1 q,
    mm_malloc two_plain 8 = Some (st1, q)
    ∧ (q ≠ NULL →
       ∃ st2,
         mm_free st1 q = Some st2
         ∧ (∀ z sz, allocated st2 z sz ↔ allocated two_plain z sz)
         ∧ (mem_brk st1 = mem_brk two_plain →
            ∀ b s al, is_block st2 b s al ↔ is_block two_plain b s al)
         ∧ mem_brk st2 = mem_brk st1).
Proof.
  assert (H : 0 < 8 < 2 ^ 61) by lia.
  exact (mm_malloc_then_mm_free two_plain 8 two_plain_reachable H).
Defined.
